(** * ekam: ownership handles (base/OwnedPtr.h) and the process manager
      (Subprocess.cpp)

    A shallow embedding of the two components and the properties that the
    specification states about them.

    Conventions.
    - Raw pointers are [option]: [None] is NULL.
    - Heap objects and refcount blocks are named by numbers; an address is
      handed out once and never again.
    - [delete] of an object is recorded in a destruction log, so that
      "destroyed once" and "destroyed twice" are facts about the log.
    - Behaviour that C++ leaves undefined (touching a freed refcount block,
      indexing a vector out of range, overflowing an [int]) and assertion
      failures (dereferencing an empty handle) are explicit outcomes. *)

From stdpp Require Import gmap strings list fin_maps.
From Stdlib Require Import ZArith Lia Permutation.

Local Open Scope Z_scope.

(* ===================================================================== *)
(** * Subprocess.cpp *)
(* ===================================================================== *)

Module Subprocess.

(** Modelled from the spec: Subprocess.h is not among the sources.  The
    lifecycle states are those Subprocess.cpp names, "NOT_STARTED,
    RUNNING, then EXITED or SIGNALED". *)
Inductive State := NOT_STARTED | RUNNING | EXITED | SIGNALED.

Definition FileDescriptor := nat.

(** Modelled from the spec: Pipe.h is not among the sources.  "Allocating a
    pipe yields a read end (handed to the caller) and a write end (retained
    internally)".  The read end is an owned handle that [releaseReadEnd]
    moves out. *)
Record Pipe := mkPipe {
  readEnd : option FileDescriptor;
  writeEnd : FileDescriptor
}.

Definition releaseReadEnd (p : Pipe) : option FileDescriptor * Pipe :=
  (readEnd p, {| readEnd := None; writeEnd := writeEnd p |}).

(** Modelled from the spec: File.h is not among the sources.  A file
    resolves, "for a stated usage intent (read-only vs. mutate-in-place)",
    to an owned disk reference "exposing a concrete path string". *)
Inductive Usage := READ | UPDATE.

Record DiskRef := mkDiskRef { path : string }.

Record File := mkFile { getOnDisk : Usage -> DiskRef }.

(** Modelled from the spec: EventManager.h is not among the sources.  The
    caller's EventManager::ProcessExitCallback object, on which exited or
    signaled is called, and the cancellation token that
    EventManager::onProcessExit hands back for a process id. *)
Definition Callback := nat.
Record Canceler := mkCanceler { watchedPid : Z }.

(** Modelled from the spec: Subprocess.h is not among the sources.  The
    fields are the ones Subprocess.cpp reads and writes, the "process
    invocation record" of the specification; pipeCount and
    exitStatusOrSignalNumber are numbers far from any overflow. *)
Record Subprocess := mkSubprocess {
  executableName : string;
  doPathLookup : bool;
  args : list string;
  diskRefs : list DiskRef;
  stdoutPipe : option Pipe;
  stderrPipe : option Pipe;
  stdoutAndStderrPipe : option Pipe;
  pipeCount : Z;
  pid : Z;
  state : State;
  exitStatusOrSignalNumber : Z;
  canceler : option Canceler;
  finalCallback : option Callback
}.

(** Subprocess::Subprocess().  The constructor leaves
    exitStatusOrSignalNumber uninitialised; it is written by [done] before
    [maybeCallFinalCallback] can read it. *)
Definition new : Subprocess :=
  {| executableName := ""; doPathLookup := false; args := [];
     diskRefs := []; stdoutPipe := None; stderrPipe := None;
     stdoutAndStderrPipe := None; pipeCount := 0; pid := -1;
     state := NOT_STARTED; exitStatusOrSignalNumber := 0;
     canceler := None; finalCallback := None |}.

(** ** Argument assembly *)

(** void Subprocess::addArgument(const std::string& arg) *)
Definition addArgument (arg : string) (s : Subprocess) : Subprocess :=
  let empty := match args s with [] => true | _ => false end in
  {| executableName := if empty then arg else executableName s;
     doPathLookup := if empty then true else doPathLookup s;
     args := args s ++ [arg];
     diskRefs := diskRefs s;
     stdoutPipe := stdoutPipe s; stderrPipe := stderrPipe s;
     stdoutAndStderrPipe := stdoutAndStderrPipe s;
     pipeCount := pipeCount s; pid := pid s; state := state s;
     exitStatusOrSignalNumber := exitStatusOrSignalNumber s;
     canceler := canceler s; finalCallback := finalCallback s |}.

(** void Subprocess::addArgument(File* file, File::Usage usage) *)
Definition addArgumentFile (file : File) (usage : Usage) (s : Subprocess)
  : Subprocess :=
  let diskRef := getOnDisk file usage in
  let empty := match args s with [] => true | _ => false end in
  {| executableName := if empty then path diskRef else executableName s;
     doPathLookup := if empty then false else doPathLookup s;
     args := args s ++ [path diskRef];
     diskRefs := diskRefs s ++ [diskRef];
     stdoutPipe := stdoutPipe s; stderrPipe := stderrPipe s;
     stdoutAndStderrPipe := stdoutAndStderrPipe s;
     pipeCount := pipeCount s; pid := pid s; state := state s;
     exitStatusOrSignalNumber := exitStatusOrSignalNumber s;
     canceler := canceler s; finalCallback := finalCallback s |}.

(** ** Capture configuration

    [allocate()] obtains a new pipe from the operating system; the pipe it
    obtains is an argument of the model.  Each function returns what it
    stores in [*output]. *)

Definition setPipes (out err both : option Pipe) (s : Subprocess)
  : Subprocess :=
  {| executableName := executableName s; doPathLookup := doPathLookup s;
     args := args s; diskRefs := diskRefs s;
     stdoutPipe := out; stderrPipe := err; stdoutAndStderrPipe := both;
     pipeCount := pipeCount s; pid := pid s; state := state s;
     exitStatusOrSignalNumber := exitStatusOrSignalNumber s;
     canceler := canceler s; finalCallback := finalCallback s |}.

(** void Subprocess::captureStdout(OwnedPtr<FileDescriptor>* output) *)
Definition captureStdout (fresh : Pipe) (s : Subprocess)
  : option FileDescriptor * Subprocess :=
  let '(output, p) := releaseReadEnd fresh in
  (output, setPipes (Some p) (stderrPipe s) None s).

(** void Subprocess::captureStderr(OwnedPtr<FileDescriptor>* output) *)
Definition captureStderr (fresh : Pipe) (s : Subprocess)
  : option FileDescriptor * Subprocess :=
  let '(output, p) := releaseReadEnd fresh in
  (output, setPipes (stdoutPipe s) (Some p) None s).

(** void Subprocess::captureStdoutAndStderr(OwnedPtr<FileDescriptor>* output) *)
Definition captureStdoutAndStderr (fresh : Pipe) (s : Subprocess)
  : option FileDescriptor * Subprocess :=
  let '(output, p) := releaseReadEnd fresh in
  (output, setPipes None None (Some p) s).

(** A capture-configuration call, with the pipe its [allocate()] obtains. *)
Inductive CaptureCall :=
| CaptureStdout (fresh : Pipe)
| CaptureStderr (fresh : Pipe)
| CaptureStdoutAndStderr (fresh : Pipe).

Definition capture (c : CaptureCall) (s : Subprocess) : Subprocess :=
  match c with
  | CaptureStdout p => snd (captureStdout p s)
  | CaptureStderr p => snd (captureStderr p s)
  | CaptureStdoutAndStderr p => snd (captureStdoutAndStderr p s)
  end.

Definition captures (cs : list CaptureCall) (s : Subprocess) : Subprocess :=
  foldl (fun s c => capture c s) s cs.

Definition isSome {A} (o : option A) : bool :=
  match o with Some _ => true | None => false end.

(** Number of capture bindings that are set. *)
Definition activeCaptures (s : Subprocess) : nat :=
  ((if isSome (stdoutPipe s) then 1 else 0)
   + (if isSome (stderrPipe s) then 1 else 0)
   + (if isSome (stdoutAndStderrPipe s) then 1 else 0))%nat.

(** The binding a call selects. *)
Definition selected (c : CaptureCall) (s : Subprocess) : option Pipe :=
  match c with
  | CaptureStdout _ => stdoutPipe s
  | CaptureStderr _ => stderrPipe s
  | CaptureStdoutAndStderr _ => stdoutAndStderrPipe s
  end.

(** ** Completion tracking

    Calls made on the caller's completion callback are observable; they are
    appended to a log that is threaded through the operations.  [None] is
    the assertion failure of dereferencing an empty [finalCallback]. *)

Inductive Call :=
| CallExited (cb : Callback) (exitCode : Z)
| CallSignaled (cb : Callback) (signalNumber : Z).

Definition World : Type := Subprocess * list Call.

Definition setCompletion (pc : Z) (st : State) (n : Z) (p : Z)
  (c : option Canceler) (refs : list DiskRef) (cb : option Callback)
  (s : Subprocess) : Subprocess :=
  {| executableName := executableName s; doPathLookup := doPathLookup s;
     args := args s; diskRefs := refs;
     stdoutPipe := stdoutPipe s; stderrPipe := stderrPipe s;
     stdoutAndStderrPipe := stdoutAndStderrPipe s;
     pipeCount := pc; pid := p; state := st;
     exitStatusOrSignalNumber := n;
     canceler := c; finalCallback := cb |}.

(** finalCallback.clear() *)
Definition clearFinalCallback (s : Subprocess) : Subprocess :=
  setCompletion (pipeCount s) (state s) (exitStatusOrSignalNumber s) (pid s)
    (canceler s) (diskRefs s) None s.

(** void Subprocess::maybeCallFinalCallback() *)
Definition maybeCallFinalCallback (w : World) : option World :=
  let '(s, log) := w in
  if pipeCount s =? 0 then
    match state s with
    | EXITED =>
        match finalCallback s with
        | Some cb =>
            Some (clearFinalCallback s,
                  log ++ [CallExited cb (exitStatusOrSignalNumber s)])
        | None => None
        end
    | SIGNALED =>
        match finalCallback s with
        | Some cb =>
            Some (clearFinalCallback s,
                  log ++ [CallSignaled cb (exitStatusOrSignalNumber s)])
        | None => None
        end
    | _ => Some (s, log)
    end
  else Some (s, log).

(** void Subprocess::pipeDone() *)
Definition pipeDone (w : World) : option World :=
  let '(s, log) := w in
  maybeCallFinalCallback
    (setCompletion (pipeCount s - 1) (state s) (exitStatusOrSignalNumber s)
       (pid s) (canceler s) (diskRefs s) (finalCallback s) s, log).

(** void Subprocess::done(State state, int exitStatusOrSignalNumber) *)
Definition done (st : State) (n : Z) (w : World) : option World :=
  let '(s, log) := w in
  maybeCallFinalCallback
    (setCompletion (pipeCount s) st n (-1) None [] (finalCallback s) s, log).

(** class Subprocess::CallbackWrapper: what the dispatcher's exit watch
    calls. *)
Definition exited (exitCode : Z) (w : World) : option World :=
  done EXITED exitCode w.

Definition signaled (signalNumber : Z) (w : World) : option World :=
  done SIGNALED signalNumber w.

(** ** Start *)

(** How a process ends, as wait(2) reports it. *)
Inductive Termination :=
| Exits (exitCode : Z)
| Killed (signalNumber : Z).

(** What a standard stream of the child refers to. *)
Inductive Stream :=
| Inherited (fd : FileDescriptor)
| PipeWriteEnd (fd : FileDescriptor).

Definition STDOUT_FILENO : FileDescriptor := 1%nat.
Definition STDERR_FILENO : FileDescriptor := 2%nat.

Inductive ExecCall :=
| Execvp (file : string) (argv : list string)
| Execv (pathname : string) (argv : list string).

(** The child between fork and exec: its two output streams and the exec
    call it makes. *)
Record Child := mkChild {
  childStdout : Stream;
  childStderr : Stream;
  childExec : ExecCall
}.

(** The child branch of Subprocess::start, up to the exec call. *)
Definition startChild (s : Subprocess) : Child :=
  let out0 := Inherited STDOUT_FILENO in
  let err0 := Inherited STDERR_FILENO in
  let out1 := match stdoutPipe s with
              | Some p => PipeWriteEnd (writeEnd p) | None => out0 end in
  let err1 := match stderrPipe s with
              | Some p => PipeWriteEnd (writeEnd p) | None => err0 end in
  let '(out2, err2) :=
    match stdoutAndStderrPipe s with
    | Some p => (PipeWriteEnd (writeEnd p), PipeWriteEnd (writeEnd p))
    | None => (out1, err1)
    end in
  {| childStdout := out2; childStderr := err2;
     childExec := if doPathLookup s
                  then Execvp (executableName s) (args s)
                  else Execv (executableName s) (args s) |}.

(** What the operating system does with an exec call: it fails and
    returns, or the process image is replaced by the target program, which
    terminates in some way or runs forever ([None]). *)
Inductive ExecResult :=
| ExecFails (errno : Z)
| ProgramRuns (fate : option Termination).

(** The rest of the child branch: exec; perror("exec"); exit(1). *)
Definition childFate (os : ExecCall -> ExecResult) (c : Child)
  : option Termination :=
  match os (childExec c) with
  | ProgramRuns fate => fate
  | ExecFails _ => Some (Exits 1)
  end.

(** The parent branch of Subprocess::start. *)
Definition startParent (childPid : Z) (callbackToAdopt : Callback)
  (s : Subprocess) : Subprocess :=
  let n1 := if isSome (stdoutPipe s) then pipeCount s + 1 else pipeCount s in
  let n2 := if isSome (stderrPipe s) then n1 + 1 else n1 in
  let n3 := if isSome (stdoutAndStderrPipe s) then n2 + 1 else n2 in
  {| executableName := executableName s; doPathLookup := doPathLookup s;
     args := args s; diskRefs := diskRefs s;
     stdoutPipe := None; stderrPipe := None; stdoutAndStderrPipe := None;
     pipeCount := n3; pid := childPid; state := RUNNING;
     exitStatusOrSignalNumber := exitStatusOrSignalNumber s;
     canceler := Some (mkCanceler childPid);
     finalCallback := Some callbackToAdopt |}.

Inductive StartOutcome :=
| ThrowsOsError (function : string) (errno : Z)
| InChild (c : Child)
| InParent (s : Subprocess).

(** void Subprocess::start(eventManager, callbackToAdopt), given what
    fork() returns (and errno when it fails). *)
Definition start (forkResult errno : Z) (callbackToAdopt : Callback)
  (s : Subprocess) : StartOutcome :=
  if forkResult <? 0 then ThrowsOsError "fork" errno
  else if forkResult =? 0 then InChild (startChild s)
  else InParent (startParent forkResult callbackToAdopt s).

(** ** Notifications

    The pipe-drain watcher calls [pipeDone]; the dispatcher's exit watch
    calls the wrapper's [exited] or [signaled]. *)

Inductive Notification :=
| PipeDrained
| ProcessExited (exitCode : Z)
| ProcessSignaled (signalNumber : Z).

Definition notify (n : Notification) (w : World) : option World :=
  match n with
  | PipeDrained => pipeDone w
  | ProcessExited c => exited c w
  | ProcessSignaled g => signaled g w
  end.

Fixpoint notifyAll (ns : list Notification) (w : World) : option World :=
  match ns with
  | [] => Some w
  | n :: ns' =>
      match notify n w with
      | Some w' => notifyAll ns' w'
      | None => None
      end
  end.

(** The exit watch reports how the child ended. *)
Definition exitNotification (t : Termination) : Notification :=
  match t with
  | Exits c => ProcessExited c
  | Killed g => ProcessSignaled g
  end.

Definition isExitNotification (n : Notification) : bool :=
  match n with PipeDrained => false | _ => true end.

Definition terminal (st : State) : bool :=
  match st with EXITED | SIGNALED => true | _ => false end.

(** The call the callback [cb] receives for an exit notification. *)
Definition callFor (cb : Callback) (n : Notification) : list Call :=
  match n with
  | PipeDrained => []
  | ProcessExited c => [CallExited cb c]
  | ProcessSignaled g => [CallSignaled cb g]
  end.

(** Configuration calls made before start. *)
Inductive ConfigCall :=
| AddArgument (arg : string)
| AddArgumentFile (file : File) (usage : Usage)
| Capture (c : CaptureCall).

Definition configure1 (c : ConfigCall) (s : Subprocess) : Subprocess :=
  match c with
  | AddArgument a => addArgument a s
  | AddArgumentFile f u => addArgumentFile f u s
  | Capture c => capture c s
  end.

Definition configure (cs : list ConfigCall) (s : Subprocess) : Subprocess :=
  foldl (fun s c => configure1 c s) s cs.

End Subprocess.

(* ===================================================================== *)
(** * base/OwnedPtr.h *)
(* ===================================================================== *)

(** ** The heap and the outcome of running code on it *)

Abbreviation obj := nat.   (* address of a heap object, a non-null T* *)
Abbreviation loc := nat.   (* address of a Refcount block *)
Abbreviation var := nat.   (* name of a handle variable *)

Definition INT_MAX : Z := 2147483647.
Definition INT_MIN : Z := -2147483648.

Inductive Outcome (A : Type) : Type :=
| Ok (a : A)
| Undefined     (* undefined behaviour: freed block, bad index, int overflow *)
| NotInScope.   (* a statement uses a variable that does not exist, or
                   declares one that does: not a program *)
Arguments Ok {A} a.
Arguments Undefined {A}.
Arguments NotInScope {A}.

(** Computations that read and write a state of type [S]. *)
Definition M (S A : Type) : Type := S -> Outcome (A * S).

Definition ret {S A} (a : A) : M S A := fun s => Ok (a, s).

Definition bind {S A B} (c : M S A) (k : A -> M S B) : M S B :=
  fun s =>
    match c s with
    | Ok (a, s') => k a s'
    | Undefined => Undefined
    | NotInScope => NotInScope
    end.

Definition undefined {S A} : M S A := fun _ => Undefined.
Definition notInScope {S A} : M S A := fun _ => NotInScope.

Declare Scope m_scope.
Delimit Scope m_scope with m.
Notation "'let!' x ':=' c 'in' k" := (bind c (fun x => k))
  (at level 10, x name, c at level 100, k at level 200) : m_scope.
Local Open Scope m_scope.

(** class Refcount: the two counters of a block. *)
Module Refcount.
Record t := mk { strong : Z; weak : Z }.
End Refcount.

Record Heap := mkHeap {
  blocks : gmap loc Refcount.t;          (* the allocated refcount blocks *)
  nextBlock : loc;                       (* what new Refcount() returns next *)
  nextObj : obj;                         (* what new T() returns next *)
  destroyed : list obj;                  (* objects deleted, oldest first *)
  freed : list (loc * Refcount.t)        (* blocks deleted, with the counters
                                            they had at that moment *)
}.

Definition emptyHeap : Heap :=
  {| blocks := ∅; nextBlock := 0%nat; nextObj := 0%nat;
     destroyed := []; freed := [] |}.

Definition setBlocks (bs : gmap loc Refcount.t) (h : Heap) : Heap :=
  {| blocks := bs; nextBlock := nextBlock h; nextObj := nextObj h;
     destroyed := destroyed h; freed := freed h |}.

(** new T(...) *)
Definition newObject : M Heap obj := fun h =>
  Ok (nextObj h,
      {| blocks := blocks h; nextBlock := nextBlock h;
         nextObj := S (nextObj h);
         destroyed := destroyed h; freed := freed h |}).

(** deleteEnsuringCompleteType(ptr): delete of NULL does nothing. *)
Definition deleteEnsuringCompleteType (ptr : option obj) : M Heap unit :=
  fun h =>
    match ptr with
    | None => Ok (tt, h)
    | Some o =>
        Ok (tt, {| blocks := blocks h; nextBlock := nextBlock h;
                   nextObj := nextObj h;
                   destroyed := destroyed h ++ [o]; freed := freed h |})
    end.

(** Reading and writing the counters of the block at [l]; new and delete
    of a block. *)
Definition load (l : loc) : M Heap Refcount.t := fun h =>
  match blocks h !! l with
  | Some b => Ok (b, h)
  | None => Undefined
  end.

Definition store (l : loc) (b : Refcount.t) : M Heap unit := fun h =>
  match blocks h !! l with
  | Some _ => Ok (tt, setBlocks (<[l := b]> (blocks h)) h)
  | None => Undefined
  end.

Definition deleteBlock (l : loc) : M Heap unit := fun h =>
  match blocks h !! l with
  | Some b =>
      Ok (tt, {| blocks := delete l (blocks h); nextBlock := nextBlock h;
                 nextObj := nextObj h; destroyed := destroyed h;
                 freed := freed h ++ [(l, b)] |})
  | None => Undefined
  end.

Module RefcountOps.
Import Refcount.

(** new Refcount(): strong(1), weak(0) *)
Definition new : M Heap loc := fun h =>
  Ok (nextBlock h,
      {| blocks := <[nextBlock h := mk 1 0]> (blocks h);
         nextBlock := S (nextBlock h); nextObj := nextObj h;
         destroyed := destroyed h; freed := freed h |}).

(** static void inc(Refcount* r) *)
Definition inc (r : option loc) : M Heap unit :=
  match r with
  | None => ret tt
  | Some l =>
      let! b := load l in
      if strong b =? INT_MAX then undefined
      else store l (mk (strong b + 1) (weak b))
  end.

(** static bool dec(Refcount* r) *)
Definition dec (r : option loc) : M Heap bool :=
  match r with
  | None => ret false
  | Some l =>
      let! b := load l in
      if strong b =? INT_MIN then undefined
      else
        let! _ := store l (mk (strong b - 1) (weak b)) in
        if strong b - 1 =? 0 then
          let! _ := (if weak b =? 0 then deleteBlock l else ret tt) in
          ret true
        else ret false
  end.

(** static void incWeak(Refcount* r) *)
Definition incWeak (r : option loc) : M Heap unit :=
  match r with
  | None => ret tt
  | Some l =>
      let! b := load l in
      if weak b =? INT_MAX then undefined
      else store l (mk (strong b) (weak b + 1))
  end.

(** static void decWeak(Refcount* r) *)
Definition decWeak (r : option loc) : M Heap unit :=
  match r with
  | None => ret tt
  | Some l =>
      let! b := load l in
      if weak b =? INT_MIN then undefined
      else
        let! _ := store l (mk (strong b) (weak b - 1)) in
        if (weak b - 1 =? 0) && (strong b =? 0) then deleteBlock l
        else ret tt
  end.

(** static bool release(Refcount* r) *)
Definition release (r : option loc) : M Heap bool :=
  match r with
  | None => ret false
  | Some l =>
      let! b := load l in
      if strong b =? 1 then let! _ := dec r in ret true
      else ret false
  end.

(** static bool isLive(Refcount* r) *)
Definition isLive (r : option loc) : M Heap bool :=
  match r with
  | None => ret false
  | Some l => let! b := load l in ret (0 <? strong b)
  end.

End RefcountOps.

(** ** template class OwnedPtr *)
Module OwnedPtr.

Record t := mk { ptr : option obj }.

(** OwnedPtr() *)
Definition empty : t := mk None.

(** ~OwnedPtr() *)
Definition destructor (this : t) : M Heap unit :=
  deleteEnsuringCompleteType (ptr this).

(** void reset(T* newValue) *)
Definition reset (this : t) (newValue : option obj) : M Heap t :=
  let oldValue := ptr this in
  let! _ := deleteEnsuringCompleteType oldValue in
  ret (mk newValue).

(** T* releaseRaw(): the pointer, and the handle afterwards *)
Definition releaseRaw (this : t) : option obj * t := (ptr this, mk None).

(** OwnedPtr release(): the new handle, and this handle afterwards *)
Definition release (this : t) : t * t :=
  let '(p, this') := releaseRaw this in (mk p, this').

(** void clear() *)
Definition clear (this : t) : M Heap t := reset this None.

(** newOwned<T>(params...) *)
Definition newOwned : M Heap t :=
  let! o := newObject in ret (mk (Some o)).

End OwnedPtr.

(** ** template class SmartPtr *)
Module SmartPtr.

Record t := mk { ptr : option obj; refcount : option loc }.

(** SmartPtr() *)
Definition empty : t := mk None None.

(** T* get() const *)
Definition get (this : t) : option obj := ptr this.

(** ~SmartPtr() *)
Definition destructor (this : t) : M Heap unit :=
  let! last := RefcountOps.dec (refcount this) in
  if (last : bool) then deleteEnsuringCompleteType (ptr this) else ret tt.

(** SmartPtr(const SmartPtr& other) *)
Definition copy (other : t) : M Heap t :=
  let! _ := RefcountOps.inc (refcount other) in
  ret (mk (ptr other) (refcount other)).

(** SmartPtr(SmartPtr&& other): the new handle, and [other] afterwards *)
Definition move (other : t) : t * t :=
  (mk (ptr other) (refcount other), empty).

(** void reset(T* newValue, Refcount* newRefcount) *)
Definition reset2 (this : t) (newValue : option obj)
  (newRefcount : option loc) : M Heap t :=
  let oldValue := ptr this in
  let oldRefcount := refcount this in
  let! _ := RefcountOps.inc newRefcount in
  let! last := RefcountOps.dec oldRefcount in
  let! _ := (if (last : bool) then deleteEnsuringCompleteType oldValue
             else ret tt) in
  ret (mk newValue newRefcount).

(** inline void reset(T* newValue) *)
Definition reset (this : t) (newValue : option obj) : M Heap t :=
  let! newRefcount :=
    match newValue with
    | None => ret None
    | Some _ => let! l := RefcountOps.new in ret (Some l)
    end in
  let! this' := reset2 this newValue newRefcount in
  let! _ := RefcountOps.dec (refcount this') in
  ret this'.

(** SmartPtr& operator=(const SmartPtr& other) *)
Definition assign (this other : t) : M Heap t :=
  reset2 this (ptr other) (refcount other).

(** SmartPtr(OwnedPtr<U>&& other): the new handle, and [other] afterwards *)
Definition fromOwned (other : OwnedPtr.t) : M Heap (t * OwnedPtr.t) :=
  let '(p, other') := OwnedPtr.releaseRaw other in
  let! rc :=
    match p with
    | None => ret None
    | Some _ => let! l := RefcountOps.new in ret (Some l)
    end in
  ret (mk p rc, other').

(** SmartPtr& operator=(OwnedPtr<U>&& other) *)
Definition assignOwned (this : t) (other : OwnedPtr.t)
  : M Heap (t * OwnedPtr.t) :=
  let '(p, other') := OwnedPtr.releaseRaw other in
  let! this' := reset this p in
  ret (this', other').

(** bool release(OwnedPtr<U>* other): the result, this handle and [*other]
    afterwards *)
Definition release (this : t) (other : OwnedPtr.t)
  : M Heap (bool * t * OwnedPtr.t) :=
  let! sole := RefcountOps.release (refcount this) in
  if (sole : bool) then
    let! other' := OwnedPtr.reset other (ptr this) in
    ret (true, mk None (refcount this), other')
  else ret (false, this, other).

(** void clear() *)
Definition clear (this : t) : M Heap t := reset this None.

End SmartPtr.

(** ** template class WeakPtr *)
Module WeakPtr.

Record t := mk { ptr : option obj; refcount : option loc }.

(** WeakPtr() *)
Definition empty : t := mk None None.

(** WeakPtr(const WeakPtr& other) *)
Definition copy (other : t) : M Heap t :=
  let! _ := RefcountOps.incWeak (refcount other) in
  ret (mk (ptr other) (refcount other)).

(** WeakPtr(const SmartPtr<T>& other) *)
Definition fromShared (other : SmartPtr.t) : M Heap t :=
  let! _ := RefcountOps.incWeak (SmartPtr.refcount other) in
  ret (mk (SmartPtr.ptr other) (SmartPtr.refcount other)).

(** ~WeakPtr() *)
Definition destructor (this : t) : M Heap unit :=
  RefcountOps.decWeak (refcount this).

(** The body shared by the three copying operator= overloads. *)
Definition assignFields (this : t) (p : option obj) (r : option loc)
  : M Heap t :=
  let oldRefcount := refcount this in
  let! _ := RefcountOps.incWeak r in
  let! _ := RefcountOps.decWeak oldRefcount in
  ret (mk p r).

(** WeakPtr& operator=(const WeakPtr& other) *)
Definition assign (this other : t) : M Heap t :=
  assignFields this (ptr other) (refcount other).

(** WeakPtr& operator=(const SmartPtr<U>& other) *)
Definition assignShared (this : t) (other : SmartPtr.t) : M Heap t :=
  assignFields this (SmartPtr.ptr other) (SmartPtr.refcount other).

(** WeakPtr& operator=(std::nullptr_t) *)
Definition assignNull (this : t) : M Heap t :=
  let! _ := RefcountOps.decWeak (refcount this) in
  ret empty.

(** operator SmartPtr<U>() const *)
Definition upgrade (this : t) : M Heap SmartPtr.t :=
  let result := SmartPtr.empty in
  let! live := RefcountOps.isLive (refcount this) in
  if (live : bool) then SmartPtr.reset2 result (ptr this) (refcount this)
  else ret result.

End WeakPtr.

(** ** The owned containers

    A container stores raw pointers, so a slot may hold NULL. *)

(** The loop [for (iter = begin; iter != end; ++iter)
    deleteEnsuringCompleteType( *iter )] of the destructors and of clear(). *)
Fixpoint deleteEach (ptrs : list (option obj)) : M Heap unit :=
  match ptrs with
  | [] => ret tt
  | p :: rest =>
      let! _ := deleteEnsuringCompleteType p in deleteEach rest
  end.

(** Element [index] of a std::vector or std::deque; an index outside the
    container is undefined. *)
Definition at_index {A} (v : list A) (index : Z) : Outcome A :=
  if (0 <=? index) && (index <? Z.of_nat (length v)) then
    match v !! Z.to_nat index with
    | Some a => Ok a
    | None => Undefined
    end
  else Undefined.

Module OwnedPtrVector.

(** std::vector<T*> vec *)
Definition t := list (option obj).

Definition size (vec : t) : Z := Z.of_nat (length vec).
Definition get (vec : t) (index : Z) : Outcome (option obj) :=
  at_index vec index.
Definition empty (vec : t) : bool :=
  match vec with [] => true | _ => false end.

(** ~OwnedPtrVector() *)
Definition destructor (vec : t) : M Heap unit := deleteEach vec.

(** void add(OwnedPtr<T> ptr) *)
Definition add (vec : t) (ptr : OwnedPtr.t) : t :=
  vec ++ [fst (OwnedPtr.releaseRaw ptr)].

(** OwnedPtr<T> release(int index): the handle returned, and the vector
    afterwards *)
Definition release (vec : t) (index : Z) : Outcome (OwnedPtr.t * t) :=
  match at_index vec index with
  | Ok result => Ok (OwnedPtr.mk result, <[Z.to_nat index := None]> vec)
  | Undefined => Undefined
  | NotInScope => NotInScope
  end.

(** OwnedPtr<T> releaseBack() *)
Definition releaseBack (vec : t) : Outcome (OwnedPtr.t * t) :=
  match last vec with
  | Some result => Ok (OwnedPtr.mk result, removelast vec)
  | None => Undefined
  end.

(** OwnedPtr<T> releaseAndShift(int index) *)
Definition releaseAndShift (vec : t) (index : Z) : Outcome (OwnedPtr.t * t) :=
  match at_index vec index with
  | Ok result => Ok (OwnedPtr.mk result, delete (Z.to_nat index) vec)
  | Undefined => Undefined
  | NotInScope => NotInScope
  end.

(** void clear() *)
Definition clear (vec : t) : M Heap t :=
  let! _ := deleteEach vec in ret [].

End OwnedPtrVector.

Module OwnedPtrDeque.

(** std::deque<T*> q *)
Definition t := list (option obj).

Definition size (q : t) : Z := Z.of_nat (length q).

(** ~OwnedPtrDeque() *)
Definition destructor (q : t) : M Heap unit := deleteEach q.

(** void pushFront(OwnedPtr<T> ptr) *)
Definition pushFront (q : t) (ptr : OwnedPtr.t) : t :=
  fst (OwnedPtr.releaseRaw ptr) :: q.

(** OwnedPtr<T> popFront() *)
Definition popFront (q : t) : Outcome (OwnedPtr.t * t) :=
  match q with
  | ptr :: rest => Ok (OwnedPtr.mk ptr, rest)
  | [] => Undefined
  end.

(** void pushBack(OwnedPtr<T> ptr) *)
Definition pushBack (q : t) (ptr : OwnedPtr.t) : t :=
  q ++ [fst (OwnedPtr.releaseRaw ptr)].

(** OwnedPtr<T> popBack() *)
Definition popBack (q : t) : Outcome (OwnedPtr.t * t) :=
  match last q with
  | Some ptr => Ok (OwnedPtr.mk ptr, removelast q)
  | None => Undefined
  end.

(** OwnedPtr<T> releaseAndShift(int index) *)
Definition releaseAndShift (q : t) (index : Z) : Outcome (OwnedPtr.t * t) :=
  match at_index q index with
  | Ok ptr => Ok (OwnedPtr.mk ptr, delete (Z.to_nat index) q)
  | Undefined => Undefined
  | NotInScope => NotInScope
  end.

(** void clear() *)
Definition clear (q : t) : M Heap t :=
  let! _ := deleteEach q in ret [].

End OwnedPtrDeque.

Module OwnedPtrQueue.

(** std::queue<T*> q *)
Definition t := list (option obj).

Definition size (q : t) : Z := Z.of_nat (length q).

(** void push(OwnedPtr<T> ptr) *)
Definition push (q : t) (ptr : OwnedPtr.t) : t :=
  q ++ [fst (OwnedPtr.releaseRaw ptr)].

(** OwnedPtr<T> pop() *)
Definition pop (q : t) : Outcome (OwnedPtr.t * t) :=
  match q with
  | ptr :: rest => Ok (OwnedPtr.mk ptr, rest)
  | [] => Undefined
  end.

(** void clear(): while (!q.empty()) delete the front and pop it *)
Fixpoint clear (q : t) : M Heap t :=
  match q with
  | [] => ret []
  | front :: rest =>
      let! _ := deleteEnsuringCompleteType front in clear rest
  end.

(** ~OwnedPtrQueue() *)
Definition destructor (q : t) : M Heap unit :=
  let! _ := clear q in ret tt.

End OwnedPtrQueue.

Module OwnedPtrMap.
Section WithKey.
Context {Key : Type} `{Countable Key}.

(** std::unordered_map<Key, T*, HashFunc, EqualsFunc> map *)
Local Abbreviation t := (gmap Key (option obj)).

(** The values, one per entry, as one pass of the map's iterator visits
    them.  std::unordered_map leaves the order of that pass open (it
    depends on how the table was filled); the order taken here is one of
    them, and what is proved about a pass holds for every order. *)
Definition values (map : t) : list (option obj) :=
  snd <$> map_to_list map.

(** ~OwnedPtrMap() *)
Definition destructor (map : t) : M Heap unit := deleteEach (values map).

Definition size (map : t) : Z := Z.of_nat (base.size map).

(** bool contains(const Key& key) const *)
Definition contains (map : t) (key : Key) : bool :=
  match map !! key with Some _ => true | None => false end.

(** T* get(const Key& key) const *)
Definition get (map : t) (key : Key) : option obj :=
  match map !! key with
  | None => None
  | Some value => value
  end.

(** void add(const Key& key, OwnedPtr<T> ptr) *)
Definition add (map : t) (key : Key) (ptr : OwnedPtr.t) : M Heap t :=
  let value := fst (OwnedPtr.releaseRaw ptr) in
  match map !! key with
  | None => ret (<[key := value]> map)
  | Some old =>
      let! _ := deleteEnsuringCompleteType old in
      ret (<[key := value]> map)
  end.

(** bool addIfNew(const Key& key, OwnedPtr<T> ptr): the result, the map
    and the by-value parameter [ptr] afterwards *)
Definition addIfNew (map : t) (key : Key) (ptr : OwnedPtr.t)
  : M Heap (bool * t * OwnedPtr.t) :=
  let '(value, ptr') := OwnedPtr.releaseRaw ptr in
  match map !! key with
  | None => ret (true, <[key := value]> map, ptr')
  | Some _ =>
      let! _ := deleteEnsuringCompleteType value in
      ret (false, map, ptr')
  end.

(** bool release(const Key& key, OwnedPtr<T>* output): the result, the map
    and [*output] afterwards *)
Definition release (map : t) (key : Key) (output : OwnedPtr.t)
  : M Heap (bool * t * OwnedPtr.t) :=
  match map !! key with
  | None =>
      let! output' := OwnedPtr.reset output None in
      ret (false, map, output')
  | Some value =>
      let! output' := OwnedPtr.reset output value in
      ret (true, delete key map, output')
  end.

(** bool erase(const Key& key) *)
Definition erase (map : t) (key : Key) : M Heap (bool * t) :=
  match map !! key with
  | None => ret (false, map)
  | Some value =>
      let! _ := deleteEnsuringCompleteType value in
      ret (true, delete key map)
  end.

(** void clear() *)
Definition clear (map : t) : M Heap t :=
  let! _ := deleteEach (values map) in ret (∅ : t).

End WithKey.
End OwnedPtrMap.

(** ** Programs over handle variables

    Handles are C++ objects with identity: a statement names the variables
    it reads and writes, so that two names for one refcount block, and a
    handle used after it was moved from or released, are what they are in
    the source. *)

Record World := mkWorld {
  heap : Heap;
  owned : gmap var OwnedPtr.t;     (* OwnedPtr<T> variables in scope *)
  shared : gmap var SmartPtr.t;    (* SmartPtr<T> variables in scope *)
  weaks : gmap var WeakPtr.t       (* WeakPtr<T> variables in scope *)
}.

Definition emptyWorld : World :=
  {| heap := emptyHeap; owned := ∅; shared := ∅; weaks := ∅ |}.

(** Run heap code inside a program. *)
Definition onHeap {A} (c : M Heap A) : M World A := fun w =>
  match c (heap w) with
  | Ok (a, h) =>
      Ok (a, {| heap := h; owned := owned w; shared := shared w;
                weaks := weaks w |})
  | Undefined => Undefined
  | NotInScope => NotInScope
  end.

Definition getOwned (o : var) : M World OwnedPtr.t := fun w =>
  match owned w !! o with Some p => Ok (p, w) | None => NotInScope end.
Definition getShared (x : var) : M World SmartPtr.t := fun w =>
  match shared w !! x with Some p => Ok (p, w) | None => NotInScope end.
Definition getWeak (v : var) : M World WeakPtr.t := fun w =>
  match weaks w !! v with Some p => Ok (p, w) | None => NotInScope end.

Definition setOwned (o : var) (p : OwnedPtr.t) : M World unit := fun w =>
  Ok (tt, {| heap := heap w; owned := <[o := p]> (owned w);
             shared := shared w; weaks := weaks w |}).
Definition setShared (x : var) (p : SmartPtr.t) : M World unit := fun w =>
  Ok (tt, {| heap := heap w; owned := owned w;
             shared := <[x := p]> (shared w); weaks := weaks w |}).
Definition setWeak (v : var) (p : WeakPtr.t) : M World unit := fun w =>
  Ok (tt, {| heap := heap w; owned := owned w; shared := shared w;
             weaks := <[v := p]> (weaks w) |}).

(** A declaration needs a name that is not in scope. *)
Definition freshOwned (o : var) : M World unit := fun w =>
  match owned w !! o with None => Ok (tt, w) | Some _ => NotInScope end.
Definition freshShared (x : var) : M World unit := fun w =>
  match shared w !! x with None => Ok (tt, w) | Some _ => NotInScope end.
Definition freshWeak (v : var) : M World unit := fun w =>
  match weaks w !! v with None => Ok (tt, w) | Some _ => NotInScope end.

(** The variable's storage goes away (after its destructor ran). *)
Definition endOwned (o : var) : M World unit := fun w =>
  Ok (tt, {| heap := heap w; owned := delete o (owned w);
             shared := shared w; weaks := weaks w |}).
Definition endShared (x : var) : M World unit := fun w =>
  Ok (tt, {| heap := heap w; owned := owned w;
             shared := delete x (shared w); weaks := weaks w |}).
Definition endWeak (v : var) : M World unit := fun w =>
  Ok (tt, {| heap := heap w; owned := owned w; shared := shared w;
             weaks := delete v (weaks w) |}).

Inductive Stmt :=
| OEmpty (o : var)              (* OwnedPtr<T> o; *)
| ODestroy (o : var)            (* o goes out of scope *)
| SEmpty (x : var)              (* SmartPtr<T> x; *)
| SMake (x : var)               (* SmartPtr<T> x(newOwned<T>()); *)
| SAdopt (x : var)              (* x = newOwned<T>(); *)
| SCopy (x y : var)             (* SmartPtr<T> x(y); *)
| SMove (x y : var)             (* SmartPtr<T> x(std::move(y)); *)
| SAssign (x y : var)           (* x = y; *)
| SMoveAssign (x y : var)       (* x = std::move(y); *)
| SClear (x : var)              (* x.clear(); *)
| SDestroy (x : var)            (* x goes out of scope *)
| SRelease (x o : var)          (* x.release(&o); *)
| WEmpty (v : var)              (* WeakPtr<T> v; *)
| WCopy (v u : var)             (* WeakPtr<T> v(u); *)
| WFromShared (v x : var)       (* WeakPtr<T> v(x); *)
| WAssign (v u : var)           (* v = u; *)
| WAssignShared (v x : var)     (* v = x; *)
| WAssignNull (v : var)         (* v = nullptr; *)
| WDestroy (v : var)            (* v goes out of scope *)
| Upgrade (x v : var).          (* SmartPtr<T> x = v; *)

Definition step (st : Stmt) : M World unit :=
  match st with
  | OEmpty o =>
      let! _ := freshOwned o in setOwned o OwnedPtr.empty
  | ODestroy o =>
      let! this := getOwned o in
      let! _ := onHeap (OwnedPtr.destructor this) in
      endOwned o
  | SEmpty x =>
      let! _ := freshShared x in setShared x SmartPtr.empty
  | SMake x =>
      let! _ := freshShared x in
      let! temp := onHeap OwnedPtr.newOwned in
      let! r := onHeap (SmartPtr.fromOwned temp) in
      let! _ := onHeap (OwnedPtr.destructor (snd r)) in
      setShared x (fst r)
  | SAdopt x =>
      let! this := getShared x in
      let! temp := onHeap OwnedPtr.newOwned in
      let! r := onHeap (SmartPtr.assignOwned this temp) in
      let! _ := onHeap (OwnedPtr.destructor (snd r)) in
      setShared x (fst r)
  | SCopy x y =>
      let! _ := freshShared x in
      let! other := getShared y in
      let! this := onHeap (SmartPtr.copy other) in
      setShared x this
  | SMove x y =>
      let! _ := freshShared x in
      let! other := getShared y in
      let! _ := setShared y (snd (SmartPtr.move other)) in
      setShared x (fst (SmartPtr.move other))
  | SAssign x y =>
      let! this := getShared x in
      let! other := getShared y in
      let! this' := onHeap (SmartPtr.assign this other) in
      setShared x this'
  | SMoveAssign x y =>
      (* tempPtr, tempRefcount := other; other := NULL, NULL;
         reset(NULL, NULL); this := tempPtr, tempRefcount *)
      let! _ := getShared x in
      let! temp := getShared y in
      let! _ := setShared y SmartPtr.empty in
      let! this := getShared x in
      let! _ := onHeap (SmartPtr.reset2 this None None) in
      setShared x (SmartPtr.mk (SmartPtr.ptr temp) (SmartPtr.refcount temp))
  | SClear x =>
      let! this := getShared x in
      let! this' := onHeap (SmartPtr.clear this) in
      setShared x this'
  | SDestroy x =>
      let! this := getShared x in
      let! _ := onHeap (SmartPtr.destructor this) in
      endShared x
  | SRelease x o =>
      let! this := getShared x in
      let! other := getOwned o in
      let! r := onHeap (SmartPtr.release this other) in
      let! _ := setShared x (snd (fst r)) in
      setOwned o (snd r)
  | WEmpty v =>
      let! _ := freshWeak v in setWeak v WeakPtr.empty
  | WCopy v u =>
      let! _ := freshWeak v in
      let! other := getWeak u in
      let! this := onHeap (WeakPtr.copy other) in
      setWeak v this
  | WFromShared v x =>
      let! _ := freshWeak v in
      let! other := getShared x in
      let! this := onHeap (WeakPtr.fromShared other) in
      setWeak v this
  | WAssign v u =>
      let! this := getWeak v in
      let! other := getWeak u in
      let! this' := onHeap (WeakPtr.assign this other) in
      setWeak v this'
  | WAssignShared v x =>
      let! this := getWeak v in
      let! other := getShared x in
      let! this' := onHeap (WeakPtr.assignShared this other) in
      setWeak v this'
  | WAssignNull v =>
      let! this := getWeak v in
      let! this' := onHeap (WeakPtr.assignNull this) in
      setWeak v this'
  | WDestroy v =>
      let! this := getWeak v in
      let! _ := onHeap (WeakPtr.destructor this) in
      endWeak v
  | Upgrade x v =>
      let! _ := freshShared x in
      let! this := getWeak v in
      let! result := onHeap (WeakPtr.upgrade this) in
      setShared x result
  end.

Fixpoint run (prog : list Stmt) : M World unit :=
  match prog with
  | [] => ret tt
  | st :: rest => let! _ := step st in run rest
  end.

(** The world a program leaves behind, when it runs to its end. *)
Definition exec (prog : list Stmt) (w : World) : Outcome World :=
  match run prog w with
  | Ok (_, w') => Ok w'
  | Undefined => Undefined
  | NotInScope => NotInScope
  end.

Definition isRelease (st : Stmt) : bool :=
  match st with SRelease _ _ => true | _ => false end.

(** Counters as the program sees them; a block that is not allocated
    counts as zero. *)
Definition strongOf (h : Heap) (l : loc) : Z :=
  match blocks h !! l with Some b => Refcount.strong b | None => 0 end.
Definition weakOf (h : Heap) (l : loc) : Z :=
  match blocks h !! l with Some b => Refcount.weak b | None => 0 end.

(* ===================================================================== *)
(** * Further code of Subprocess.cpp, OwnedPtr.h and Hash.h *)
(* ===================================================================== *)

(** ** Subprocess::~Subprocess() *)
Module Teardown.
Import Subprocess.

Definition SIGKILL : Z := 9.

(** What the destructor asks of the dispatcher and the operating system,
    in order. *)
Inductive Action :=
| Cancel (c : Canceler)              (* canceler->cancel() *)
| Kill (pid : Z) (signal : Z)        (* kill(pid, SIGKILL) *)
| Waitpid (pid : Z).                 (* waitpid(pid, &dummy, 0) *)

(** Subprocess::~Subprocess() *)
Definition destructor (s : Subprocess) : list Action :=
  match canceler s with
  | Some c => [Cancel c; Kill (pid s) SIGKILL; Waitpid (pid s)]
  | None => []
  end.

End Teardown.

(** ** Exclusive handles as variables

    OwnedPtr's move operations change two handles at once, and the two may
    be the same variable. *)
Module Exclusive.

Inductive Stmt :=
| New (x : var)               (* OwnedPtr<T> x = newOwned<T>(); *)
| Empty (x : var)             (* OwnedPtr<T> x; *)
| Move (x y : var)            (* OwnedPtr<T> x(std::move(y)); *)
| MoveAssign (x y : var)      (* x = std::move(y); *)
| Release (x y : var)         (* OwnedPtr<T> x = y.release(); *)
| Clear (x : var)             (* x.clear(); *)
| Destroy (x : var).          (* x goes out of scope *)

Definition step (st : Stmt) : M World unit :=
  match st with
  | New x =>
      let! _ := freshOwned x in
      let! this := onHeap OwnedPtr.newOwned in
      setOwned x this
  | Empty x =>
      let! _ := freshOwned x in setOwned x OwnedPtr.empty
  | Move x y =>
      (* ptr(other.releaseRaw()) *)
      let! _ := freshOwned x in
      let! other := getOwned y in
      let! _ := setOwned y (snd (OwnedPtr.releaseRaw other)) in
      setOwned x (OwnedPtr.mk (fst (OwnedPtr.releaseRaw other)))
  | MoveAssign x y =>
      (* reset(other.releaseRaw()): the argument is evaluated first *)
      let! _ := getOwned x in
      let! other := getOwned y in
      let! _ := setOwned y (snd (OwnedPtr.releaseRaw other)) in
      let! this := getOwned x in
      let! this' := onHeap (OwnedPtr.reset this
                              (fst (OwnedPtr.releaseRaw other))) in
      setOwned x this'
  | Release x y =>
      let! _ := freshOwned x in
      let! other := getOwned y in
      let! _ := setOwned y (snd (OwnedPtr.release other)) in
      setOwned x (fst (OwnedPtr.release other))
  | Clear x =>
      let! this := getOwned x in
      let! this' := onHeap (OwnedPtr.clear this) in
      setOwned x this'
  | Destroy x =>
      let! this := getOwned x in
      let! _ := onHeap (OwnedPtr.destructor this) in
      endOwned x
  end.

Fixpoint run (prog : list Stmt) : M World unit :=
  match prog with
  | [] => ret tt
  | st :: rest => let! _ := step st in run rest
  end.

Definition exec (prog : list Stmt) (w : World) : Outcome World :=
  match run prog w with
  | Ok (_, w') => Ok w'
  | Undefined => Undefined
  | NotInScope => NotInScope
  end.

End Exclusive.

(** ** More of the owned containers *)
Module Appender.

(** OwnedPtrVector::Appender::add(OwnedPtr<T> ptr): vec->add(ptr.release()) *)
Definition add (vec : OwnedPtrVector.t) (ptr : OwnedPtr.t)
  : OwnedPtrVector.t :=
  OwnedPtrVector.add vec (fst (OwnedPtr.release ptr)).

End Appender.


Module OwnedPtrMapIteration.
Section WithKey.
Context {Key : Type} `{Countable Key}.

(** void releaseAll(OwnedPtrVector<T>::Appender output): the map and the
    vector behind [output] afterwards.  The loop is one pass of the map's
    iterator, so the order in which the values arrive is open. *)
Definition releaseAll (map : gmap Key (option obj))
  (output : OwnedPtrVector.t)
  : gmap Key (option obj) * OwnedPtrVector.t :=
  (∅, foldl (fun vec value => Appender.add vec (OwnedPtr.mk value))
        output (OwnedPtrMap.values map)).

(** class OwnedPtrMap::Iterator: [iter] is unset until the first next();
    [nextIter] up to [end] are the entries still to visit. *)
Record Iterator := mkIterator {
  iter : option (Key * option obj);
  nextIter : list (Key * option obj)
}.

(** Iterator(const OwnedPtrMap& map) *)
Definition begin (map : gmap Key (option obj)) : Iterator :=
  {| iter := None; nextIter := map_to_list map |}.

(** bool next() *)
Definition next (it : Iterator) : bool * Iterator :=
  match nextIter it with
  | [] => (false, it)
  | entry :: rest => (true, {| iter := Some entry; nextIter := rest |})
  end.

(** const Key& key(), T* value(): undefined before the first next() *)
Definition key (it : Iterator) : Outcome Key :=
  match iter it with Some entry => Ok (fst entry) | None => Undefined end.
Definition value (it : Iterator) : Outcome (option obj) :=
  match iter it with Some entry => Ok (snd entry) | None => Undefined end.

(** while (it.next()) visit(it.key(), it.value()), at most [fuel] times *)
Fixpoint visit (fuel : nat) (it : Iterator)
  : list (Key * option obj) * Iterator :=
  match fuel with
  | O => ([], it)
  | S fuel' =>
      match next it with
      | (true, it') =>
          match key it', value it' with
          | Ok k, Ok v =>
              let '(seen, last) := visit fuel' it' in ((k, v) :: seen, last)
          | _, _ => ([], it')
          end
      | (false, it') => ([], it')
      end
  end.

End WithKey.
End OwnedPtrMapIteration.

(** ** class Hash (base/Hash.h) *)
Module Hash.

(** unsigned char hash[32] *)
Record t := mk { hash : list Byte.byte }.

Definition sizeof_hash : nat := 32.

(** memcmp of the C library: the first [n] bytes of two arrays compared as
    unsigned char; the result has the sign of the first difference. *)
Fixpoint memcmp (a b : list Byte.byte) (n : nat) : Z :=
  match n, a, b with
  | S n', x :: a', y :: b' =>
      if (Byte.to_N x =? Byte.to_N y)%N then memcmp a' b' n'
      else Z.of_N (Byte.to_N x) - Z.of_N (Byte.to_N y)
  | _, _, _ => 0
  end.

(** operator==, operator!=, operator<, operator>, operator<=, operator>= *)
Definition eq (a b : t) : bool := memcmp (hash a) (hash b) sizeof_hash =? 0.
Definition ne (a b : t) : bool :=
  negb (memcmp (hash a) (hash b) sizeof_hash =? 0).
Definition lt (a b : t) : bool := memcmp (hash a) (hash b) sizeof_hash <? 0.
Definition gt (a b : t) : bool := memcmp (hash a) (hash b) sizeof_hash >? 0.
Definition le (a b : t) : bool := memcmp (hash a) (hash b) sizeof_hash <=? 0.
Definition ge (a b : t) : bool := memcmp (hash a) (hash b) sizeof_hash >=? 0.

End Hash.

(* ===================================================================== *)
(** * Vocabulary of the properties *)
(* ===================================================================== *)

Module SubprocessSpec.
Import Subprocess.

(** "At most one of the three capture modes is active." *)
Definition atMostOneCaptureActive (s : Subprocess) : Prop :=
  (activeCaptures s <= 1)%nat.

(** Combined capture is not active together with a separate capture. *)
Definition combinedExcludesSeparate (s : Subprocess) : bool :=
  negb (isSome (stdoutAndStderrPipe s)
        && (isSome (stdoutPipe s) || isSome (stderrPipe s))).

(** Number of pipe-drain notifications in a sequence, and its exit
    notifications. *)
Fixpoint drains (ns : list Notification) : nat :=
  match ns with
  | [] => 0
  | PipeDrained :: rest => S (drains rest)
  | _ :: rest => drains rest
  end.

Fixpoint exits (ns : list Notification) : list Notification :=
  match ns with
  | [] => []
  | PipeDrained :: rest => exits rest
  | n :: rest => n :: exits rest
  end.

(** The notifications of one run: one drain per pending pipe and the exit
    notification [e], in some order. *)
Definition oneRun (s : Subprocess) (e : Notification)
  (ns : list Notification) : Prop :=
  isExitNotification e = true /\
  Permutation ns (replicate (Z.to_nat (pipeCount s)) PipeDrained ++ [e]).

(** A prefix of a run: no more drains than pending pipes, and the exit
    notification at most once. *)
Definition partOfRun (k : nat) (e : Notification) (pre : list Notification)
  : Prop :=
  (drains pre <= k)%nat /\ (exits pre = [] \/ exits pre = [e]).

(** The completion condition: no pending pipe and a terminal state. *)
Definition complete (s : Subprocess) : bool :=
  (pipeCount s =? 0) && terminal (state s).

Definition stateFor (e : Notification) : State :=
  match e with
  | ProcessSignaled _ => SIGNALED
  | _ => EXITED
  end.

Definition valueFor (e : Notification) : Z :=
  match e with
  | PipeDrained => 0
  | ProcessExited c => c
  | ProcessSignaled g => g
  end.

(** Where a started manager [s] with callback [cb] stands after the
    notifications [pre]. *)
Definition reached (s : Subprocess) (cb : Callback)
  (pre : list Notification) : World :=
  let pc := pipeCount s - Z.of_nat (drains pre) in
  match exits pre with
  | [] =>
      (setCompletion pc (state s) (exitStatusOrSignalNumber s) (pid s)
         (canceler s) (diskRefs s) (finalCallback s) s, [])
  | e :: _ =>
      if pc =? 0
      then (setCompletion pc (stateFor e) (valueFor e) (-1) None [] None s,
            callFor cb e)
      else (setCompletion pc (stateFor e) (valueFor e) (-1) None []
              (Some cb) s, [])
  end.

(** The disk references that the file-backed arguments of a configuration
    resolve to, in order. *)
Fixpoint fileRefs (cs : list ConfigCall) : list DiskRef :=
  match cs with
  | [] => []
  | AddArgumentFile f u :: rest => getOnDisk f u :: fileRefs rest
  | _ :: rest => fileRefs rest
  end.

End SubprocessSpec.

Module OwnershipSpec.

(** The heap after [delete] of the object [o]. *)
Definition destroy (o : obj) (h : Heap) : Heap :=
  {| blocks := blocks h; nextBlock := nextBlock h; nextObj := nextObj h;
     destroyed := destroyed h ++ [o]; freed := freed h |}.

(** The objects a container owns: its non-null pointers. *)
Definition held (ptrs : list (option obj)) : list obj := omap id ptrs.

(** The heap after [delete] of every object in [os], in order. *)
Definition destroyAll (os : list obj) (h : Heap) : Heap :=
  {| blocks := blocks h; nextBlock := nextBlock h; nextObj := nextObj h;
     destroyed := destroyed h ++ os; freed := freed h |}.

(** Running [c] is defined and does not destroy [e]. *)
Definition spares {A} (e : obj) (c : M Heap A) : Prop :=
  forall h, e ∉ destroyed h ->
    exists a h', c h = Ok (a, h') /\ e ∉ destroyed h'.

(** "release removes the slot from the container." *)
Definition releaseRemovesSlot (vec : OwnedPtrVector.t) (index : Z) : Prop :=
  forall p vec',
    OwnedPtrVector.release vec index = Ok (p, vec') ->
    OwnedPtrVector.size vec' = OwnedPtrVector.size vec - 1.

(** The heap after the counters of block [l] were set to [b]. *)
Definition withBlock (l : loc) (b : Refcount.t) (h : Heap) : Heap :=
  setBlocks (<[l := b]> (blocks h)) h.

(** The heap after [delete] of the block [l], whose counters were [b]. *)
Definition freeBlock (l : loc) (b : Refcount.t) (h : Heap) : Heap :=
  {| blocks := delete l (blocks h); nextBlock := nextBlock h;
     nextObj := nextObj h; destroyed := destroyed h;
     freed := freed h ++ [(l, b)] |}.

(** The heap after [new T()] and [new Refcount()] for it. *)
Definition allocShared (h : Heap) : Heap :=
  {| blocks := <[nextBlock h := Refcount.mk 1 0]> (blocks h);
     nextBlock := S (nextBlock h); nextObj := S (nextObj h);
     destroyed := destroyed h; freed := freed h |}.

(** 1 if the pointer [r] is the block [l], else 0. *)
Definition ind (r : option loc) (l : loc) : Z :=
  if decide (r = Some l) then 1 else 0.

(** Number of handles in scope whose refcount pointer is [l]. *)
Definition refs {A} (rc : A -> option loc) (m : gmap var A) (l : loc) : Z :=
  Z.of_nat (size (filter (fun kv => rc kv.2 = Some l) m)).

Definition sharedRefs (w : World) (l : loc) : Z :=
  refs SmartPtr.refcount (shared w) l.
Definition weakRefs (w : World) (l : loc) : Z :=
  refs WeakPtr.refcount (weaks w) l.

(** A handle's two fields agree with the pairing [g] of blocks and
    objects: both are null, or the block is paired with the object. *)
Definition good (g : gmap loc obj) (p : option obj) (r : option loc)
  : Prop :=
  match r with
  | None => p = None
  | Some l => exists o, g !! l = Some o /\ p = Some o
  end.

(** The heap is as the reference counts [cS] and [cW] say, for the pairing
    [g] of refcount blocks with the objects they manage. *)
Record HeapInv (g : gmap loc obj) (h : Heap) (cS cW : loc -> Z) : Prop := {
  hi_strong : forall l, strongOf h l = cS l;
  hi_weak : forall l, weakOf h l = cW l;
  hi_blocks_lt : forall l, is_Some (blocks h !! l) -> (l < nextBlock h)%nat;
  hi_g_inj : forall l l' o, g !! l = Some o -> g !! l' = Some o -> l = l';
  hi_g_lt : forall l o,
      g !! l = Some o -> (l < nextBlock h)%nat /\ (o < nextObj h)%nat;
  hi_g_all : forall o, (o < nextObj h)%nat -> exists l, g !! l = Some o;
  hi_nodup : NoDup (destroyed h);
  hi_destroyed_lt : forall o, o ∈ destroyed h -> (o < nextObj h)%nat;
  hi_destroyed : forall l o,
      g !! l = Some o -> (o ∈ destroyed h <-> strongOf h l = 0);
  hi_freed : forall l b,
      (l, b) ∈ freed h -> Refcount.strong b = 0 /\ Refcount.weak b = 0
}.

(** Every handle in scope agrees with the pairing [g]. *)
Definition sharedGood (g : gmap loc obj) (m : gmap var SmartPtr.t) : Prop :=
  forall x p, m !! x = Some p ->
    good g (SmartPtr.ptr p) (SmartPtr.refcount p).
Definition weakGood (g : gmap loc obj) (m : gmap var WeakPtr.t) : Prop :=
  forall v p, m !! v = Some p ->
    good g (WeakPtr.ptr p) (WeakPtr.refcount p).
Definition ownedEmpty (m : gmap var OwnedPtr.t) : Prop :=
  forall o p, m !! o = Some p -> OwnedPtr.ptr p = None.

(** The invariant of programs that do not release to exclusive, for the
    pairing [g]. *)
Definition WorldInvG (g : gmap loc obj) (w : World) : Prop :=
  HeapInv g (heap w) (sharedRefs w) (weakRefs w) /\
  sharedGood g (shared w) /\ weakGood g (weaks w) /\
  ownedEmpty (owned w).

(** The invariant holds for a pairing that extends [g]. *)
Definition WorldInvFrom (g : gmap loc obj) (w : World) : Prop :=
  exists g', g ⊆ g' /\ WorldInvG g' w.

(** The counters can take [n] more handles without overflow. *)
Definition roomFor (n : nat) (w : World) : Prop :=
  Z.of_nat (size (shared w)) + Z.of_nat n <= INT_MAX /\
  Z.of_nat (size (weaks w)) + Z.of_nat n <= INT_MAX.

(** A statement ran, and left at most one more handle of each kind. *)
Definition stepsTo (st : Stmt) (w w' : World) : Prop :=
  step st w = Ok (tt, w') /\
  (size (shared w') <= S (size (shared w)))%nat /\
  (size (weaks w') <= S (size (weaks w)))%nat.

(** Some shared handle in scope points at [o]. *)
Definition hasHolder (w : World) (o : obj) : Prop :=
  exists x p, shared w !! x = Some p /\ SmartPtr.ptr p = Some o.

(** Programs without release-to-exclusive, and programs short enough for
    the [int] counters. *)
Definition releaseFree (prog : list Stmt) : bool :=
  forallb (fun st => negb (isRelease st)) prog.

Definition fits (prog : list Stmt) : Prop :=
  Z.of_nat (length prog) < INT_MAX.

(** "The object is destroyed exactly when the strong counter transitions
    to zero", for one statement run from [w]: if it brings the counter of
    block [l] from positive to zero, [o] is destroyed by it. *)
Definition destroyedWhenStrongReachesZero (st : Stmt) (w : World)
  (l : loc) (o : obj) : Prop :=
  forall w',
    exec [st] w = Ok w' ->
    0 < strongOf (heap w) l -> strongOf (heap w') l = 0 ->
    o ∈ destroyed (heap w').

(** One object under shared ownership, held by the shared handle [0], and
    an empty exclusive handle [0]. *)
Definition soleHolder : World :=
  match exec [SMake 0%nat; OEmpty 0%nat] emptyWorld with
  | Ok w => w
  | _ => emptyWorld
  end.

(** A shared handle [0] with a weak reference [0] is released into the
    exclusive handle [0]. *)
Definition releaseToExclusive : list Stmt :=
  [SMake 0%nat; WFromShared 0%nat 0%nat; OEmpty 0%nat;
   SRelease 0%nat 0%nat].

(** The released handle is copied, and the weak reference upgraded. *)
Definition copyAndUpgrade : list Stmt :=
  [SCopy 1%nat 0%nat; Upgrade 2%nat 0%nat].

(** A shared handle without weak references is released into an
    exclusive handle and then goes out of scope. *)
Definition releaseThenDestroy : list Stmt :=
  [SMake 0%nat; OEmpty 0%nat; SRelease 0%nat 0%nat; SDestroy 0%nat].

(** The copy, the upgraded handle and the exclusive handle go away. *)
Definition dropAll : list Stmt :=
  [SDestroy 1%nat; SDestroy 2%nat; ODestroy 0%nat].

(** The exclusive handle that took the object goes out of scope, and the
    released handle is copied. *)
Definition dropOwnerThenCopy : list Stmt :=
  [ODestroy 0%nat; SCopy 1%nat 0%nat].

(** Some shared handle in scope points at the block of the weak
    reference [this]. *)
Definition hasStrongHolder (w : World) (this : WeakPtr.t) : Prop :=
  exists x p l,
    shared w !! x = Some p /\ SmartPtr.refcount p = Some l /\
    WeakPtr.refcount this = Some l.

(** Two shared handles and a weak reference come and go. *)
Definition sharedAndWeak : list Stmt :=
  [SMake 0%nat; SCopy 1%nat 0%nat; WFromShared 0%nat 1%nat;
   SDestroy 0%nat; SClear 1%nat; Upgrade 2%nat 0%nat; WDestroy 0%nat].

(** What [exec] says about the world a program ends in. *)
Definition endsWith (prog : list Stmt) (w : World) (P : World -> Prop)
  : Prop :=
  match exec prog w with
  | Ok w' => P w'
  | _ => False
  end.

End OwnershipSpec.

Module ExtraSubprocessSpec.
Import Subprocess SubprocessSpec.

(** The argument strings of a configuration, in call order. *)
Fixpoint argStrings (cs : list ConfigCall) : list string :=
  match cs with
  | [] => []
  | AddArgument a :: rest => a :: argStrings rest
  | AddArgumentFile f u :: rest => path (getOnDisk f u) :: argStrings rest
  | Capture _ :: rest => argStrings rest
  end.

(** The stream a pipe binding gives the child, or what it inherits. *)
Definition streamOf (binding : option Pipe) (inherited : FileDescriptor)
  : Stream :=
  match binding with
  | Some p => PipeWriteEnd (writeEnd p)
  | None => Inherited inherited
  end.

End ExtraSubprocessSpec.

Module ExtraSpec.
Import OwnershipSpec.

(** A hash value as it is stored: all 32 bytes. *)
Definition wellFormed (a : Hash.t) : Prop :=
  length (Hash.hash a) = Hash.sizeof_hash.

(** pop() called [n] times: the handles returned, in order, and the queue
    afterwards. *)
Fixpoint popN (n : nat) (q : OwnedPtrQueue.t)
  : Outcome (list OwnedPtr.t * OwnedPtrQueue.t) :=
  match n with
  | O => Ok ([], q)
  | S n' =>
      match OwnedPtrQueue.pop q with
      | Ok (p, q') =>
          match popN n' q' with
          | Ok (ps, q'') => Ok (p :: ps, q'')
          | Undefined => Undefined
          | NotInScope => NotInScope
          end
      | Undefined => Undefined
      | NotInScope => NotInScope
      end
  end.

(** push() of each handle in turn. *)
Definition pushAll (q : OwnedPtrQueue.t) (ps : list OwnedPtr.t)
  : OwnedPtrQueue.t :=
  foldl OwnedPtrQueue.push q ps.

(** What an entry of the map holds, as a list for [held]. *)
Definition occupant {K} `{Countable K} (map : gmap K (option obj)) (key : K)
  : list (option obj) :=
  match map !! key with Some value => [value] | None => [] end.

(** Exclusive ownership, for the handles [ow], the objects destroyed so
    far [d] and the [no] objects allocated so far: no two handles own one
    object, no owned object is destroyed, no object is destroyed twice,
    and every object that was allocated is owned or destroyed. *)
Definition Accounted (ow : gmap var OwnedPtr.t) (d : list obj) (no : obj)
  : Prop :=
  (forall x y o, ow !! x = Some (OwnedPtr.mk (Some o)) ->
     ow !! y = Some (OwnedPtr.mk (Some o)) -> x = y) /\
  (forall x o, ow !! x = Some (OwnedPtr.mk (Some o)) ->
     (o ∉ d) /\ (o < no)%nat) /\
  NoDup d /\
  (forall o, o ∈ d -> (o < no)%nat) /\
  (forall o, (o < no)%nat ->
     o ∈ d \/ exists x, ow !! x = Some (OwnedPtr.mk (Some o))).

Definition ExclusiveInv (w : World) : Prop :=
  Accounted (owned w) (destroyed (heap w)) (nextObj (heap w)).

(** Two handles made, one moved into the other, both dropped. *)
Definition moveAndDrop : list Exclusive.Stmt :=
  [Exclusive.New 0%nat; Exclusive.New 1%nat;
   Exclusive.MoveAssign 0%nat 1%nat;
   Exclusive.Destroy 1%nat; Exclusive.Destroy 0%nat].

(** Where [moveAndDrop] ends: the assignment destroyed the first object,
    the second went with the handle it was moved into. *)
Definition moveAndDropEnd : World :=
  {| heap := {| blocks := ∅; nextBlock := 0%nat; nextObj := 2%nat;
                destroyed := [0%nat; 1%nat]; freed := [] |};
     owned := ∅; shared := ∅; weaks := ∅ |}.

(** The block behind a shared handle has a strong holder and room for one
    more; an empty handle has no block. *)
Definition strongRoom (h : Heap) (r : option loc) : bool :=
  match r with
  | None => true
  | Some l =>
      match blocks h !! l with
      | Some b => (0 <? Refcount.strong b) && (Refcount.strong b <? INT_MAX)
      | None => false
      end
  end.

(** The block behind a handle has a holder, and room for one more weak
    reference. *)
Definition weakRoom (h : Heap) (r : option loc) : bool :=
  match r with
  | None => true
  | Some l =>
      match blocks h !! l with
      | Some b =>
          (0 <=? Refcount.weak b) && (Refcount.weak b <? INT_MAX) &&
          (0 <? Refcount.strong b + Refcount.weak b)
      | None => false
      end
  end.

(** The block behind a weak reference is allocated, with room for one
    more strong holder. *)
Definition upgradeRoom (h : Heap) (r : option loc) : bool :=
  match r with
  | None => true
  | Some l =>
      match blocks h !! l with
      | Some b => (0 <=? Refcount.strong b) && (Refcount.strong b <? INT_MAX)
      | None => false
      end
  end.

(** An exclusive handle to one object, and a shared handle and a weak
    reference to another. *)
Definition oneSharedOneWeak : World :=
  {| heap := withBlock 0%nat (Refcount.mk 1 1)
               {| blocks := ∅; nextBlock := 1%nat; nextObj := 2%nat;
                  destroyed := []; freed := [] |};
     owned := {[ 0%nat := OwnedPtr.mk (Some 1%nat) ]};
     shared := {[ 0%nat := SmartPtr.mk (Some 0%nat) (Some 0%nat) ]};
     weaks := {[ 0%nat := WeakPtr.mk (Some 0%nat) (Some 0%nat) ]} |}.

End ExtraSpec.

(* ===================================================================== *)
(** * Properties of the process manager *)
(* ===================================================================== *)

Module SubprocessProofs.
Import Subprocess SubprocessSpec.

(** ** Capture configuration *)

Lemma captures_snoc cs c s :
  captures (cs ++ [c]) s = capture c (captures cs s).
Proof. unfold captures. by rewrite foldl_app. Qed.

Lemma capture_excludes c s : combinedExcludesSeparate (capture c s) = true.
Proof. by destruct c. Qed.

Lemma capture_selected c s : isSome (selected c (capture c s)) = true.
Proof. by destruct c. Qed.

(** C1, as the specification states it, fails: capturing stdout and then
    stderr leaves two capture bindings set. *)
Lemma C1_stdout_then_stderr_both_active :
  ~ atMostOneCaptureActive
      (captures [CaptureStdout (mkPipe (Some 3%nat) 4%nat);
                 CaptureStderr (mkPipe (Some 5%nat) 6%nat)] new).
Proof. unfold atMostOneCaptureActive. vm_compute. lia. Qed.

(** C1 (amended): after every sequence of capture-configuration calls on a
    new manager, combined capture is never set together with stdout or
    stderr capture, and the binding the last call selected is set;
    captureStdout and captureStderr leave each other's binding as it was,
    while each clears the combined binding and captureStdoutAndStderr
    clears both separate bindings. *)
Theorem C1_combined_capture_excludes_separate :
  (forall cs, combinedExcludesSeparate (captures cs new) = true) /\
  (forall cs c, isSome (selected c (captures (cs ++ [c]) new)) = true) /\
  (forall p s, stderrPipe (capture (CaptureStdout p) s) = stderrPipe s
               /\ stdoutAndStderrPipe (capture (CaptureStdout p) s) = None) /\
  (forall p s, stdoutPipe (capture (CaptureStderr p) s) = stdoutPipe s
               /\ stdoutAndStderrPipe (capture (CaptureStderr p) s) = None) /\
  (forall p s, stdoutPipe (capture (CaptureStdoutAndStderr p) s) = None
               /\ stderrPipe (capture (CaptureStdoutAndStderr p) s) = None).
Proof.
  repeat split; try done.
  - intros cs. induction cs as [|c cs _] using rev_ind; [done|].
    rewrite captures_snoc. apply capture_excludes.
  - intros cs c. rewrite captures_snoc. apply capture_selected.
Qed.

(** ** Argument assembly *)

Lemma configure_snoc cs c s :
  configure (cs ++ [c]) s = configure1 c (configure cs s).
Proof. unfold configure. by rewrite foldl_app. Qed.

Lemma configure_cons c cs s :
  configure (c :: cs) s = configure cs (configure1 c s).
Proof. done. Qed.

Lemma capture_keeps_arguments c s :
  args (capture c s) = args s /\
  executableName (capture c s) = executableName s /\
  doPathLookup (capture c s) = doPathLookup s /\
  diskRefs (capture c s) = diskRefs s.
Proof. by destruct c. Qed.


Lemma configure_diskRefs cs s :
  diskRefs (configure cs s) = diskRefs s ++ fileRefs cs.
Proof.
  revert s. induction cs as [|c cs IH]; intros s.
  - by rewrite app_nil_r.
  - rewrite configure_cons, IH. destruct c as [a|f u|c]; simpl.
    + done.
    + by rewrite <- app_assoc.
    + by destruct (capture_keeps_arguments c s) as (_ & _ & _ & ->).
Qed.

Lemma startChild_exec s :
  childExec (startChild s)
  = if doPathLookup s then Execvp (executableName s) (args s)
    else Execv (executableName s) (args s).
Proof. unfold startChild. by destruct (stdoutAndStderrPipe s). Qed.



(** ** Completion tracking *)

Lemma notifyAll_app ns1 ns2 w :
  notifyAll (ns1 ++ ns2) w
  = match notifyAll ns1 w with
    | Some w' => notifyAll ns2 w'
    | None => None
    end.
Proof.
  revert w. induction ns1 as [|n ns1 IH]; intros w; simpl; [done|].
  destruct (notify n w); [apply IH | done].
Qed.

Lemma drains_app ns1 ns2 : drains (ns1 ++ ns2) = (drains ns1 + drains ns2)%nat.
Proof.
  induction ns1 as [|[] ns1 IH]; simpl; try done. by rewrite IH.
Qed.

Lemma exits_app ns1 ns2 : exits (ns1 ++ ns2) = exits ns1 ++ exits ns2.
Proof.
  induction ns1 as [|[] ns1 IH]; simpl; try done; by rewrite IH.
Qed.

Lemma exits_are_exits ns e : In e (exits ns) -> isExitNotification e = true.
Proof.
  induction ns as [|[] ns IH]; simpl; try done; intros [<-|Hin]; auto.
Qed.

Lemma drains_Permutation ns1 ns2 :
  Permutation ns1 ns2 -> drains ns1 = drains ns2.
Proof.
  induction 1 as [|n ? ? ? IH|n m ?|]; simpl; try congruence.
  - destruct n; congruence.
  - by destruct n, m.
Qed.

Lemma exits_Permutation ns1 ns2 :
  Permutation ns1 ns2 -> Permutation (exits ns1) (exits ns2).
Proof.
  induction 1 as [|n ? ? ? IH|n m ?|]; simpl.
  - constructor.
  - destruct n; auto.
  - destruct n, m; auto using perm_swap.
  - etransitivity; eauto.
Qed.

Lemma drains_replicate k : drains (replicate k PipeDrained) = k.
Proof. induction k; simpl; congruence. Qed.

Lemma exits_replicate k : exits (replicate k PipeDrained) = [].
Proof. induction k; simpl; congruence. Qed.

(** What the notifications of one run contain. *)
Lemma oneRun_contents s e ns :
  oneRun s e ns ->
  drains ns = Z.to_nat (pipeCount s) /\ exits ns = [e].
Proof.
  intros [He Hp]. split.
  - rewrite (drains_Permutation _ _ Hp), drains_app, drains_replicate.
    destruct e; simpl; try done; lia.
  - apply exits_Permutation in Hp.
    rewrite exits_app, exits_replicate in Hp. simpl in Hp.
    destruct e; try done; simpl in Hp;
      apply Permutation_length_1_inv; by symmetry.
Qed.

Lemma partOfRun_prefix s e pre post :
  oneRun s e (pre ++ post) -> partOfRun (Z.to_nat (pipeCount s)) e pre.
Proof.
  intros Hrun. destruct (oneRun_contents _ _ _ Hrun) as [Hd He].
  rewrite drains_app in Hd. rewrite exits_app in He. split; [lia|].
  destruct (exits pre) as [|x l]; [by left|right].
  injection He as -> Hl. by destruct l.
Qed.

Lemma partOfRun_shorter k e pre n :
  partOfRun k e (pre ++ [n]) -> partOfRun k e pre.
Proof.
  intros [Hd He]. rewrite drains_app in Hd. rewrite exits_app in He.
  split; [lia|]. destruct (exits pre) as [|x l]; [by left|right].
  destruct He as [He|He]; [done|]. injection He as -> Hl. by destruct l.
Qed.

Lemma reached_nil s cb : reached s cb [] = (s, []).
Proof.
  unfold reached, setCompletion. simpl. destruct s. simpl.
  by rewrite Z.sub_0_r.
Qed.

(** One more notification moves [reached] one step. *)
Lemma notify_reached s cb k e pre n :
  state s = RUNNING -> finalCallback s = Some cb ->
  pipeCount s = Z.of_nat k ->
  partOfRun k e (pre ++ [n]) ->
  notify n (reached s cb pre) = Some (reached s cb (pre ++ [n])).
Proof.
  intros Hst Hcb Hpc [Hd He].
  rewrite drains_app in Hd. rewrite exits_app in He.
  unfold reached. rewrite drains_app, exits_app.
  destruct n as [|c|g]; simpl in *.
  - (* a pipe drained *)
    rewrite app_nil_r in *.
    replace (pipeCount s - Z.of_nat (drains pre + 1))
      with (pipeCount s - Z.of_nat (drains pre) - 1) by lia.
    destruct (exits pre) as [|x l] eqn:Ex.
    + unfold pipeDone, maybeCallFinalCallback, setCompletion. simpl.
      rewrite Hst. by destruct (_ =? 0).
    + assert (isExitNotification x = true) as Hx.
      { apply (exits_are_exits pre). rewrite Ex. by left. }
      destruct (Z.eqb_spec (pipeCount s - Z.of_nat (drains pre)) 0); [lia|].
      unfold pipeDone, maybeCallFinalCallback, setCompletion. simpl.
      destruct (Z.eqb_spec (pipeCount s - Z.of_nat (drains pre) - 1) 0)
        as [->|];
        by destruct x.
  - (* the child exited *)
    rewrite Nat.add_0_r.
    destruct (exits pre) as [|x l] eqn:Ex; [|by destruct He, l].
    unfold exited, done, maybeCallFinalCallback, setCompletion. simpl.
    rewrite Hcb. by destruct (Z.eqb_spec (pipeCount s - Z.of_nat (drains pre)) 0) as [->|].
  - (* the child was killed by a signal *)
    rewrite Nat.add_0_r.
    destruct (exits pre) as [|x l] eqn:Ex; [|by destruct He, l].
    unfold signaled, done, maybeCallFinalCallback, setCompletion. simpl.
    rewrite Hcb. by destruct (Z.eqb_spec (pipeCount s - Z.of_nat (drains pre)) 0) as [->|].
Qed.

Lemma notifyAll_reached s cb k e pre :
  state s = RUNNING -> finalCallback s = Some cb ->
  pipeCount s = Z.of_nat k ->
  partOfRun k e pre ->
  notifyAll pre (s, []) = Some (reached s cb pre).
Proof.
  intros Hst Hcb Hpc. induction pre as [|n pre IH] using rev_ind; intros Hp.
  - by rewrite reached_nil.
  - rewrite notifyAll_app, IH by eauto using partOfRun_shorter.
    simpl. erewrite notify_reached by eauto. done.
Qed.

(** What [start] leaves in the parent. *)
Lemma configure_not_started cs :
  pipeCount (configure cs new) = 0.
Proof.
  induction cs as [|c cs IH] using rev_ind; [done|].
  rewrite configure_snoc. by destruct c as [| |[]].
Qed.

Lemma start_parent forkResult errno cb s0 s :
  start forkResult errno cb s0 = InParent s ->
  0 < forkResult /\ s = startParent forkResult cb s0.
Proof.
  unfold start. destruct (Z.ltb_spec forkResult 0); [done|].
  destruct (Z.eqb_spec forkResult 0); [done|].
  intros [= <-]. split; [lia|done].
Qed.

Lemma started cfg forkResult errno cb s :
  start forkResult errno cb (configure cfg new) = InParent s ->
  state s = RUNNING /\ finalCallback s = Some cb /\
  pipeCount s = Z.of_nat (Z.to_nat (pipeCount s)).
Proof.
  intros Hs. apply start_parent in Hs as [_ ->].
  repeat split. simpl. rewrite configure_not_started.
  repeat destruct (isSome _); lia.
Qed.

Lemma reached_complete s cb k e pre :
  state s = RUNNING -> finalCallback s = Some cb ->
  pipeCount s = Z.of_nat k -> partOfRun k e pre ->
  isExitNotification e = true ->
  let '(s', log) := reached s cb pre in
  if complete s' then log = callFor cb e /\ finalCallback s' = None
  else log = [] /\ finalCallback s' = Some cb.
Proof.
  intros Hst Hcb Hpc [Hd He] Hex. unfold reached, complete.
  destruct He as [-> | ->].
  - simpl. rewrite Hst. by rewrite andb_false_r.
  - destruct (pipeCount s - Z.of_nat (drains pre) =? 0) eqn:E; simpl;
      rewrite E; simpl.
    + by destruct e; simpl in *.
    + done.
Qed.

Lemma reached_whole_run s cb e ns :
  oneRun s e ns ->
  0 <= pipeCount s ->
  reached s cb ns
  = (setCompletion 0 (stateFor e) (valueFor e) (-1) None [] None s,
     callFor cb e).
Proof.
  intros Hrun Hpc. destruct (oneRun_contents _ _ _ Hrun) as [Hd He].
  unfold reached. rewrite Hd, He.
  replace (pipeCount s - Z.of_nat (Z.to_nat (pipeCount s))) with 0 by lia.
  done.
Qed.

Lemma notifyAll_whole_run cfg forkResult errno cb s e ns :
  start forkResult errno cb (configure cfg new) = InParent s ->
  oneRun s e ns ->
  notifyAll ns (s, [])
  = Some (setCompletion 0 (stateFor e) (valueFor e) (-1) None [] None s,
          callFor cb e).
Proof.
  intros Hstart Hrun.
  destruct (started _ _ _ _ _ Hstart) as (Hst & Hcb & Hpc).
  rewrite (notifyAll_reached s cb _ e ns Hst Hcb Hpc).
  - rewrite (reached_whole_run s cb e ns Hrun); [done|lia].
  - apply (partOfRun_prefix s e ns []). by rewrite app_nil_r.
Qed.

(** C2: in a run of a started manager in which every pending pipe reports
    its drain once and the exit watch reports once, at every point of the
    run the completion callback has been invoked, once and with the exit
    notification's tag and value, exactly if the pipe counter is zero and
    the state is terminal, and has not been invoked otherwise; the manager
    holds the callback up to the invocation and no longer after it. *)
Theorem C2_callback_fires_iff_drained_and_terminal
  cfg forkResult errno cb s e ns :
  start forkResult errno cb (configure cfg new) = InParent s ->
  oneRun s e ns ->
  forall pre post, ns = pre ++ post ->
    exists s' log,
      notifyAll pre (s, []) = Some (s', log) /\
      (length log <= 1)%nat /\
      if complete s'
      then log = callFor cb e /\ finalCallback s' = None
      else log = [] /\ finalCallback s' = Some cb.
Proof.
  intros Hstart Hrun pre post ->.
  destruct (started _ _ _ _ _ Hstart) as (Hst & Hcb & Hpc).
  pose proof (partOfRun_prefix _ _ _ _ Hrun) as Hpre.
  pose proof (notifyAll_reached s cb _ e pre Hst Hcb Hpc Hpre) as Hn.
  pose proof (reached_complete s cb _ e pre Hst Hcb Hpc Hpre (proj1 Hrun))
    as Hc.
  destruct (reached s cb pre) as [s' log]. exists s', log.
  split; [done|].
  destruct (complete s'); destruct Hc as [-> ?]; split; try done.
  - destruct e; simpl; lia.
  - simpl. lia.
Qed.

Lemma C2_witness :
  exists s' log,
    notifyAll [ProcessExited 0; PipeDrained]
      (startParent 42 7%nat
         (configure [Capture (CaptureStdout (mkPipe (Some 3%nat) 4%nat))] new),
       [])
    = Some (s', log) /\
    (length log <= 1)%nat /\
    if complete s'
    then log = callFor 7%nat (ProcessExited 0) /\ finalCallback s' = None
    else log = [] /\ finalCallback s' = Some 7%nat.
Proof.
  apply (C2_callback_fires_iff_drained_and_terminal
           [Capture (CaptureStdout (mkPipe (Some 3%nat) 4%nat))]
           42 0 7%nat _ (ProcessExited 0) [ProcessExited 0; PipeDrained]
           eq_refl)
    with (post := []).
  - split; [reflexivity|]. simpl. apply perm_swap.
  - reflexivity.
Defined.

(** C7: for a started manager, any two orders of the same notifications
    (one drain per pending pipe, one exit notification) end in the same
    state with the same single callback invocation, which carries the exit
    notification's tag and value. *)
Theorem C7_completion_independent_of_notification_order
  cfg forkResult errno cb s e ns1 ns2 :
  start forkResult errno cb (configure cfg new) = InParent s ->
  oneRun s e ns1 ->
  oneRun s e ns2 ->
  notifyAll ns1 (s, []) = notifyAll ns2 (s, []) /\
  exists s',
    notifyAll ns1 (s, []) = Some (s', callFor cb e) /\
    state s' = stateFor e /\
    exitStatusOrSignalNumber s' = valueFor e.
Proof.
  intros Hstart Hrun1 Hrun2.
  rewrite (notifyAll_whole_run _ _ _ _ _ _ _ Hstart Hrun1).
  rewrite (notifyAll_whole_run _ _ _ _ _ _ _ Hstart Hrun2).
  split; [done|]. eexists. split; [done|]. done.
Qed.

Lemma C7_witness :
  notifyAll [PipeDrained; ProcessSignaled 9]
    (startParent 42 7%nat
       (configure [Capture (CaptureStdout (mkPipe (Some 3%nat) 4%nat))] new),
     [])
  = notifyAll [ProcessSignaled 9; PipeDrained]
      (startParent 42 7%nat
         (configure [Capture (CaptureStdout (mkPipe (Some 3%nat) 4%nat))] new),
       []).
Proof.
  refine (proj1 (C7_completion_independent_of_notification_order
           [Capture (CaptureStdout (mkPipe (Some 3%nat) 4%nat))]
           42 0 7%nat _ (ProcessSignaled 9)
           [PipeDrained; ProcessSignaled 9] [ProcessSignaled 9; PipeDrained]
           eq_refl _ _)).
  - split; [reflexivity|]. simpl. apply Permutation_refl.
  - split; [reflexivity|]. simpl. apply perm_swap.
Defined.

(** ** Exec failure *)

(** C8: when the exec call of the child branch fails, the child ends by
    exiting with status 1, exactly as it ends when exec succeeds and the
    target program exits with status 1; the parent, once it has that exit
    notification and the drain of every pending pipe, in whatever order,
    is in state EXITED with status 1 and has invoked the completion
    callback once, with exited(1). *)
Theorem C8_exec_failure_exits_with_status_1
  cfg childPid errno cb os c s failure :
  start 0 errno cb (configure cfg new) = InChild c ->
  start childPid errno cb (configure cfg new) = InParent s ->
  os (childExec c) = ExecFails failure ->
  childFate os c = Some (Exits 1) /\
  (forall os', os' (childExec c) = ProgramRuns (Some (Exits 1)) ->
     childFate os' c = childFate os c) /\
  (forall ns, oneRun s (exitNotification (Exits 1)) ns ->
     exists s',
       notifyAll ns (s, []) = Some (s', [CallExited cb 1]) /\
       state s' = EXITED /\ exitStatusOrSignalNumber s' = 1).
Proof.
  intros _ Hparent Hos. unfold childFate. rewrite Hos.
  split; [done|]. split.
  - by intros os' ->.
  - intros ns Hrun.
    rewrite (notifyAll_whole_run _ _ _ _ _ _ _ Hparent Hrun).
    eexists. split; [done|]. done.
Qed.

Lemma C8_witness :
  childFate (fun _ => ExecFails 2)
    (startChild (configure [AddArgument "/no/such/program"] new))
  = Some (Exits 1).
Proof.
  exact (proj1 (C8_exec_failure_exits_with_status_1
           [AddArgument "/no/such/program"] 42 0 7%nat
           (fun _ => ExecFails 2) _ _ 2 eq_refl eq_refl eq_refl)).
Defined.

End SubprocessProofs.

(* ===================================================================== *)
(** * Properties of the ownership library *)
(* ===================================================================== *)

Module OwnershipProofs.
Import OwnershipSpec.

(** ** Running heap code *)

Ltac m_unfold :=
  cbv beta iota delta
    [bind ret undefined notInScope load store deleteBlock
     deleteEnsuringCompleteType newObject RefcountOps.new].

Lemma bind_Ok {S A B} (c : M S A) (k : A -> M S B) s a s' :
  c s = Ok (a, s') -> bind c k s = k a s'.
Proof. unfold bind. by intros ->. Qed.

Lemma delete_object o h :
  deleteEnsuringCompleteType (Some o) h = Ok (tt, destroy o h).
Proof. done. Qed.

Lemma deleteEach_held ptrs h :
  deleteEach ptrs h = Ok (tt, destroyAll (held ptrs) h).
Proof.
  revert h. induction ptrs as [|[o|] ptrs IH]; intros h; simpl.
  - unfold destroyAll, ret. destruct h; simpl. by rewrite app_nil_r.
  - unfold bind. simpl. rewrite IH. unfold destroyAll. simpl.
    by rewrite <- app_assoc.
  - unfold bind. simpl. rewrite IH. done.
Qed.

Lemma spares_deleteEach e ptrs : e ∉ held ptrs -> spares e (deleteEach ptrs).
Proof.
  intros He h Hh. eexists _, _. split; [apply deleteEach_held|].
  simpl. rewrite elem_of_app. tauto.
Qed.

(** ** Owned containers *)

Lemma held_app ps qs : held (ps ++ qs) = held ps ++ held qs.
Proof. unfold held. apply omap_app. Qed.

Lemma held_lookup ps i e : ps !! i = Some (Some e) -> e ∈ held ps.
Proof.
  intros Hi. unfold held. apply list_elem_of_omap.
  exists (Some e). split; [|done]. eapply list_elem_of_lookup_2; eauto.
Qed.

(** Taking the element at [i] out of a duplicate-free container leaves a
    container that does not hold it, whether the slot is erased or set to
    NULL. *)
Lemma held_without ps i e :
  ps !! i = Some (Some e) -> NoDup (held ps) ->
  (e ∉ held (delete i ps)) /\ (e ∉ held (<[i := None]> ps)) /\
  NoDup (held (delete i ps)).
Proof.
  intros Hi Hnd.
  rewrite <- (take_drop_middle ps i (Some e) Hi) in Hnd.
  rewrite held_app in Hnd. simpl in Hnd.
  apply NoDup_app in Hnd as (Hnd1 & Hdis & Hnd2).
  apply NoDup_cons in Hnd2 as [Hnot Hnd2].
  assert (i < length ps)%nat as Hlt by (eapply lookup_lt_Some; eauto).
  assert (e ∉ held (take i ps)) as Hnot1.
  { intros Hin. apply (Hdis e Hin). by left. }
  rewrite delete_take_drop, insert_take_drop by done.
  rewrite !held_app. simpl. rewrite !elem_of_app.
  split; [tauto|]. split; [tauto|].
  apply NoDup_app. split; [done|]. split; [|done].
  intros x Hx1 Hx2. apply (Hdis x Hx1). by right.
Qed.

Lemma at_index_lookup {A} (v : list A) index a :
  0 <= index -> v !! Z.to_nat index = Some a -> at_index v index = Ok a.
Proof.
  intros Hi Hl. unfold at_index. rewrite Hl.
  apply lookup_lt_Some in Hl.
  destruct (Z.leb_spec 0 index); [|lia].
  destruct (Z.ltb_spec index (Z.of_nat (length v))); [done|lia].
Qed.

Lemma last_lookup_Some {A} (v : list A) a :
  last v = Some a -> v !! Nat.pred (length v) = Some a /\
  removelast v = delete (Nat.pred (length v)) v.
Proof.
  induction v as [|x v IH] using rev_ind; [done|].
  rewrite last_snoc. intros [= ->].
  rewrite length_app. simpl. rewrite Nat.add_1_r. simpl.
  split.
  - by rewrite lookup_app_r, Nat.sub_diag.
  - rewrite removelast_last.
    rewrite delete_take_drop, take_app_length.
    rewrite drop_ge by (rewrite length_app; simpl; lia).
    by rewrite app_nil_r.
Qed.

(** C5, as the specification states it, fails for release by index: the
    slot stays in the vector. *)
Lemma C5_release_by_index_keeps_slot :
  ~ releaseRemovesSlot [Some 5%nat] 0.
Proof.
  intros Hr. specialize (Hr _ _ eq_refl). vm_compute in Hr. discriminate.
Qed.

Section ReleaseFamily.
Context {Key : Type} `{Countable Key}.

Lemma held_values_delete (map : gmap Key (option obj)) key e :
  map !! key = Some (Some e) ->
  NoDup (held (OwnedPtrMap.values map)) ->
  e ∉ held (OwnedPtrMap.values (delete key map)).
Proof.
  intros Hk Hnd. unfold OwnedPtrMap.values in *.
  assert (map_to_list map ≡ₚ (key, Some e) :: map_to_list (delete key map))
    as Hperm.
  { rewrite <- (insert_delete_id map key (Some e)) at 1 by done.
    apply map_to_list_insert, lookup_delete_eq. }
  assert (held (map_to_list map).*2
          ≡ₚ e :: held (map_to_list (delete key map)).*2) as Hperm'.
  { unfold held. rewrite Hperm. done. }
  rewrite Hperm' in Hnd. by apply NoDup_cons in Hnd as [? _].
Qed.

(** C5 (amended): on a container that owns its elements once each, every
    release-family operation hands the element [e] it finds to the caller
    in the returned (or output) exclusive handle.  release by index of the
    vector leaves the slot in place, holding NULL, and the size unchanged;
    releaseBack, releaseAndShift, popFront, popBack, pop and release by
    key remove the slot or entry (release by key first deletes what the
    output handle held).  In every case destroying or clearing the
    container afterwards is defined and does not destroy [e]. *)
Theorem C5_release_family_transfers_ownership (e : obj) :
  (forall vec index,
     0 <= index -> vec !! Z.to_nat index = Some (Some e) ->
     NoDup (held vec) ->
     let vec' := <[Z.to_nat index := None]> vec in
     OwnedPtrVector.release vec index = Ok (OwnedPtr.mk (Some e), vec') /\
     OwnedPtrVector.size vec' = OwnedPtrVector.size vec /\
     spares e (OwnedPtrVector.destructor vec') /\
     spares e (OwnedPtrVector.clear vec')) /\
  (forall vec,
     last vec = Some (Some e) -> NoDup (held vec) ->
     let vec' := removelast vec in
     OwnedPtrVector.releaseBack vec = Ok (OwnedPtr.mk (Some e), vec') /\
     OwnedPtrVector.size vec' = OwnedPtrVector.size vec - 1 /\
     spares e (OwnedPtrVector.destructor vec') /\
     spares e (OwnedPtrVector.clear vec')) /\
  (forall vec index,
     0 <= index -> vec !! Z.to_nat index = Some (Some e) ->
     NoDup (held vec) ->
     let vec' := delete (Z.to_nat index) vec in
     OwnedPtrVector.releaseAndShift vec index
       = Ok (OwnedPtr.mk (Some e), vec') /\
     OwnedPtrVector.size vec' = OwnedPtrVector.size vec - 1 /\
     spares e (OwnedPtrVector.destructor vec') /\
     spares e (OwnedPtrVector.clear vec')) /\
  (forall q rest,
     q = Some e :: rest -> NoDup (held q) ->
     OwnedPtrDeque.popFront q = Ok (OwnedPtr.mk (Some e), rest) /\
     OwnedPtrQueue.pop q = Ok (OwnedPtr.mk (Some e), rest) /\
     spares e (OwnedPtrDeque.destructor rest) /\
     spares e (OwnedPtrDeque.clear rest) /\
     spares e (OwnedPtrQueue.destructor rest) /\
     spares e (OwnedPtrQueue.clear rest)) /\
  (forall q,
     last q = Some (Some e) -> NoDup (held q) ->
     let q' := removelast q in
     OwnedPtrDeque.popBack q = Ok (OwnedPtr.mk (Some e), q') /\
     OwnedPtrDeque.size q' = OwnedPtrDeque.size q - 1 /\
     spares e (OwnedPtrDeque.destructor q') /\
     spares e (OwnedPtrDeque.clear q')) /\
  (forall q index,
     0 <= index -> q !! Z.to_nat index = Some (Some e) ->
     NoDup (held q) ->
     let q' := delete (Z.to_nat index) q in
     OwnedPtrDeque.releaseAndShift q index = Ok (OwnedPtr.mk (Some e), q') /\
     OwnedPtrDeque.size q' = OwnedPtrDeque.size q - 1 /\
     spares e (OwnedPtrDeque.destructor q') /\
     spares e (OwnedPtrDeque.clear q')) /\
  (forall (map : gmap Key (option obj)) key output h,
     map !! key = Some (Some e) ->
     NoDup (held (OwnedPtrMap.values map)) ->
     let map' := delete key map in
     OwnedPtrMap.release map key output h
       = Ok ((true, map', OwnedPtr.mk (Some e)),
             destroyAll (held [OwnedPtr.ptr output]) h) /\
     map' !! key = None /\
     spares e (OwnedPtrMap.destructor map') /\
     spares e (OwnedPtrMap.clear map')).
Proof.
  assert (forall ptrs, e ∉ held ptrs ->
            spares e (let! _ := deleteEach ptrs in ret ([] : list (option obj))))
    as Hclear.
  { intros ptrs Hn h Hh. unfold bind. rewrite deleteEach_held.
    eexists _, _. split; [done|]. simpl. rewrite elem_of_app. tauto. }
  assert (forall q h, OwnedPtrQueue.clear q h
                      = (let! _ := deleteEach q in ret []) h) as Hq.
  { induction q as [|p q IH]; intros h; simpl; [done|].
    unfold bind at 1 3. destruct p; simpl; rewrite IH; done. }
  assert (forall ptrs, e ∉ held ptrs -> spares e (OwnedPtrQueue.clear ptrs))
    as Hqclear.
  { intros ptrs Hn h Hh. rewrite Hq. by apply Hclear. }
  assert (forall ptrs, e ∉ held ptrs ->
            spares e (OwnedPtrQueue.destructor ptrs)) as Hqdtor.
  { intros ptrs Hn h Hh. unfold OwnedPtrQueue.destructor, bind.
    destruct (Hqclear ptrs Hn h Hh) as (a & h' & -> & Hh').
    by exists tt, h'. }
  split; [|split; [|split; [|split; [|split; [|split]]]]].
  - intros vec index Hi Hl Hnd vec'. subst vec'.
    destruct (held_without _ _ _ Hl Hnd) as (_ & Hn & _).
    split; [|split; [|split]].
    + unfold OwnedPtrVector.release. by erewrite at_index_lookup.
    + unfold OwnedPtrVector.size. by rewrite length_insert.
    + by apply spares_deleteEach.
    + by apply Hclear.
  - intros vec Hlast Hnd vec'. subst vec'.
    destruct (last_lookup_Some _ _ Hlast) as [Hl Hrm].
    destruct (held_without _ _ _ Hl Hnd) as (Hn & _ & _).
    rewrite <- Hrm in Hn.
    split; [|split; [|split]].
    + unfold OwnedPtrVector.releaseBack. by rewrite Hlast.
    + unfold OwnedPtrVector.size.
      rewrite Hrm, length_delete by eauto. apply lookup_lt_Some in Hl. lia.
    + by apply spares_deleteEach.
    + by apply Hclear.
  - intros vec index Hi Hl Hnd vec'. subst vec'.
    destruct (held_without _ _ _ Hl Hnd) as (Hn & _ & _).
    split; [|split; [|split]].
    + unfold OwnedPtrVector.releaseAndShift. by erewrite at_index_lookup.
    + unfold OwnedPtrVector.size.
      rewrite length_delete by eauto. apply lookup_lt_Some in Hl. lia.
    + by apply spares_deleteEach.
    + by apply Hclear.
  - intros q rest -> Hnd. simpl in Hnd. apply NoDup_cons in Hnd as [Hn _].
    split; [done|]. split; [done|].
    split; [by apply spares_deleteEach|]. split; [by apply Hclear|].
    split; [by apply Hqdtor | by apply Hqclear].
  - intros q Hlast Hnd q'. subst q'.
    destruct (last_lookup_Some _ _ Hlast) as [Hl Hrm].
    destruct (held_without _ _ _ Hl Hnd) as (Hn & _ & _).
    rewrite <- Hrm in Hn.
    split; [|split; [|split]].
    + unfold OwnedPtrDeque.popBack. by rewrite Hlast.
    + unfold OwnedPtrDeque.size.
      rewrite Hrm, length_delete by eauto. apply lookup_lt_Some in Hl. lia.
    + by apply spares_deleteEach.
    + by apply Hclear.
  - intros q index Hi Hl Hnd q'. subst q'.
    destruct (held_without _ _ _ Hl Hnd) as (Hn & _ & _).
    split; [|split; [|split]].
    + unfold OwnedPtrDeque.releaseAndShift. by erewrite at_index_lookup.
    + unfold OwnedPtrDeque.size.
      rewrite length_delete by eauto. apply lookup_lt_Some in Hl. lia.
    + by apply spares_deleteEach.
    + by apply Hclear.
  - intros map key output h Hk Hnd map'. subst map'.
    pose proof (held_values_delete _ _ _ Hk Hnd) as Hn.
    split; [|split; [|split]].
    + unfold OwnedPtrMap.release, OwnedPtr.reset. rewrite Hk. m_unfold.
      destruct (OwnedPtr.ptr output) as [old|]; [done|].
      unfold destroyAll. simpl. rewrite app_nil_r. by destruct h.
    + apply lookup_delete_eq.
    + by apply spares_deleteEach.
    + intros h' Hh. unfold OwnedPtrMap.clear, bind.
      rewrite deleteEach_held. eexists _, _. split; [done|]. simpl.
      rewrite elem_of_app. tauto.
Qed.

(** C10: addIfNew with a key that is present returns false, leaves the
    map as it was, destroys the offered element and leaves the handle it
    was passed in empty; with a key that is absent it returns true, the
    map owns the element, nothing is destroyed, and the handle is empty
    as well. *)
Theorem C10_addIfNew_consumes_the_offered_element
  (map : gmap Key (option obj)) (key : Key) (o : obj) (h : Heap) :
  (forall old,
     map !! key = Some old ->
     OwnedPtrMap.addIfNew map key (OwnedPtr.mk (Some o)) h
     = Ok ((false, map, OwnedPtr.empty), destroy o h)) /\
  (map !! key = None ->
     OwnedPtrMap.addIfNew map key (OwnedPtr.mk (Some o)) h
     = Ok ((true, <[key := Some o]> map, OwnedPtr.empty), h)).
Proof.
  unfold OwnedPtrMap.addIfNew. simpl. split.
  - by intros old ->.
  - by intros ->.
Qed.

End ReleaseFamily.

Lemma C5_witness :
  0 <= 1 /\
  [Some 4%nat; Some 5%nat; None] !! Z.to_nat 1 = Some (Some 5%nat) /\
  NoDup (held [Some 4%nat; Some 5%nat; None]) /\
  OwnedPtrVector.releaseAndShift [Some 4%nat; Some 5%nat; None] 1
  = Ok (OwnedPtr.mk (Some 5%nat), [Some 4%nat; None]).
Proof.
  assert (NoDup (held [Some 4%nat; Some 5%nat; None])) as Hnd.
  { unfold held. simpl. apply NoDup_cons. split; [|apply NoDup_singleton].
    rewrite list_elem_of_singleton. lia. }
  split; [lia|]. split; [reflexivity|]. split; [exact Hnd|].
  refine (proj1 (proj1 (proj2 (proj2
    (C5_release_family_transfers_ownership (Key := nat) 5%nat)))
    [Some 4%nat; Some 5%nat; None] 1 _ _ Hnd)).
  - lia.
  - reflexivity.
Defined.

Lemma C10_witness :
  OwnedPtrMap.addIfNew ({[ 1%nat := Some 7%nat ]} : gmap nat (option obj))
    1%nat (OwnedPtr.mk (Some 8%nat)) emptyHeap
  = Ok ((false, {[ 1%nat := Some 7%nat ]}, OwnedPtr.empty),
        destroy 8%nat emptyHeap).
Proof.
  apply (proj1 (C10_addIfNew_consumes_the_offered_element
                  ({[ 1%nat := Some 7%nat ]} : gmap nat (option obj))
                  1%nat 8%nat emptyHeap) (Some 7%nat)).
  reflexivity.
Defined.

(** ** Release to exclusive *)

(** What SmartPtr::release does on a handle whose block is allocated: it
    succeeds exactly when the strong counter is one; on failure nothing
    changes; on success the object goes to the exclusive handle (whose
    previous object is deleted), the strong counter drops to zero, the
    block is freed if no weak reference is left, and the handle keeps its
    refcount pointer. *)
Lemma release_spec this other h l b :
  SmartPtr.refcount this = Some l ->
  blocks h !! l = Some b ->
  SmartPtr.release this other h
  = if Refcount.strong b =? 1
    then
      (let! _ := (if Refcount.weak b =? 0 then deleteBlock l else ret tt) in
       let! _ := deleteEnsuringCompleteType (OwnedPtr.ptr other) in
       ret (true, SmartPtr.mk None (Some l),
            OwnedPtr.mk (SmartPtr.ptr this)))
        (withBlock l (Refcount.mk 0 (Refcount.weak b)) h)
    else Ok ((false, this, other), h).
Proof.
  intros E Hb. unfold SmartPtr.release, RefcountOps.release. rewrite E.
  m_unfold. rewrite Hb.
  destruct (Z.eqb_spec (Refcount.strong b) 1) as [E1|]; [|done].
  unfold RefcountOps.dec. m_unfold. rewrite Hb, E1. simpl. rewrite Hb.
  unfold withBlock, setBlocks, OwnedPtr.reset. m_unfold. simpl.
  destruct (Refcount.weak b =? 0); simpl.
  - rewrite !lookup_insert_eq. by destruct (OwnedPtr.ptr other).
  - by destruct (OwnedPtr.ptr other).
Qed.

(** C3, at the failing input: after a successful release to exclusive the
    exclusive handle owns the object and the strong counter is zero, but
    the released handle still points at the refcount block; copying it
    raises the counter again, and the upgrade of the weak reference then
    yields a shared handle to the object that the exclusive handle owns.
    Dropping the handles afterwards destroys that object twice.  Without a
    weak reference the release frees the block, and the destructor of the
    released handle then touches the freed block. *)
Theorem C3_upgrade_succeeds_after_release :
  exec releaseThenDestroy emptyWorld = Undefined /\
  endsWith releaseToExclusive emptyWorld (fun w1 =>
    owned w1 !! 0%nat = Some (OwnedPtr.mk (Some 0%nat)) /\
    shared w1 !! 0%nat = Some (SmartPtr.mk None (Some 0%nat)) /\
    strongOf (heap w1) 0%nat = 0 /\
    endsWith copyAndUpgrade w1 (fun w2 =>
      shared w2 !! 2%nat = Some (SmartPtr.mk (Some 0%nat) (Some 0%nat)) /\
      owned w2 !! 0%nat = Some (OwnedPtr.mk (Some 0%nat)) /\
      strongOf (heap w2) 0%nat = 2 /\
      endsWith dropAll w2 (fun w3 =>
        destroyed (heap w3) = [0%nat; 0%nat]))).
Proof. vm_compute. repeat split. Qed.

(** ** Counting the handles of a block *)

Section Refs.
Context {A : Type} (rc : A -> option loc).
Implicit Types m : gmap var A.

Lemma refs_insert m x p l :
  refs rc (<[x := p]> m) l = refs rc (delete x m) l + ind (rc p) l.
Proof.
  unfold refs, ind. rewrite map_filter_insert. simpl.
  destruct (decide (rc p = Some l)); [|lia].
  rewrite <- insert_delete_eq, map_size_insert_None by apply lookup_delete_eq.
  rewrite map_filter_delete. lia.
Qed.

Lemma refs_lookup m x p l :
  m !! x = Some p -> refs rc m l = refs rc (delete x m) l + ind (rc p) l.
Proof.
  intros Hx. rewrite <- (insert_id m x p Hx) at 1. apply refs_insert.
Qed.

Lemma refs_fresh m x l : m !! x = None -> refs rc (delete x m) l = refs rc m l.
Proof. intros Hx. by rewrite delete_id. Qed.

Lemma refs_nonneg m l : 0 <= refs rc m l.
Proof. unfold refs. lia. Qed.

Lemma ind_nonneg r l : 0 <= ind r l <= 1.
Proof. unfold ind. destruct (decide _); lia. Qed.

Lemma ind_same l : ind (Some l) l = 1.
Proof. unfold ind. by rewrite decide_True. Qed.

Lemma ind_other r l : r <> Some l -> ind r l = 0.
Proof. intros. unfold ind. by rewrite decide_False. Qed.

Lemma refs_held m x p l : m !! x = Some p -> rc p = Some l -> 1 <= refs rc m l.
Proof.
  intros Hx Hl. rewrite (refs_lookup m x p l Hx), Hl, ind_same.
  pose proof (refs_nonneg (delete x m) l). lia.
Qed.

Lemma refs_le_size m l : refs rc m l <= Z.of_nat (size m).
Proof.
  unfold refs. apply inj_le. apply map_size_filter.
Qed.

Lemma refs_zero m x p l : refs rc m l = 0 -> m !! x = Some p -> rc p <> Some l.
Proof.
  intros Hz Hx Hl. pose proof (refs_held m x p l Hx Hl). lia.
Qed.

End Refs.

(** ** The heap invariant under the steps of the refcount code *)

Lemma strongOf_withBlock l b h l' :
  strongOf (withBlock l b h) l'
  = if decide (l' = l) then Refcount.strong b else strongOf h l'.
Proof.
  unfold strongOf, withBlock, setBlocks. simpl.
  destruct (decide (l' = l)) as [->|].
  - by rewrite lookup_insert_eq.
  - by rewrite lookup_insert_ne.
Qed.

Lemma weakOf_withBlock l b h l' :
  weakOf (withBlock l b h) l'
  = if decide (l' = l) then Refcount.weak b else weakOf h l'.
Proof.
  unfold weakOf, withBlock, setBlocks. simpl.
  destruct (decide (l' = l)) as [->|].
  - by rewrite lookup_insert_eq.
  - by rewrite lookup_insert_ne.
Qed.

Lemma HeapInv_ext g h cS cW cS' cW' :
  HeapInv g h cS cW ->
  (forall l, cS l = cS' l) -> (forall l, cW l = cW' l) ->
  HeapInv g h cS' cW'.
Proof.
  intros [] HS HW. split; try done.
  - intros l. by rewrite <- HS.
  - intros l. by rewrite <- HW.
Qed.

Lemma HeapInv_block g h cS cW l :
  HeapInv g h cS cW -> (0 < cS l \/ 0 < cW l) ->
  exists b, blocks h !! l = Some b /\
            Refcount.strong b = cS l /\ Refcount.weak b = cW l.
Proof.
  intros Hinv Hpos.
  pose proof (hi_strong _ _ _ _ Hinv l) as HS.
  pose proof (hi_weak _ _ _ _ Hinv l) as HW.
  unfold strongOf, weakOf in *.
  destruct (blocks h !! l) as [b|]; [by exists b|lia].
Qed.

(** Writing counters that keep the strong counter zero, or keep it
    non-zero. *)
Lemma HeapInv_withBlock g h cS cW l b0 b :
  HeapInv g h cS cW ->
  blocks h !! l = Some b0 ->
  (Refcount.strong b0 = 0 <-> Refcount.strong b = 0) ->
  HeapInv g (withBlock l b h)
    (fun l' => cS l' + ind (Some l) l' * (Refcount.strong b - Refcount.strong b0))
    (fun l' => cW l' + ind (Some l) l' * (Refcount.weak b - Refcount.weak b0)).
Proof.
  intros Hinv Hb Hz.
  pose proof (hi_strong _ _ _ _ Hinv) as HS.
  pose proof (hi_weak _ _ _ _ Hinv) as HW.
  assert (strongOf h l = Refcount.strong b0) as HSl
    by (unfold strongOf; by rewrite Hb).
  assert (weakOf h l = Refcount.weak b0) as HWl
    by (unfold weakOf; by rewrite Hb).
  destruct Hinv. split; try done.
  - intros l'. rewrite strongOf_withBlock. unfold ind.
    destruct (decide (l' = l)) as [->|].
    + rewrite decide_True by done. rewrite <- HS. lia.
    + rewrite decide_False by congruence. rewrite <- HS. lia.
  - intros l'. rewrite weakOf_withBlock. unfold ind.
    destruct (decide (l' = l)) as [->|].
    + rewrite decide_True by done. rewrite <- HW. lia.
    + rewrite decide_False by congruence. rewrite <- HW. lia.
  - intros l'. simpl. destruct (decide (l' = l)) as [->|].
    + intros _. apply hi_blocks_lt0. by rewrite Hb.
    + rewrite lookup_insert_ne by done. apply hi_blocks_lt0.
  - intros l' o Hg. rewrite strongOf_withBlock.
    destruct (decide (l' = l)) as [->|]; [|by apply hi_destroyed0].
    rewrite (hi_destroyed0 _ _ Hg). rewrite HSl. tauto.
Qed.

(** The last strong holder drops: the counter goes from one to zero and
    the object is deleted. *)
Lemma HeapInv_last g h cS cW l b0 o :
  HeapInv g h cS cW ->
  blocks h !! l = Some b0 ->
  Refcount.strong b0 = 1 ->
  g !! l = Some o ->
  HeapInv g (destroy o (withBlock l (Refcount.mk 0 (Refcount.weak b0)) h))
    (fun l' => cS l' - ind (Some l) l') cW.
Proof.
  intros Hinv Hb H1 Hg.
  pose proof (hi_strong _ _ _ _ Hinv) as HS.
  pose proof (hi_weak _ _ _ _ Hinv) as HW.
  assert (strongOf h l = 1) as HSl by (unfold strongOf; by rewrite Hb).
  assert (weakOf h l = Refcount.weak b0) as HWl
    by (unfold weakOf; by rewrite Hb).
  assert (o ∉ destroyed h) as Hnot.
  { rewrite (hi_destroyed _ _ _ _ Hinv _ _ Hg). lia. }
  destruct Hinv. split; try done.
  - intros l'. change (strongOf (destroy o ?x) l') with (strongOf x l').
    rewrite strongOf_withBlock. unfold ind.
    destruct (decide (l' = l)) as [->|].
    + rewrite decide_True by done. simpl. rewrite <- HS. lia.
    + rewrite decide_False by congruence. rewrite <- HS. lia.
  - intros l'. change (weakOf (destroy o ?x) l') with (weakOf x l').
    rewrite weakOf_withBlock.
    destruct (decide (l' = l)) as [->|]; [simpl; by rewrite <- HW|done].
  - intros l'. simpl. destruct (decide (l' = l)) as [->|].
    + intros _. apply hi_blocks_lt0. by rewrite Hb.
    + rewrite lookup_insert_ne by done. apply hi_blocks_lt0.
  - simpl. apply NoDup_app. split; [done|]. split; [|apply NoDup_singleton].
    intros x Hx Hx'. apply list_elem_of_singleton in Hx'. by subst.
  - intros x. simpl. rewrite elem_of_app, list_elem_of_singleton.
    intros [Hx| ->]; [by apply hi_destroyed_lt0|].
    by apply (hi_g_lt0 _ _ Hg).
  - intros l' o' Hg'. simpl destroyed.
    change (strongOf (destroy o ?x) l') with (strongOf x l').
    rewrite strongOf_withBlock, elem_of_app, list_elem_of_singleton.
    destruct (decide (l' = l)) as [->|Hne].
    + simpl. assert (o' = o) by congruence. tauto.
    + rewrite (hi_destroyed0 _ _ Hg').
      assert (o' <> o) by (intros ->; eauto). tauto.
Qed.

(** A block with both counters at zero is freed. *)
Lemma HeapInv_free g h cS cW l b :
  HeapInv g h cS cW ->
  blocks h !! l = Some b ->
  Refcount.strong b = 0 -> Refcount.weak b = 0 ->
  HeapInv g (freeBlock l b h) cS cW.
Proof.
  intros Hinv Hb H0 H0'.
  pose proof (hi_strong _ _ _ _ Hinv) as HS.
  pose proof (hi_weak _ _ _ _ Hinv) as HW.
  assert (forall l', strongOf (freeBlock l b h) l' = strongOf h l') as HS'.
  { intros l'. unfold strongOf, freeBlock. simpl.
    destruct (decide (l' = l)) as [->|].
    - by rewrite lookup_delete_eq, Hb.
    - by rewrite lookup_delete_ne. }
  assert (forall l', weakOf (freeBlock l b h) l' = weakOf h l') as HW'.
  { intros l'. unfold weakOf, freeBlock. simpl.
    destruct (decide (l' = l)) as [->|].
    - by rewrite lookup_delete_eq, Hb.
    - by rewrite lookup_delete_ne. }
  destruct Hinv. split; try done.
  - intros l'. by rewrite HS'.
  - intros l'. by rewrite HW'.
  - intros l'. simpl. destruct (decide (l' = l)) as [->|].
    + rewrite lookup_delete_eq. by intros [? ?].
    + rewrite lookup_delete_ne by done. apply hi_blocks_lt0.
  - intros l' o Hg. rewrite HS'. by apply hi_destroyed0.
  - intros l' b'. simpl. rewrite elem_of_app, list_elem_of_singleton.
    intros [Hin|[= -> ->]]; [by apply (hi_freed0 l')|done].
Qed.

(** A new object is placed under shared ownership. *)
Lemma HeapInv_alloc g h cS cW :
  HeapInv g h cS cW ->
  HeapInv (<[nextBlock h := nextObj h]> g) (allocShared h)
    (fun l' => cS l' + ind (Some (nextBlock h)) l') cW.
Proof.
  intros Hinv.
  pose proof (hi_strong _ _ _ _ Hinv) as HS.
  pose proof (hi_weak _ _ _ _ Hinv) as HW.
  assert (blocks h !! nextBlock h = None) as Hfresh.
  { destruct (blocks h !! nextBlock h) eqn:E; [|done].
    assert (nextBlock h < nextBlock h)%nat; [|lia].
    apply (hi_blocks_lt _ _ _ _ Hinv). by rewrite E. }
  assert (g !! nextBlock h = None) as Hgfresh.
  { destruct (g !! nextBlock h) eqn:E; [|done].
    apply (hi_g_lt _ _ _ _ Hinv) in E. lia. }
  assert (forall l', strongOf (allocShared h) l'
                     = strongOf h l' + ind (Some (nextBlock h)) l') as HS'.
  { intros l'. unfold strongOf, allocShared, ind. simpl.
    destruct (decide (l' = nextBlock h)) as [->|].
    - rewrite lookup_insert_eq, Hfresh, decide_True by done. done.
    - rewrite lookup_insert_ne, decide_False by congruence. lia. }
  assert (forall l', weakOf (allocShared h) l' = weakOf h l') as HW'.
  { intros l'. unfold weakOf, allocShared. simpl.
    destruct (decide (l' = nextBlock h)) as [->|].
    - by rewrite lookup_insert_eq, Hfresh.
    - by rewrite lookup_insert_ne. }
  destruct Hinv. split; try done.
  - intros l'. by rewrite HS', HS.
  - intros l'. by rewrite HW'.
  - intros l'. simpl. destruct (decide (l' = nextBlock h)) as [->|].
    + lia.
    + rewrite lookup_insert_ne by done. intros Hl.
      apply hi_blocks_lt0 in Hl. lia.
  - intros l1 l2 o. rewrite !lookup_insert.
    repeat case_decide; subst; try done.
    + intros [= <-] Hg. apply hi_g_lt0 in Hg. lia.
    + intros Hg [= <-]. apply hi_g_lt0 in Hg. lia.
    + apply hi_g_inj0.
  - intros l' o. rewrite lookup_insert. simpl. case_decide.
    + intros [= <-]. subst. lia.
    + intros Hg. apply hi_g_lt0 in Hg. lia.
  - intros o Ho. simpl in Ho.
    destruct (decide (o = nextObj h)) as [->|].
    + exists (nextBlock h). by rewrite lookup_insert_eq.
    + destruct (hi_g_all0 o) as [l' Hl']; [lia|].
      exists l'. rewrite lookup_insert_ne; [done|]. congruence.
  - intros o Ho. simpl in *. apply hi_destroyed_lt0 in Ho. lia.
  - intros l' o. rewrite lookup_insert, HS'. simpl destroyed. case_decide.
    + intros [= <-]. subst. rewrite ind_same.
      assert (strongOf h (nextBlock h) = 0) as ->
        by (unfold strongOf; by rewrite Hfresh).
      split; [|lia]. intros Hin. apply hi_destroyed_lt0 in Hin. lia.
    + intros Hg. rewrite ind_other by congruence.
      rewrite Z.add_0_r. by apply hi_destroyed0.
Qed.

(** ** The refcount functions keep the heap invariant *)

Lemma inc_ok g h cS cW r :
  HeapInv g h cS cW ->
  (forall l, r = Some l -> 1 <= cS l < INT_MAX) ->
  exists h', RefcountOps.inc r h = Ok (tt, h') /\
             HeapInv g h' (fun l => cS l + ind r l) cW.
Proof.
  intros Hinv Hr. destruct r as [l|].
  - destruct (Hr l eq_refl) as [H1 H2].
    destruct (HeapInv_block _ _ _ _ l Hinv) as (b & Hb & HbS & HbW); [lia|].
    eexists. split.
    + unfold RefcountOps.inc. m_unfold. rewrite Hb.
      destruct (Z.eqb_spec (Refcount.strong b) INT_MAX); [lia|].
      rewrite Hb. reflexivity.
    + eapply HeapInv_ext.
      * apply (HeapInv_withBlock _ _ _ _ l b _ Hinv Hb). simpl. lia.
      * intros l'. simpl. lia.
      * intros l'. simpl. lia.
  - exists h. split; [done|]. eapply HeapInv_ext; eauto.
    intros l. rewrite ind_other by done. lia.
Qed.

(** A decrement that leaves another strong holder. *)
Lemma dec_keep_ok g h cS cW l :
  HeapInv g h cS cW ->
  2 <= cS l ->
  exists h', RefcountOps.dec (Some l) h = Ok (false, h') /\
             HeapInv g h' (fun l' => cS l' - ind (Some l) l') cW.
Proof.
  intros Hinv H2.
  destruct (HeapInv_block _ _ _ _ l Hinv) as (b & Hb & HbS & HbW); [lia|].
  eexists. split.
  - unfold RefcountOps.dec. m_unfold. rewrite Hb.
    destruct (Z.eqb_spec (Refcount.strong b) INT_MIN); [unfold INT_MIN in *; lia|].
    rewrite Hb.
    destruct (Z.eqb_spec (Refcount.strong b - 1) 0); [lia|]. reflexivity.
  - eapply HeapInv_ext.
    + apply (HeapInv_withBlock _ _ _ _ l b _ Hinv Hb). simpl. lia.
    + intros l'. simpl. lia.
    + intros l'. simpl. lia.
Qed.

(** ~SmartPtr() on a handle that the counts include. *)
Lemma destructor_ok g h cS cW this :
  HeapInv g h cS cW ->
  good g (SmartPtr.ptr this) (SmartPtr.refcount this) ->
  (forall l, SmartPtr.refcount this = Some l -> 1 <= cS l) ->
  exists h', SmartPtr.destructor this h = Ok (tt, h') /\
             HeapInv g h' (fun l => cS l - ind (SmartPtr.refcount this) l) cW.
Proof.
  intros Hinv Hgood Hr. destruct this as [p [l|]]; simpl in *.
  - destruct Hgood as (o & Hg & ->). specialize (Hr l eq_refl).
    destruct (HeapInv_block _ _ _ _ l Hinv) as (b & Hb & HbS & HbW); [lia|].
    unfold SmartPtr.destructor, RefcountOps.dec. m_unfold. simpl.
    rewrite Hb.
    destruct (Z.eqb_spec (Refcount.strong b) INT_MIN);
      [unfold INT_MIN in *; lia|].
    rewrite Hb.
    destruct (Z.eqb_spec (Refcount.strong b - 1) 0) as [E0|E0].
    + assert (Refcount.strong b = 1) as E1 by lia.
      pose proof (HeapInv_last _ _ _ _ l b o Hinv Hb E1 Hg) as Hlast.
      rewrite E0.
      destruct (Z.eqb_spec (Refcount.weak b) 0) as [W0|W0].
      * simpl. rewrite lookup_insert_eq. eexists. split; [reflexivity|].
        apply (HeapInv_free _ _ _ _ l (Refcount.mk 0 (Refcount.weak b)))
          in Hlast; [exact Hlast| |done|done].
        simpl. by rewrite lookup_insert_eq.
      * eexists. split; [reflexivity|]. exact Hlast.
    + eexists. split; [reflexivity|].
      eapply HeapInv_ext.
      * apply (HeapInv_withBlock _ _ _ _ l b
                 (Refcount.mk (Refcount.strong b - 1) (Refcount.weak b))
                 Hinv Hb). simpl. lia.
      * intros l'. simpl. lia.
      * intros l'. simpl. lia.
  - exists h. split; [done|]. eapply HeapInv_ext; eauto.
    intros l. rewrite ind_other by done. lia.
Qed.

(** reset(T*, Refcount* ) to a handle value whose block has a holder. *)
Lemma reset2_ok g h cS cW this p r :
  HeapInv g h cS cW ->
  good g (SmartPtr.ptr this) (SmartPtr.refcount this) ->
  (forall l, SmartPtr.refcount this = Some l -> 1 <= cS l) ->
  (forall l, r = Some l -> 1 <= cS l < INT_MAX) ->
  exists h', SmartPtr.reset2 this p r h = Ok (SmartPtr.mk p r, h') /\
             HeapInv g h'
               (fun l => cS l + ind r l - ind (SmartPtr.refcount this) l) cW.
Proof.
  intros Hinv Hgood Hold Hnew.
  destruct (inc_ok _ _ _ _ r Hinv Hnew) as (h1 & E1 & Hinv1).
  destruct (destructor_ok _ _ _ _ this Hinv1 Hgood) as (h2 & E2 & Hinv2).
  { intros l Hl. specialize (Hold l Hl). pose proof (ind_nonneg r l). lia. }
  exists h2. split; [|done].
  unfold SmartPtr.reset2. rewrite (bind_Ok _ _ _ _ _ E1).
  unfold SmartPtr.destructor in E2. unfold bind in *.
  destruct (RefcountOps.dec (SmartPtr.refcount this) h1)
    as [[[] h1']| |]; try done.
  - destruct (deleteEnsuringCompleteType (SmartPtr.ptr this) h1')
      as [[[] ?]| |]; try done. unfold ret. congruence.
  - unfold ret in *. congruence.
Qed.

Lemma incWeak_ok g h cS cW r :
  HeapInv g h cS cW ->
  (forall l, r = Some l -> (1 <= cS l \/ 1 <= cW l) /\ cW l < INT_MAX) ->
  (forall l, 0 <= cW l) ->
  exists h', RefcountOps.incWeak r h = Ok (tt, h') /\
             HeapInv g h' cS (fun l => cW l + ind r l).
Proof.
  intros Hinv Hr Hnn. destruct r as [l|].
  - destruct (Hr l eq_refl) as [H1 H2].
    destruct (HeapInv_block _ _ _ _ l Hinv) as (b & Hb & HbS & HbW); [lia|].
    eexists. split.
    + unfold RefcountOps.incWeak. m_unfold. rewrite Hb.
      destruct (Z.eqb_spec (Refcount.weak b) INT_MAX); [lia|].
      rewrite Hb. reflexivity.
    + eapply HeapInv_ext.
      * apply (HeapInv_withBlock _ _ _ _ l b _ Hinv Hb). simpl. lia.
      * intros l'. simpl. lia.
      * intros l'. simpl. lia.
  - exists h. split; [done|]. eapply HeapInv_ext; eauto.
    intros l. rewrite ind_other by done. lia.
Qed.

Lemma decWeak_ok g h cS cW r :
  HeapInv g h cS cW ->
  (forall l, r = Some l -> 1 <= cW l) ->
  exists h', RefcountOps.decWeak r h = Ok (tt, h') /\
             HeapInv g h' cS (fun l => cW l - ind r l).
Proof.
  intros Hinv Hr. destruct r as [l|].
  - specialize (Hr l eq_refl).
    destruct (HeapInv_block _ _ _ _ l Hinv) as (b & Hb & HbS & HbW); [lia|].
    assert (HeapInv g
              (withBlock l (Refcount.mk (Refcount.strong b)
                              (Refcount.weak b - 1)) h)
              cS (fun l' => cW l' - ind (Some l) l')) as Hinv1.
    { eapply HeapInv_ext.
      * apply (HeapInv_withBlock _ _ _ _ l b _ Hinv Hb). simpl. lia.
      * intros l'. simpl. lia.
      * intros l'. simpl. lia. }
    unfold RefcountOps.decWeak. m_unfold. rewrite Hb.
    destruct (Z.eqb_spec (Refcount.weak b) INT_MIN);
      [unfold INT_MIN in *; lia|].
    rewrite Hb.
    destruct (Z.eqb_spec (Refcount.weak b - 1) 0) as [W0|W0];
      destruct (Z.eqb_spec (Refcount.strong b) 0) as [S0|S0]; simpl;
      try (eexists; split; [reflexivity|exact Hinv1]).
    rewrite lookup_insert_eq. eexists. split; [reflexivity|].
    apply (HeapInv_free _ _ _ _ l _ Hinv1); simpl; try done.
    by rewrite lookup_insert_eq.
  - exists h. split; [done|]. eapply HeapInv_ext; eauto.
    intros l. rewrite ind_other by done. lia.
Qed.

Lemma isLive_ok g h cS cW l :
  HeapInv g h cS cW ->
  (1 <= cS l \/ 1 <= cW l) ->
  RefcountOps.isLive (Some l) h = Ok (0 <? cS l, h).
Proof.
  intros Hinv Hpos.
  destruct (HeapInv_block _ _ _ _ l Hinv) as (b & Hb & HbS & HbW); [lia|].
  unfold RefcountOps.isLive. m_unfold. by rewrite Hb, HbS.
Qed.

(** ** Statements keep the world invariant *)

Ltac w_unfold :=
  cbv beta iota delta
    [bind ret notInScope undefined onHeap getOwned getShared getWeak
     setOwned setShared setWeak freshOwned freshShared freshWeak
     endOwned endShared endWeak].

Lemma WorldInv_make g0 g h o s k cS cW :
  HeapInv g h cS cW ->
  (forall l, cS l = refs SmartPtr.refcount s l) ->
  (forall l, cW l = refs WeakPtr.refcount k l) ->
  sharedGood g s -> weakGood g k -> ownedEmpty o ->
  g0 ⊆ g ->
  WorldInvFrom g0 (mkWorld h o s k).
Proof.
  intros Hinv HS HW Hs Hk Ho Hsub. exists g. split; [done|].
  split; [|done]. eapply HeapInv_ext; eauto.
Qed.

Local Hint Extern 1 (_ ⊆ _) => reflexivity : core.

Lemma sharedGood_insert g m x p :
  sharedGood g m -> good g (SmartPtr.ptr p) (SmartPtr.refcount p) ->
  sharedGood g (<[x := p]> m).
Proof.
  intros Hm Hp y q. rewrite lookup_insert. case_decide.
  - by intros [= <-].
  - apply Hm.
Qed.

Lemma sharedGood_delete g m x : sharedGood g m -> sharedGood g (delete x m).
Proof. intros Hm y q Hy. apply lookup_delete_Some in Hy as [_ Hy]. eauto. Qed.

Lemma weakGood_insert g m v p :
  weakGood g m -> good g (WeakPtr.ptr p) (WeakPtr.refcount p) ->
  weakGood g (<[v := p]> m).
Proof.
  intros Hm Hp y q. rewrite lookup_insert. case_decide.
  - by intros [= <-].
  - apply Hm.
Qed.

Lemma weakGood_delete g m v : weakGood g m -> weakGood g (delete v m).
Proof. intros Hm y q Hy. apply lookup_delete_Some in Hy as [_ Hy]. eauto. Qed.

Lemma ownedEmpty_insert m o : ownedEmpty m -> ownedEmpty (<[o := OwnedPtr.empty]> m).
Proof.
  intros Hm y q. rewrite lookup_insert. case_decide.
  - by intros [= <-].
  - apply Hm.
Qed.

Lemma ownedEmpty_delete m o : ownedEmpty m -> ownedEmpty (delete o m).
Proof. intros Hm y q Hy. apply lookup_delete_Some in Hy as [_ Hy]. eauto. Qed.

Lemma good_None g : good g None None.
Proof. done. Qed.

(** The pairing of a new block does not disturb the handles there are. *)
Lemma good_alloc g l o p r :
  g !! l = None -> good g p r -> good (<[l := o]> g) p r.
Proof.
  intros Hl. destruct r as [l'|]; [|done]. intros (o' & Hg & ->).
  exists o'. split; [|done]. rewrite lookup_insert_ne; [done|]. congruence.
Qed.

Lemma size_insert_le {A} (m : gmap var A) x p :
  (size (<[x := p]> m) <= S (size m))%nat.
Proof. rewrite map_size_insert. destruct (m !! x); simpl; lia. Qed.

Lemma size_delete_le {A} (m : gmap var A) x :
  (size (delete x m) <= S (size m))%nat.
Proof. rewrite map_size_delete. destruct (m !! x); simpl; lia. Qed.

Lemma size_insert_present {A} (m : gmap var A) x p q :
  m !! x = Some q -> size (<[x := p]> m) = size m.
Proof. intros Hx. apply map_size_insert_Some. by exists q. Qed.

(** Bounds on the counts that the room for more handles gives. *)
Lemma sharedRefs_room w l n :
  roomFor (S n) w -> sharedRefs w l < INT_MAX.
Proof.
  intros [Hr _]. pose proof (refs_le_size SmartPtr.refcount (shared w) l).
  unfold sharedRefs. lia.
Qed.

Lemma weakRefs_room w l n :
  roomFor (S n) w -> weakRefs w l < INT_MAX.
Proof.
  intros [_ Hr]. pose proof (refs_le_size WeakPtr.refcount (weaks w) l).
  unfold weakRefs. lia.
Qed.

Lemma step_SCopy g x y w :
  WorldInvG g w -> roomFor 2 w ->
  step (SCopy x y) w = NotInScope \/
  exists w', stepsTo (SCopy x y) w w' /\ WorldInvFrom g w'.
Proof.
  intros (Hinv & HgS & HgW & HgO) Hroom. unfold stepsTo, step. w_unfold.
  destruct (shared w !! x) eqn:Hx; [by left|].
  destruct (shared w !! y) as [other|] eqn:Hy; [|by left]. right.
  destruct (inc_ok _ _ _ _ (SmartPtr.refcount other) Hinv) as (h' & E & Hinv').
  { intros l Hl. split.
    - eapply refs_held; eauto.
    - eapply sharedRefs_room; eauto. }
  unfold SmartPtr.copy. w_unfold. rewrite E. simpl.
  eexists. split; [split; [reflexivity|]|].
  - simpl. split; [apply size_insert_le|lia].
  - eapply WorldInv_make; eauto.
    + intros l. simpl. rewrite refs_insert, refs_fresh by done. done.
    + apply sharedGood_insert; [done|]. simpl. eauto.
Qed.

Lemma step_SDestroy g x w :
  WorldInvG g w ->
  step (SDestroy x) w = NotInScope \/
  exists w', stepsTo (SDestroy x) w w' /\ WorldInvFrom g w'.
Proof.
  intros (Hinv & HgS & HgW & HgO). unfold stepsTo, step. w_unfold.
  destruct (shared w !! x) as [this|] eqn:Hx; [|by left]. right.
  destruct (destructor_ok _ _ _ _ this Hinv) as (h' & E & Hinv'); eauto.
  { intros l Hl. eapply refs_held; eauto. }
  rewrite E. simpl.
  eexists. split; [split; [reflexivity|]|].
  - simpl. split; [apply size_delete_le|lia].
  - eapply WorldInv_make; eauto.
    + intros l. simpl. unfold sharedRefs.
      rewrite (refs_lookup _ _ _ _ l Hx). lia.
    + by apply sharedGood_delete.
Qed.

Lemma step_OEmpty g o w :
  WorldInvG g w ->
  step (OEmpty o) w = NotInScope \/
  exists w', stepsTo (OEmpty o) w w' /\ WorldInvFrom g w'.
Proof.
  intros (Hinv & HgS & HgW & HgO). unfold stepsTo, step. w_unfold.
  destruct (owned w !! o) eqn:Ho; [by left|]. right.
  eexists. split; [split; [reflexivity|simpl; lia]|].
  eapply WorldInv_make; eauto. by apply ownedEmpty_insert.
Qed.

Lemma step_ODestroy g o w :
  WorldInvG g w ->
  step (ODestroy o) w = NotInScope \/
  exists w', stepsTo (ODestroy o) w w' /\ WorldInvFrom g w'.
Proof.
  intros (Hinv & HgS & HgW & HgO). unfold stepsTo, step. w_unfold.
  destruct (owned w !! o) as [this|] eqn:Ho; [|by left]. right.
  unfold OwnedPtr.destructor. rewrite (HgO _ _ Ho). simpl.
  eexists. split; [split; [reflexivity|simpl; lia]|].
  eapply WorldInv_make; eauto. by apply ownedEmpty_delete.
Qed.

Lemma step_SEmpty g x w :
  WorldInvG g w ->
  step (SEmpty x) w = NotInScope \/
  exists w', stepsTo (SEmpty x) w w' /\ WorldInvFrom g w'.
Proof.
  intros (Hinv & HgS & HgW & HgO). unfold stepsTo, step. w_unfold.
  destruct (shared w !! x) eqn:Hx; [by left|]. right.
  eexists. split; [split; [reflexivity|]|].
  - simpl. split; [apply size_insert_le|lia].
  - eapply WorldInv_make; eauto.
    + intros l. simpl. rewrite refs_insert, refs_fresh by done.
      simpl. rewrite ind_other by done. unfold sharedRefs. lia.
    + by apply sharedGood_insert.
Qed.

Lemma HeapInv_fresh_block g h cS cW :
  HeapInv g h cS cW -> g !! nextBlock h = None.
Proof.
  intros Hinv. destruct (g !! nextBlock h) eqn:E; [|done].
  apply (hi_g_lt _ _ _ _ Hinv) in E. lia.
Qed.

Lemma step_SMake g x w :
  WorldInvG g w ->
  step (SMake x) w = NotInScope \/
  exists w', stepsTo (SMake x) w w' /\ WorldInvFrom g w'.
Proof.
  intros (Hinv & HgS & HgW & HgO). unfold stepsTo, step. w_unfold.
  destruct (shared w !! x) eqn:Hx; [by left|]. right.
  pose proof (HeapInv_alloc _ _ _ _ Hinv) as Hinv'.
  pose proof (HeapInv_fresh_block _ _ _ _ Hinv) as Hfresh.
  unfold OwnedPtr.newOwned, SmartPtr.fromOwned, OwnedPtr.destructor.
  m_unfold. simpl.
  eexists. split; [split; [reflexivity|]|].
  - simpl. split; [apply size_insert_le|lia].
  - eapply WorldInv_make; [exact Hinv'| | | | |done|].
    + intros l. simpl. rewrite refs_insert, refs_fresh by done. done.
    + done.
    + apply sharedGood_insert.
      * intros y q Hy. apply good_alloc; eauto.
      * simpl. eexists. by rewrite lookup_insert_eq.
    + intros y q Hy. apply good_alloc; eauto.
    + by apply insert_subseteq.
Qed.

Lemma step_SAdopt g x w :
  WorldInvG g w -> roomFor 2 w ->
  step (SAdopt x) w = NotInScope \/
  exists w', stepsTo (SAdopt x) w w' /\ WorldInvFrom g w'.
Proof.
  intros (Hinv & HgS & HgW & HgO) Hroom. unfold stepsTo, step. w_unfold.
  destruct (shared w !! x) as [this|] eqn:Hx; [|by left]. right.
  pose proof (HeapInv_alloc _ _ _ _ Hinv) as Hinv1.
  pose proof (HeapInv_fresh_block _ _ _ _ Hinv) as Hfresh.
  set (l := nextBlock (heap w)) in *. set (o := nextObj (heap w)) in *.
  assert (SmartPtr.refcount this <> Some l) as Hne.
  { intros Hl. pose proof (HgS _ _ Hx) as Hg. unfold good in Hg.
    rewrite Hl in Hg. destruct Hg as (? & Hg & _). congruence. }
  destruct (reset2_ok _ _ _ _ this (Some o) (Some l) Hinv1)
    as (h2 & E2 & Hinv2).
  { apply good_alloc; eauto. }
  { intros l' Hl'. pose proof (refs_held _ _ _ _ l' Hx Hl').
    pose proof (ind_nonneg (Some l) l'). unfold sharedRefs. lia. }
  { intros l' [= <-]. rewrite ind_same.
    pose proof (refs_nonneg SmartPtr.refcount (shared w) l).
    pose proof (refs_le_size SmartPtr.refcount (shared w) l).
    destruct Hroom as [Hroom _]. unfold sharedRefs. lia. }
  destruct (dec_keep_ok _ _ _ _ l Hinv2) as (h3 & E3 & Hinv3).
  { rewrite ind_same, (ind_other _ l Hne).
    pose proof (refs_nonneg SmartPtr.refcount (shared w) l).
    unfold sharedRefs. lia. }
  unfold OwnedPtr.newOwned, SmartPtr.assignOwned, SmartPtr.reset,
    OwnedPtr.destructor.
  m_unfold. simpl.
  change (SmartPtr.reset2 this (Some (nextObj (heap w)))
            (Some (nextBlock (heap w))) _)
    with (SmartPtr.reset2 this (Some o) (Some l) (allocShared (heap w))).
  rewrite E2. cbn [SmartPtr.refcount SmartPtr.ptr fst snd].
  rewrite E3. simpl.
  eexists. split; [split; [reflexivity|]|].
  - simpl. split; [apply size_insert_le|lia].
  - eapply WorldInv_make; [exact Hinv3| | | | |done|].
    + intros l'. simpl. rewrite refs_insert. unfold sharedRefs.
      rewrite (refs_lookup _ _ _ _ l' Hx). simpl. lia.
    + done.
    + apply sharedGood_insert.
      * intros y q Hy. apply good_alloc; eauto.
      * simpl. eexists. by rewrite lookup_insert_eq.
    + intros y q Hy. apply good_alloc; eauto.
    + by apply insert_subseteq.
Qed.

Lemma step_SMove g x y w :
  WorldInvG g w ->
  step (SMove x y) w = NotInScope \/
  exists w', stepsTo (SMove x y) w w' /\ WorldInvFrom g w'.
Proof.
  intros (Hinv & HgS & HgW & HgO). unfold stepsTo, step. w_unfold.
  destruct (shared w !! x) eqn:Hx; [by left|].
  destruct (shared w !! y) as [other|] eqn:Hy; [|by left]. right.
  assert (x <> y) as Hxy by congruence.
  unfold SmartPtr.move. simpl.
  eexists. split; [split; [reflexivity|]|].
  - simpl. split; [|lia].
    rewrite map_size_insert, lookup_insert_ne, Hx by done.
    by rewrite (size_insert_present _ _ _ _ Hy).
  - eapply WorldInv_make; eauto.
    + intros l. simpl. unfold sharedRefs.
      rewrite refs_insert, refs_fresh by (by rewrite lookup_insert_ne).
      rewrite refs_insert, (refs_lookup _ _ _ _ l Hy). simpl.
      rewrite (ind_other None) by done. lia.
    + apply sharedGood_insert; [by apply sharedGood_insert|].
      simpl. eauto.
Qed.

Lemma step_SAssign g x y w :
  WorldInvG g w -> roomFor 2 w ->
  step (SAssign x y) w = NotInScope \/
  exists w', stepsTo (SAssign x y) w w' /\ WorldInvFrom g w'.
Proof.
  intros (Hinv & HgS & HgW & HgO) Hroom. unfold stepsTo, step. w_unfold.
  destruct (shared w !! x) as [this|] eqn:Hx; [|by left].
  destruct (shared w !! y) as [other|] eqn:Hy; [|by left]. right.
  destruct (reset2_ok _ _ _ _ this (SmartPtr.ptr other)
              (SmartPtr.refcount other) Hinv) as (h' & E & Hinv').
  { eauto. }
  { intros l Hl. by apply (refs_held _ _ x this). }
  { intros l Hl. split.
    - by apply (refs_held _ _ y other).
    - eapply sharedRefs_room; eauto. }
  unfold SmartPtr.assign. rewrite E. simpl.
  eexists. split; [split; [reflexivity|]|].
  - simpl. split; [apply size_insert_le|lia].
  - eapply WorldInv_make; eauto.
    + intros l. simpl. unfold sharedRefs.
      rewrite refs_insert, (refs_lookup _ _ _ _ l Hx). simpl. lia.
    + apply sharedGood_insert; [done|]. simpl. eauto.
Qed.

Lemma step_SMoveAssign g x y w :
  WorldInvG g w ->
  step (SMoveAssign x y) w = NotInScope \/
  exists w', stepsTo (SMoveAssign x y) w w' /\ WorldInvFrom g w'.
Proof.
  intros (Hinv & HgS & HgW & HgO). unfold stepsTo, step. w_unfold.
  destruct (shared w !! x) as [this0|] eqn:Hx; [|by left].
  destruct (shared w !! y) as [temp|] eqn:Hy; [|by left]. right.
  cbn [shared heap owned weaks].
  destruct (<[y := SmartPtr.empty]> (shared w) !! x) as [this|] eqn:Hx1.
  2:{ rewrite lookup_insert in Hx1. case_decide; congruence. }
  assert (good g (SmartPtr.ptr this) (SmartPtr.refcount this) /\
          forall l, SmartPtr.refcount this = Some l -> 1 <= sharedRefs w l)
    as [Hgood Hheld].
  { rewrite lookup_insert in Hx1. case_decide.
    - injection Hx1 as <-. done.
    - split; [eauto|]. intros l Hl. by apply (refs_held _ _ x this). }
  destruct (reset2_ok _ _ _ _ this None None Hinv) as (h' & E & Hinv');
    [done|done|done|].
  cbn [shared heap owned weaks]. rewrite E. cbn [shared heap owned weaks].
  eexists. split; [split; [reflexivity|]|].
  - simpl. split; [|lia].
    rewrite (size_insert_present _ _ _ _ Hx1).
    rewrite (size_insert_present _ _ _ _ Hy). lia.
  - eapply WorldInv_make; eauto.
    + intros l. simpl. unfold sharedRefs.
      rewrite refs_insert.
      pose proof (refs_lookup SmartPtr.refcount _ _ _ l Hx1) as E1.
      rewrite refs_insert in E1.
      rewrite (refs_lookup _ _ _ _ l Hy). simpl in *.
      rewrite (ind_other None) in * by done. lia.
    + apply sharedGood_insert; [by apply sharedGood_insert|].
      simpl. eauto.
Qed.

Lemma step_SClear g x w :
  WorldInvG g w ->
  step (SClear x) w = NotInScope \/
  exists w', stepsTo (SClear x) w w' /\ WorldInvFrom g w'.
Proof.
  intros (Hinv & HgS & HgW & HgO). unfold stepsTo, step. w_unfold.
  destruct (shared w !! x) as [this|] eqn:Hx; [|by left]. right.
  destruct (reset2_ok _ _ _ _ this None None Hinv) as (h' & E & Hinv').
  { eauto. }
  { intros l Hl. eapply refs_held; eauto. }
  { done. }
  unfold SmartPtr.clear, SmartPtr.reset. m_unfold. rewrite E. simpl.
  eexists. split; [split; [reflexivity|]|].
  - simpl. split; [apply size_insert_le|lia].
  - eapply WorldInv_make; eauto.
    + intros l. simpl. unfold sharedRefs.
      rewrite refs_insert, (refs_lookup _ _ _ _ l Hx). simpl.
      rewrite (ind_other None) by done. lia.
    + by apply sharedGood_insert.
Qed.

Lemma step_WEmpty g v w :
  WorldInvG g w ->
  step (WEmpty v) w = NotInScope \/
  exists w', stepsTo (WEmpty v) w w' /\ WorldInvFrom g w'.
Proof.
  intros (Hinv & HgS & HgW & HgO). unfold stepsTo, step. w_unfold.
  destruct (weaks w !! v) eqn:Hv; [by left|]. right.
  eexists. split; [split; [reflexivity|]|].
  - simpl. split; [lia|apply size_insert_le].
  - eapply WorldInv_make; eauto.
    + intros l. simpl. rewrite refs_insert, refs_fresh by done.
      simpl. rewrite ind_other by done. unfold weakRefs. lia.
    + by apply weakGood_insert.
Qed.

(** A weak reference is made to the block of a handle in scope. *)
Lemma weak_acquire g w v p r :
  HeapInv g (heap w) (sharedRefs w) (weakRefs w) ->
  sharedGood g (shared w) -> weakGood g (weaks w) -> ownedEmpty (owned w) ->
  roomFor 2 w ->
  weaks w !! v = None ->
  good g p r ->
  (forall l, r = Some l -> 1 <= sharedRefs w l \/ 1 <= weakRefs w l) ->
  exists h',
    RefcountOps.incWeak r (heap w) = Ok (tt, h') /\
    WorldInvFrom g (mkWorld h' (owned w) (shared w)
                     (<[v := WeakPtr.mk p r]> (weaks w))).
Proof.
  intros Hinv HgS HgW HgO Hroom Hv Hgood Hheld.
  destruct (incWeak_ok _ _ _ _ r Hinv) as (h' & E & Hinv').
  { intros l Hl. split; [eauto|]. eapply weakRefs_room; eauto. }
  { intros l. apply refs_nonneg. }
  exists h'. split; [done|].
  eapply WorldInv_make; eauto.
  - intros l. simpl. rewrite refs_insert, refs_fresh by done. done.
  - by apply weakGood_insert.
Qed.

Lemma step_WCopy g v u w :
  WorldInvG g w -> roomFor 2 w ->
  step (WCopy v u) w = NotInScope \/
  exists w', stepsTo (WCopy v u) w w' /\ WorldInvFrom g w'.
Proof.
  intros (Hinv & HgS & HgW & HgO) Hroom. unfold stepsTo, step. w_unfold.
  destruct (weaks w !! v) eqn:Hv; [by left|].
  destruct (weaks w !! u) as [other|] eqn:Hu; [|by left]. right.
  destruct (weak_acquire g w v (WeakPtr.ptr other) (WeakPtr.refcount other))
    as (h' & E & Hw'); eauto.
  { intros l Hl. right. by apply (refs_held _ _ u other). }
  unfold WeakPtr.copy. w_unfold. rewrite E.
  eexists. split; [split; [reflexivity|]|exact Hw'].
  simpl. split; [lia|apply size_insert_le].
Qed.

Lemma step_WFromShared g v x w :
  WorldInvG g w -> roomFor 2 w ->
  step (WFromShared v x) w = NotInScope \/
  exists w', stepsTo (WFromShared v x) w w' /\ WorldInvFrom g w'.
Proof.
  intros (Hinv & HgS & HgW & HgO) Hroom. unfold stepsTo, step. w_unfold.
  destruct (weaks w !! v) eqn:Hv; [by left|].
  destruct (shared w !! x) as [other|] eqn:Hx; [|by left]. right.
  destruct (weak_acquire g w v (SmartPtr.ptr other) (SmartPtr.refcount other))
    as (h' & E & Hw'); eauto.
  { intros l Hl. left. by apply (refs_held _ _ x other). }
  unfold WeakPtr.fromShared. w_unfold. rewrite E.
  eexists. split; [split; [reflexivity|]|exact Hw'].
  simpl. split; [lia|apply size_insert_le].
Qed.

(** A weak reference in scope is pointed at the block of a handle in
    scope, or at nothing. *)
Lemma weak_assign g w v this p r :
  HeapInv g (heap w) (sharedRefs w) (weakRefs w) ->
  sharedGood g (shared w) -> weakGood g (weaks w) -> ownedEmpty (owned w) ->
  roomFor 2 w ->
  weaks w !! v = Some this ->
  good g p r ->
  (forall l, r = Some l -> 1 <= sharedRefs w l \/ 1 <= weakRefs w l) ->
  exists h',
    WeakPtr.assignFields this p r (heap w) = Ok (WeakPtr.mk p r, h') /\
    WorldInvFrom g (mkWorld h' (owned w) (shared w)
                     (<[v := WeakPtr.mk p r]> (weaks w))).
Proof.
  intros Hinv HgS HgW HgO Hroom Hv Hgood Hheld.
  destruct (incWeak_ok _ _ _ _ r Hinv) as (h1 & E1 & Hinv1).
  { intros l Hl. split; [eauto|]. eapply weakRefs_room; eauto. }
  { intros l. apply refs_nonneg. }
  destruct (decWeak_ok _ _ _ _ (WeakPtr.refcount this) Hinv1)
    as (h2 & E2 & Hinv2).
  { intros l Hl. pose proof (refs_held _ _ _ _ l Hv Hl).
    pose proof (ind_nonneg r l). unfold weakRefs. lia. }
  exists h2. split.
  - unfold WeakPtr.assignFields. w_unfold. by rewrite E1, E2.
  - eapply WorldInv_make; eauto.
    + intros l. simpl. unfold weakRefs.
      rewrite refs_insert, (refs_lookup _ _ _ _ l Hv). simpl. lia.
    + by apply weakGood_insert.
Qed.

Lemma step_WAssign g v u w :
  WorldInvG g w -> roomFor 2 w ->
  step (WAssign v u) w = NotInScope \/
  exists w', stepsTo (WAssign v u) w w' /\ WorldInvFrom g w'.
Proof.
  intros (Hinv & HgS & HgW & HgO) Hroom. unfold stepsTo, step. w_unfold.
  destruct (weaks w !! v) as [this|] eqn:Hv; [|by left].
  destruct (weaks w !! u) as [other|] eqn:Hu; [|by left]. right.
  destruct (weak_assign g w v this (WeakPtr.ptr other)
              (WeakPtr.refcount other)) as (h' & E & Hw'); eauto.
  { intros l Hl. right. by apply (refs_held _ _ u other). }
  unfold WeakPtr.assign. rewrite E.
  eexists. split; [split; [reflexivity|]|exact Hw'].
  simpl. split; [lia|apply size_insert_le].
Qed.

Lemma step_WAssignShared g v x w :
  WorldInvG g w -> roomFor 2 w ->
  step (WAssignShared v x) w = NotInScope \/
  exists w', stepsTo (WAssignShared v x) w w' /\ WorldInvFrom g w'.
Proof.
  intros (Hinv & HgS & HgW & HgO) Hroom. unfold stepsTo, step. w_unfold.
  destruct (weaks w !! v) as [this|] eqn:Hv; [|by left].
  destruct (shared w !! x) as [other|] eqn:Hx; [|by left]. right.
  destruct (weak_assign g w v this (SmartPtr.ptr other)
              (SmartPtr.refcount other)) as (h' & E & Hw'); eauto.
  { intros l Hl. left. by apply (refs_held _ _ x other). }
  unfold WeakPtr.assignShared. rewrite E.
  eexists. split; [split; [reflexivity|]|exact Hw'].
  simpl. split; [lia|apply size_insert_le].
Qed.

Lemma step_WAssignNull g v w :
  WorldInvG g w ->
  step (WAssignNull v) w = NotInScope \/
  exists w', stepsTo (WAssignNull v) w w' /\ WorldInvFrom g w'.
Proof.
  intros (Hinv & HgS & HgW & HgO). unfold stepsTo, step. w_unfold.
  destruct (weaks w !! v) as [this|] eqn:Hv; [|by left]. right.
  destruct (decWeak_ok _ _ _ _ (WeakPtr.refcount this) Hinv)
    as (h' & E & Hinv').
  { intros l Hl. by apply (refs_held _ _ v this). }
  unfold WeakPtr.assignNull. w_unfold. rewrite E.
  eexists. split; [split; [reflexivity|]|].
  - simpl. split; [lia|apply size_insert_le].
  - eapply WorldInv_make; eauto.
    + intros l. simpl. unfold weakRefs.
      rewrite refs_insert, (refs_lookup _ _ _ _ l Hv). simpl.
      rewrite (ind_other None) by done. lia.
    + by apply weakGood_insert.
Qed.

Lemma step_WDestroy g v w :
  WorldInvG g w ->
  step (WDestroy v) w = NotInScope \/
  exists w', stepsTo (WDestroy v) w w' /\ WorldInvFrom g w'.
Proof.
  intros (Hinv & HgS & HgW & HgO). unfold stepsTo, step. w_unfold.
  destruct (weaks w !! v) as [this|] eqn:Hv; [|by left]. right.
  destruct (decWeak_ok _ _ _ _ (WeakPtr.refcount this) Hinv)
    as (h' & E & Hinv').
  { intros l Hl. by apply (refs_held _ _ v this). }
  unfold WeakPtr.destructor. rewrite E.
  eexists. split; [split; [reflexivity|]|].
  - simpl. split; [lia|apply size_delete_le].
  - eapply WorldInv_make; eauto.
    + intros l. simpl. unfold weakRefs.
      rewrite (refs_lookup _ _ _ _ l Hv). lia.
    + by apply weakGood_delete.
Qed.

(** What the upgrade of a weak reference in scope returns: the weak
    reference's fields if some shared handle holds its block, and an empty
    handle otherwise. *)
Lemma upgrade_ok g w v this :
  HeapInv g (heap w) (sharedRefs w) (weakRefs w) ->
  roomFor 2 w ->
  weaks w !! v = Some this ->
  exists h',
    WeakPtr.upgrade this (heap w)
    = Ok (match WeakPtr.refcount this with
          | Some l =>
              if 0 <? sharedRefs w l
              then SmartPtr.mk (WeakPtr.ptr this) (Some l)
              else SmartPtr.empty
          | None => SmartPtr.empty
          end, h') /\
    HeapInv g h'
      (fun l' => sharedRefs w l'
                 + match WeakPtr.refcount this with
                   | Some l => if 0 <? sharedRefs w l
                               then ind (Some l) l' else 0
                   | None => 0
                   end)
      (weakRefs w) /\
    (match WeakPtr.refcount this with
     | Some l => 0 <? sharedRefs w l
     | None => false
     end = false -> h' = heap w).
Proof.
  intros Hinv Hroom Hv. unfold WeakPtr.upgrade.
  destruct (WeakPtr.refcount this) as [l|] eqn:Hl.
  - rewrite (bind_Ok _ _ _ _ _ (isLive_ok _ _ _ _ l Hinv
               (or_intror (refs_held _ _ _ _ l Hv Hl)))).
    destruct (Z.ltb_spec 0 (sharedRefs w l)).
    + destruct (reset2_ok _ _ _ _ SmartPtr.empty (WeakPtr.ptr this) (Some l)
                  Hinv) as (h' & E & Hinv'); [done|done| |].
      { intros ? [= <-]. split; [lia|]. eapply sharedRefs_room; eauto. }
      exists h'. split; [done|]. split; [|done]. eapply HeapInv_ext; eauto.
      intros l'. simpl. rewrite (ind_other None) by done. lia.
    + exists (heap w). split; [done|]. split; [|done].
      eapply HeapInv_ext; eauto. intros l'. lia.
  - exists (heap w). split; [done|]. split; [|done].
    eapply HeapInv_ext; eauto. intros l'. lia.
Qed.

Lemma step_Upgrade g x v w :
  WorldInvG g w -> roomFor 2 w ->
  step (Upgrade x v) w = NotInScope \/
  exists w', stepsTo (Upgrade x v) w w' /\ WorldInvFrom g w'.
Proof.
  intros (Hinv & HgS & HgW & HgO) Hroom. unfold stepsTo, step. w_unfold.
  destruct (shared w !! x) eqn:Hx; [by left|].
  destruct (weaks w !! v) as [this|] eqn:Hv; [|by left]. right.
  destruct (upgrade_ok g w v this Hinv Hroom Hv) as (h' & E & Hinv' & _).
  rewrite E.
  eexists. split; [split; [reflexivity|]|].
  - simpl. split; [apply size_insert_le|lia].
  - eapply WorldInv_make; eauto.
    + intros l'. simpl. rewrite refs_insert, refs_fresh by done.
      unfold sharedRefs.
      destruct (WeakPtr.refcount this) as [l|]; simpl.
      * destruct (0 <? _); simpl; [done|].
        rewrite (ind_other None) by done. done.
      * rewrite (ind_other None) by done. done.
    + apply sharedGood_insert; [done|].
      pose proof (HgW _ _ Hv) as Hg. unfold good in Hg.
      destruct (WeakPtr.refcount this) as [l|]; [|done].
      by destruct (0 <? _).
Qed.

Lemma step_ok g st w :
  WorldInvG g w -> roomFor 2 w -> isRelease st = false ->
  step st w = NotInScope \/
  exists w', stepsTo st w w' /\ WorldInvFrom g w'.
Proof.
  intros Hw Hroom Hst. destruct st; try discriminate Hst;
    eauto using step_OEmpty, step_ODestroy, step_SEmpty, step_SMake,
      step_SAdopt, step_SCopy, step_SMove, step_SAssign, step_SMoveAssign,
      step_SClear, step_SDestroy, step_WEmpty, step_WCopy, step_WFromShared,
      step_WAssign, step_WAssignShared, step_WAssignNull, step_WDestroy,
      step_Upgrade.
Qed.

Lemma exec_cons st rest w :
  exec (st :: rest) w
  = match step st w with
    | Ok (_, w') => exec rest w'
    | Undefined => Undefined
    | NotInScope => NotInScope
    end.
Proof.
  unfold exec. simpl. unfold bind. by destruct (step st w) as [[[] ?]| |].
Qed.

(** A program without release-to-exclusive has no undefined behaviour and
    keeps the invariant, for a pairing that only grows. *)
Lemma exec_ok prog :
  forall g w,
    releaseFree prog = true ->
    WorldInvG g w -> roomFor (S (length prog)) w ->
    exec prog w = NotInScope \/
    exists w', exec prog w = Ok w' /\ WorldInvFrom g w' /\
               (size (shared w') <= size (shared w) + length prog)%nat /\
               (size (weaks w') <= size (weaks w) + length prog)%nat.
Proof.
  induction prog as [|st rest IH]; intros g w Hfree Hw Hroom.
  - right. exists w. split; [done|]. split; [by exists g|]. simpl. lia.
  - simpl in Hfree. apply andb_true_iff in Hfree as [Hst Hfree].
    apply negb_true_iff in Hst. rewrite exec_cons.
    destruct (step_ok g st w Hw) as [->|(w1 & (E & Hs1 & Hs2) & g1 & Hsub & Hw1)];
      [|done|by left|].
    { destruct Hroom as [H1 H2]. simpl in *. split; lia. }
    rewrite E.
    destruct (IH g1 w1 Hfree Hw1) as [->|(w' & E' & (g' & Hsub' & Hw') & Hs1' & Hs2')];
      [|by left|].
    { destruct Hroom as [H1 H2]. simpl length in *. split; lia. }
    right. exists w'. split; [done|]. split.
    + exists g'. split; [by etransitivity|done].
    + simpl. lia.
Qed.

Lemma WorldInvG_empty : WorldInvG ∅ emptyWorld.
Proof.
  assert (forall {A} (rc : A -> option loc) l, refs rc ∅ l = 0) as Hrefs.
  { intros A rc l. unfold refs. by rewrite map_filter_empty, map_size_empty. }
  split; [|done]. split.
  - intros l. unfold sharedRefs. simpl. by rewrite Hrefs.
  - intros l. unfold weakRefs. simpl. by rewrite Hrefs.
  - intros l [b Hb]. simpl in Hb. by rewrite lookup_empty in Hb.
  - intros l l' o Hl. by rewrite lookup_empty in Hl.
  - intros l o Hl. by rewrite lookup_empty in Hl.
  - intros o Ho. simpl in Ho. lia.
  - simpl. constructor.
  - intros o Ho. by apply elem_of_nil in Ho.
  - intros l o Hl. by rewrite lookup_empty in Hl.
  - intros l b Hl. by apply elem_of_nil in Hl.
Qed.

Lemma roomFor_empty prog : fits prog -> roomFor (S (length prog)) emptyWorld.
Proof. unfold fits, roomFor. simpl. rewrite !map_size_empty. lia. Qed.

Lemma refs_pos_inv {A} (rc : A -> option loc) (m : gmap var A) l :
  0 < refs rc m l -> exists x p, m !! x = Some p /\ rc p = Some l.
Proof.
  unfold refs. intros Hpos.
  destruct (map_choose (filter (fun kv => rc kv.2 = Some l) m))
    as (x & p & Hxp).
  { apply map_size_non_empty_iff. lia. }
  apply map_lookup_filter_Some in Hxp as [Hx Hp]. eauto.
Qed.

(** What the invariant says about a holder and about the objects. *)
Lemma WorldInvG_holder g w x p l :
  WorldInvG g w -> shared w !! x = Some p -> SmartPtr.refcount p = Some l ->
  exists o, g !! l = Some o /\ SmartPtr.ptr p = Some o /\
            (o ∉ destroyed (heap w)) /\ 0 < strongOf (heap w) l.
Proof.
  intros (Hinv & HgS & _) Hx Hl.
  pose proof (HgS _ _ Hx) as Hg. unfold good in Hg. rewrite Hl in Hg.
  destruct Hg as (o & Hg & Hp). exists o.
  pose proof (refs_held _ _ _ _ l Hx Hl) as Hheld.
  pose proof (hi_strong _ _ _ _ Hinv l) as HS. unfold sharedRefs in HS.
  split; [done|]. split; [done|]. split; [|lia].
  rewrite (hi_destroyed _ _ _ _ Hinv _ _ Hg). lia.
Qed.

Lemma WorldInvG_destroyed_iff_no_holder g w o :
  WorldInvG g w -> (o < nextObj (heap w))%nat ->
  (o ∈ destroyed (heap w) <-> ~ hasHolder w o).
Proof.
  intros Hw Ho. pose proof Hw as (Hinv & HgS & _).
  destruct (hi_g_all _ _ _ _ Hinv o Ho) as (l & Hg).
  rewrite (hi_destroyed _ _ _ _ Hinv _ _ Hg).
  rewrite (hi_strong _ _ _ _ Hinv l). split.
  - intros Hz (x & p & Hx & Hp).
    pose proof (HgS _ _ Hx) as Hgood. unfold good in Hgood.
    destruct (SmartPtr.refcount p) as [l'|] eqn:Hl'; [|congruence].
    destruct Hgood as (o' & Hg' & Hp').
    assert (l' = l).
    { apply (hi_g_inj _ _ _ _ Hinv l' l o); congruence. }
    subst l'. by apply (refs_zero _ _ _ _ _ Hz Hx).
  - intros Hno.
    destruct (Z.eq_dec (sharedRefs w l) 0) as [|Hne]; [done|].
    exfalso. apply Hno.
    destruct (refs_pos_inv SmartPtr.refcount (shared w) l) as (x & p & Hx & Hl).
    { pose proof (refs_nonneg SmartPtr.refcount (shared w) l).
      unfold sharedRefs in Hne. lia. }
    destruct (WorldInvG_holder _ _ _ _ _ Hw Hx Hl) as (o' & Hg' & Hp & _).
    exists x, p. split; [done|]. congruence.
Qed.

(** C4, as the specification states it, fails for release-to-exclusive:
    released by its sole holder, the strong counter of block 0 goes from
    one to zero and object 0 is not destroyed. *)
Lemma C4_release_reaches_zero_without_destroying :
  ~ destroyedWhenStrongReachesZero (SRelease 0%nat 0%nat) soleHolder
      0%nat 0%nat.
Proof.
  intros Hd. unfold destroyedWhenStrongReachesZero in Hd.
  remember (exec [SRelease 0%nat 0%nat] soleHolder) as r eqn:E.
  vm_compute in E. subst r. specialize (Hd _ eq_refl).
  vm_compute in Hd. specialize (Hd eq_refl eq_refl). inversion Hd.
Qed.

(** C4 (amended): a program of shared-handle and weak-reference
    operations other than release-to-exclusive (make, adopt, copy, move,
    assign, move-assign, clear, destroy; weak copy, assign, reset,
    destroy, upgrade), run from nothing and short enough for the [int]
    counters, has no undefined behaviour.  In the world it reaches, no
    object is destroyed twice; an object is destroyed exactly if no shared
    handle holds it; the strong and weak counter of every block equal the
    numbers of shared handles and weak references pointing at it; every
    block that was freed had both counters at zero when it was freed, and
    a block with a weak reference is still allocated.  An object that a
    shared handle holds is not destroyed and its strong counter is
    positive; and after any further such operations it is destroyed
    exactly if the strong counter of its block is zero.  Release to
    exclusive by the sole holder is the exception: it brings the strong
    counter to zero and destroys nothing, the object going to the
    exclusive handle and the shared handle giving up its pointer. *)
Theorem C4_shared_object_destroyed_once_when_strong_reaches_zero :
  (forall prog,
     releaseFree prog = true -> fits prog ->
     exec prog emptyWorld <> Undefined) /\
  (forall prog w,
     releaseFree prog = true -> fits prog ->
     exec prog emptyWorld = Ok w ->
     NoDup (destroyed (heap w)) /\
     (forall o, (o < nextObj (heap w))%nat ->
        (o ∈ destroyed (heap w) <-> ~ hasHolder w o)) /\
     (forall l, strongOf (heap w) l = sharedRefs w l /\
                weakOf (heap w) l = weakRefs w l) /\
     (forall l b, (l, b) ∈ freed (heap w) ->
        Refcount.strong b = 0 /\ Refcount.weak b = 0) /\
     (forall v p l, weaks w !! v = Some p -> WeakPtr.refcount p = Some l ->
        is_Some (blocks (heap w) !! l)) /\
     (forall x p l, shared w !! x = Some p -> SmartPtr.refcount p = Some l ->
        exists o,
          SmartPtr.ptr p = Some o /\
          (o ∉ destroyed (heap w)) /\ 0 < strongOf (heap w) l /\
          forall more w',
            releaseFree more = true -> fits (prog ++ more) ->
            exec more w = Ok w' ->
            (o ∈ destroyed (heap w') <-> strongOf (heap w') l = 0))) /\
  (forall this h l b,
     SmartPtr.refcount this = Some l ->
     blocks h !! l = Some b ->
     Refcount.strong b = 1 ->
     exists this' h',
       SmartPtr.release this OwnedPtr.empty h
       = Ok ((true, this', OwnedPtr.mk (SmartPtr.ptr this)), h') /\
       SmartPtr.ptr this' = None /\
       strongOf h' l = 0 /\ destroyed h' = destroyed h).
Proof.
  split; [|split].
  - intros prog Hfree Hfits.
    destruct (exec_ok prog ∅ emptyWorld Hfree WorldInvG_empty
                (roomFor_empty _ Hfits)) as [->|(w & -> & _)]; done.
  - intros prog w Hfree Hfits Hexec.
    destruct (exec_ok prog ∅ emptyWorld Hfree WorldInvG_empty
                (roomFor_empty _ Hfits))
      as [E|(w0 & E & (g & _ & Hw) & Hs1 & Hs2)]; [congruence|].
    assert (w0 = w) as -> by congruence. clear E.
    pose proof Hw as (Hinv & HgS & HgW & _).
    split; [apply (hi_nodup _ _ _ _ Hinv)|].
    split; [intros o; by apply (WorldInvG_destroyed_iff_no_holder g)|].
    split.
    { intros l. split;
        [apply (hi_strong _ _ _ _ Hinv)|apply (hi_weak _ _ _ _ Hinv)]. }
    split; [apply (hi_freed _ _ _ _ Hinv)|].
    split.
    { intros v p l Hv Hl.
      destruct (HeapInv_block _ _ _ _ l Hinv) as (b & Hb & _); [|by exists b].
      right. pose proof (refs_held _ _ _ _ l Hv Hl). unfold weakRefs. lia. }
    intros x p l Hx Hl.
    destruct (WorldInvG_holder _ _ _ _ _ Hw Hx Hl) as (o & Hg & Hp & Hnd & Hpos).
    exists o. split; [done|]. split; [done|]. split; [done|].
    intros more w' Hfree' Hfits' Hexec'.
    destruct (exec_ok more g w Hfree' Hw)
      as [E|(w1 & E & (g' & Hsub & Hw') & _)]; [|congruence|].
    { unfold fits in Hfits'. rewrite length_app in Hfits'.
      unfold emptyWorld in Hs1, Hs2. cbn [shared weaks] in Hs1, Hs2.
      rewrite map_size_empty in Hs1. rewrite map_size_empty in Hs2.
      unfold roomFor. lia. }
    assert (w1 = w') as -> by congruence.
    destruct Hw' as (Hinv' & _).
    apply (hi_destroyed _ _ _ _ Hinv').
    by apply (lookup_weaken g).
  - intros this h l b Hl Hb H1.
    rewrite (release_spec this OwnedPtr.empty h l b Hl Hb).
    rewrite H1. simpl.
    destruct (Refcount.weak b =? 0); m_unfold; unfold withBlock; simpl.
    + rewrite lookup_insert_eq. eexists _, _. split; [reflexivity|].
      split; [done|].
      split; [|done]. unfold strongOf. simpl. by rewrite lookup_delete_eq.
    + eexists _, _. split; [reflexivity|]. split; [done|].
      split; [|done]. unfold strongOf. simpl. by rewrite lookup_insert_eq.
Qed.

Lemma C4_witness :
  releaseFree sharedAndWeak = true /\ fits sharedAndWeak /\
  exec sharedAndWeak emptyWorld <> Undefined /\
  endsWith sharedAndWeak emptyWorld (fun w => NoDup (destroyed (heap w))).
Proof.
  assert (fits sharedAndWeak) as Hfits by reflexivity.
  split; [reflexivity|]. split; [exact Hfits|]. split.
  - exact (proj1 C4_shared_object_destroyed_once_when_strong_reaches_zero
             sharedAndWeak eq_refl Hfits).
  - unfold endsWith.
    pose proof (proj1 (proj2
      C4_shared_object_destroyed_once_when_strong_reaches_zero)
      sharedAndWeak) as Hw.
    destruct (exec sharedAndWeak emptyWorld) as [w| |] eqn:E.
    + exact (proj1 (Hw w eq_refl Hfits eq_refl)).
    + vm_compute in E. discriminate E.
    + vm_compute in E. discriminate E.
Defined.

(** ** Weak references *)

(** What an upgrade does.  Upgrading an empty weak reference yields an
    empty shared handle.  Upgrading a weak reference to an allocated block
    yields a shared handle with the weak reference's object and block, and
    one more strong count, exactly when the strong counter is above zero
    at that moment, and an empty handle with the heap untouched when the
    counter is zero.  In a program without release-to-exclusive the
    counter is above zero exactly while some shared handle holds the
    block: then the upgrade yields the object, which is not destroyed;
    once every strong holder has dropped, the upgrade yields an empty
    handle, and the object is destroyed. *)
Lemma upgrade_spec :
  (forall this h,
     WeakPtr.refcount this = None ->
     WeakPtr.upgrade this h = Ok (SmartPtr.empty, h)) /\
  (forall this h l b,
     WeakPtr.refcount this = Some l ->
     blocks h !! l = Some b ->
     Refcount.strong b < INT_MAX ->
     WeakPtr.upgrade this h
     = if 0 <? Refcount.strong b
       then Ok (SmartPtr.mk (WeakPtr.ptr this) (Some l),
                withBlock l (Refcount.mk (Refcount.strong b + 1)
                               (Refcount.weak b)) h)
       else Ok (SmartPtr.empty, h)) /\
  (forall prog w v this,
     releaseFree prog = true ->
     Z.of_nat (length prog) + 1 < INT_MAX ->
     exec prog emptyWorld = Ok w ->
     weaks w !! v = Some this ->
     exists result h',
       WeakPtr.upgrade this (heap w) = Ok (result, h') /\
       (hasStrongHolder w this ->
          result = SmartPtr.mk (WeakPtr.ptr this) (WeakPtr.refcount this) /\
          exists o, WeakPtr.ptr this = Some o /\ (o ∉ destroyed (heap w))) /\
       (~ hasStrongHolder w this ->
          result = SmartPtr.empty /\ h' = heap w /\
          forall o, WeakPtr.ptr this = Some o -> o ∈ destroyed (heap w))).
Proof.
  split; [|split].
  - intros this h E. unfold WeakPtr.upgrade. by rewrite E.
  - intros this h l b E Hb Hmax. unfold WeakPtr.upgrade. rewrite E.
    unfold RefcountOps.isLive. m_unfold. rewrite Hb. simpl.
    destruct (0 <? Refcount.strong b); [|done].
    unfold SmartPtr.reset2, RefcountOps.inc. m_unfold. rewrite Hb.
    destruct (Z.eqb_spec (Refcount.strong b) INT_MAX); [lia|].
    rewrite Hb. done.
  - intros prog w v this Hfree Hfits Hexec Hv.
    destruct (exec_ok prog ∅ emptyWorld Hfree WorldInvG_empty)
      as [E|(w0 & E & (g & _ & Hw) & Hs1 & Hs2)]; [|congruence|].
    { apply roomFor_empty. unfold fits. lia. }
    assert (w0 = w) as -> by congruence. clear E.
    unfold emptyWorld in Hs1, Hs2. cbn [shared weaks] in Hs1, Hs2.
    rewrite map_size_empty in Hs1. rewrite map_size_empty in Hs2.
    pose proof Hw as (Hinv & HgS & HgW & _).
    destruct (upgrade_ok g w v this Hinv) as (h' & E & _ & Hsame); [|done|].
    { unfold roomFor. lia. }
    eexists _, h'. split; [exact E|].
    pose proof (HgW _ _ Hv) as Hgood. unfold good in Hgood.
    split.
    + intros (x & p & l & Hx & Hl & Hl').
      rewrite Hl' in *. destruct Hgood as (o & Hg & Hp).
      pose proof (refs_held _ _ _ _ l Hx Hl) as Hheld.
      destruct (Z.ltb_spec 0 (sharedRefs w l));
        [|unfold sharedRefs in *; lia].
      split; [done|]. exists o. split; [done|].
      destruct (WorldInvG_holder _ _ _ _ _ Hw Hx Hl) as (o' & Hg' & _ & Hn & _).
      congruence.
    + intros Hno.
      destruct (WeakPtr.refcount this) as [l|] eqn:Hl.
      * destruct Hgood as (o & Hg & Hp).
        assert (sharedRefs w l = 0) as Hz.
        { destruct (Z.eq_dec (sharedRefs w l) 0) as [|Hne]; [done|].
          exfalso. apply Hno.
          destruct (refs_pos_inv SmartPtr.refcount (shared w) l)
            as (x & p & Hx & Hp').
          { pose proof (refs_nonneg SmartPtr.refcount (shared w) l).
            unfold sharedRefs in Hne. lia. }
          by exists x, p, l. }
        rewrite Hz in *. simpl in *.
        split; [done|]. split; [by apply Hsame|].
        intros o' Ho'. assert (o' = o) as -> by congruence.
        apply (hi_destroyed _ _ _ _ Hinv _ _ Hg).
        by rewrite (hi_strong _ _ _ _ Hinv).
      * split; [done|]. split; [by apply Hsame|].
        intros o Ho. congruence.
Qed.

Lemma upgrade_spec_witness :
  WeakPtr.upgrade (WeakPtr.mk (Some 0%nat) (Some 0%nat))
    (withBlock 0%nat (Refcount.mk 1 1) emptyHeap)
  = Ok (SmartPtr.mk (Some 0%nat) (Some 0%nat),
        withBlock 0%nat (Refcount.mk 2 1)
          (withBlock 0%nat (Refcount.mk 1 1) emptyHeap)).
Proof.
  apply (proj1 (proj2 upgrade_spec)
           (WeakPtr.mk (Some 0%nat) (Some 0%nat))
           (withBlock 0%nat (Refcount.mk 1 1) emptyHeap)
           0%nat (Refcount.mk 1 1)).
  - reflexivity.
  - reflexivity.
  - reflexivity.
Defined.

(** C6, at the failing input: a shared handle with a weak reference is
    released into an exclusive handle, the exclusive handle goes out of
    scope and deletes the object, and the released handle, which still
    points at the refcount block, is copied.  The copy raises the strong
    counter from zero to one.  At that moment the strong counter is above
    zero and the object is destroyed, and the upgrade of the weak
    reference yields a non-empty shared handle to the destroyed object,
    with the strong counter at two. *)
Theorem C6_upgrade_yields_destroyed_object :
  endsWith releaseToExclusive emptyWorld (fun w1 =>
    owned w1 !! 0%nat = Some (OwnedPtr.mk (Some 0%nat)) /\
    strongOf (heap w1) 0%nat = 0 /\
    endsWith dropOwnerThenCopy w1 (fun w2 =>
      destroyed (heap w2) = [0%nat] /\
      weaks w2 !! 0%nat = Some (WeakPtr.mk (Some 0%nat) (Some 0%nat)) /\
      shared w2 !! 1%nat = Some (SmartPtr.mk None (Some 0%nat)) /\
      strongOf (heap w2) 0%nat = 1 /\
      WeakPtr.upgrade (WeakPtr.mk (Some 0%nat) (Some 0%nat)) (heap w2)
      = Ok (SmartPtr.mk (Some 0%nat) (Some 0%nat),
            withBlock 0%nat (Refcount.mk 2 1) (heap w2)) /\
      endsWith [Upgrade 2%nat 0%nat] w2 (fun w3 =>
        shared w3 !! 2%nat = Some (SmartPtr.mk (Some 0%nat) (Some 0%nat)) /\
        strongOf (heap w3) 0%nat = 2 /\
        destroyed (heap w3) = [0%nat]))).
Proof. vm_compute. repeat split. Qed.

End OwnershipProofs.

(* ===================================================================== *)
(** * Further properties of the process manager *)
(* ===================================================================== *)

Module ExtraSubprocessProofs.
Import Subprocess SubprocessSpec SubprocessProofs ExtraSubprocessSpec.

(** ** Completion, whatever the notifications *)

Lemma maybeCall_once cb s log s' log' :
  maybeCallFinalCallback (s, log) = Some (s', log') ->
  (log = [] /\ finalCallback s = Some cb) \/
  (length log = 1%nat /\ finalCallback s = None) ->
  (log' = [] /\ finalCallback s' = Some cb) \/
  (length log' = 1%nat /\ finalCallback s' = None).
Proof.
  unfold maybeCallFinalCallback.
  destruct (pipeCount s =? 0); [|intros [= <- <-]; tauto].
  destruct (state s); try (intros [= <- <-]; tauto);
    (destruct (finalCallback s) as [cb'|] eqn:Hcb; [|done]);
    intros [= <- <-] [[-> _]|[_ ?]]; try done; right; done.
Qed.

Lemma notify_once cb n w w' :
  notify n w = Some w' ->
  (snd w = [] /\ finalCallback (fst w) = Some cb) \/
  (length (snd w) = 1%nat /\ finalCallback (fst w) = None) ->
  (snd w' = [] /\ finalCallback (fst w') = Some cb) \/
  (length (snd w') = 1%nat /\ finalCallback (fst w') = None).
Proof.
  destruct w as [s log], w' as [s' log'].
  destruct n; simpl; unfold pipeDone, exited, signaled, done;
    intros Hn Hw; by apply (maybeCall_once cb _ _ _ _ Hn).
Qed.

(** X1: whatever notifications a started manager receives, in any number
    and order, the completion callback is called at most once, and the
    manager holds the callback exactly as long as it has not called it.
    After a complete run another exit notification is not answered by a
    second call: it fails the assertion on the empty callback handle. *)
Theorem callback_called_at_most_once cfg forkResult errno cb s :
  start forkResult errno cb (configure cfg new) = InParent s ->
  (forall ns s' log,
     notifyAll ns (s, []) = Some (s', log) ->
     (log = [] /\ finalCallback s' = Some cb) \/
     (length log = 1%nat /\ finalCallback s' = None)) /\
  (forall e ns again,
     oneRun s e ns -> isExitNotification again = true ->
     notifyAll (ns ++ [again]) (s, []) = None).
Proof.
  intros Hstart. destruct (started _ _ _ _ _ Hstart) as (Hst & Hcb & Hpc).
  split.
  - intros ns.
    assert (forall w w',
              notifyAll ns w = Some w' ->
              (snd w = [] /\ finalCallback (fst w) = Some cb) \/
              (length (snd w) = 1%nat /\ finalCallback (fst w) = None) ->
              (snd w' = [] /\ finalCallback (fst w') = Some cb) \/
              (length (snd w') = 1%nat /\ finalCallback (fst w') = None))
      as Hall.
    { induction ns as [|n ns IH]; intros w w'; simpl.
      - by intros [= <-].
      - destruct (notify n w) as [w1|] eqn:E; [|done].
        intros Hrest Hw. apply (IH _ _ Hrest).
        by apply (notify_once cb n w). }
    intros s' log Hn. apply (Hall _ _ Hn). left. done.
  - intros e ns again Hrun Hagain.
    rewrite notifyAll_app.
    rewrite (notifyAll_whole_run _ _ _ _ _ _ _ Hstart Hrun).
    destruct e; try (by destruct Hrun); by destruct again.
Qed.

Lemma callback_called_at_most_once_witness :
  notifyAll ([PipeDrained; ProcessExited 0] ++ [ProcessExited 0])
    (startParent 42 7%nat
       (configure [Capture (CaptureStdout (mkPipe (Some 3%nat) 4%nat))] new),
     [])
  = None.
Proof.
  refine (proj2 (callback_called_at_most_once
            [Capture (CaptureStdout (mkPipe (Some 3%nat) 4%nat))]
            42 0 7%nat _ eq_refl)
            (ProcessExited 0) [PipeDrained; ProcessExited 0]
            (ProcessExited 0) _ eq_refl).
  split; [reflexivity|]. simpl. apply Permutation_refl.
Defined.

(** ** What the manager holds while the child runs *)

Lemma configure_before_start cs :
  let s := configure cs new in
  pid s = -1 /\ canceler s = None /\ state s = NOT_STARTED /\
  finalCallback s = None.
Proof.
  induction cs as [|c cs IH] using rev_ind; [done|].
  rewrite configure_snoc. by destruct c as [| |[]].
Qed.

Lemma state_during_run cfg forkResult errno cb s e ns :
  start forkResult errno cb (configure cfg new) = InParent s ->
  oneRun s e ns ->
  forall pre post, ns = pre ++ post ->
    exists s' log,
      notifyAll pre (s, []) = Some (s', log) /\
      if decide (exits pre = [])
      then state s' = RUNNING /\ diskRefs s' = fileRefs cfg /\
           pid s' = forkResult /\
           canceler s' = Some (mkCanceler forkResult)
      else state s' = stateFor e /\
           exitStatusOrSignalNumber s' = valueFor e /\
           diskRefs s' = [] /\ pid s' = -1 /\ canceler s' = None.
Proof.
  intros Hstart Hrun pre post ->.
  destruct (started _ _ _ _ _ Hstart) as (Hst & Hcb & Hpc).
  pose proof (partOfRun_prefix _ _ _ _ Hrun) as Hpre.
  rewrite (notifyAll_reached s cb _ e pre Hst Hcb Hpc Hpre).
  apply start_parent in Hstart as [_ ->].
  destruct Hpre as [_ [He|He]]; unfold reached; rewrite He.
  - eexists _, _. split; [reflexivity|]. rewrite decide_True by done.
    simpl. rewrite configure_diskRefs. done.
  - destruct (_ =? 0); eexists _, _; (split; [reflexivity|]);
      rewrite decide_False by done; done.
Qed.

(** X2: in a run of a started manager, up to the exit notification the
    manager is RUNNING and holds the disk references of all file-backed
    arguments, the child's process id and the cancellation token of the
    exit watch; from the exit notification on, also while pipes are still
    pending, the disk references are released, the process id is -1, the
    token is gone and state and value are those of the notification. *)
Theorem resources_held_until_exit cfg forkResult errno cb s e ns :
  start forkResult errno cb (configure cfg new) = InParent s ->
  oneRun s e ns ->
  forall pre post, ns = pre ++ post ->
    exists s' log,
      notifyAll pre (s, []) = Some (s', log) /\
      if decide (exits pre = [])
      then state s' = RUNNING /\ diskRefs s' = fileRefs cfg /\
           pid s' = forkResult /\
           canceler s' = Some (mkCanceler forkResult)
      else state s' = stateFor e /\
           exitStatusOrSignalNumber s' = valueFor e /\
           diskRefs s' = [] /\ pid s' = -1 /\ canceler s' = None.
Proof. exact (state_during_run cfg forkResult errno cb s e ns). Qed.

Lemma resources_held_until_exit_witness :
  exists s' log,
    notifyAll [ProcessExited 3]
      (startParent 42 7%nat
         (configure [Capture (CaptureStdout (mkPipe (Some 3%nat) 4%nat))] new),
       [])
    = Some (s', log) /\
    if decide (exits [ProcessExited 3] = [])
    then state s' = RUNNING /\
         diskRefs s'
         = fileRefs [Capture (CaptureStdout (mkPipe (Some 3%nat) 4%nat))] /\
         pid s' = 42 /\ canceler s' = Some (mkCanceler 42)
    else state s' = stateFor (ProcessExited 3) /\
         exitStatusOrSignalNumber s' = valueFor (ProcessExited 3) /\
         diskRefs s' = [] /\ pid s' = -1 /\ canceler s' = None.
Proof.
  apply (resources_held_until_exit
           [Capture (CaptureStdout (mkPipe (Some 3%nat) 4%nat))]
           42 0 7%nat _ (ProcessExited 3) [ProcessExited 3; PipeDrained]
           eq_refl)
    with (post := [PipeDrained]).
  - split; [reflexivity|]. simpl. apply perm_swap.
  - reflexivity.
Defined.

(** X3: the destructor does nothing on a manager that was never started
    and nothing once the exit notification has arrived; on a manager
    whose child still runs it cancels the exit watch, then kills and
    reaps exactly the forked child, whose process id is positive. *)
Theorem destructor_kills_only_the_running_child
  cfg forkResult errno cb s e ns :
  start forkResult errno cb (configure cfg new) = InParent s ->
  oneRun s e ns ->
  Teardown.destructor (configure cfg new) = [] /\
  0 < forkResult /\
  forall pre post, ns = pre ++ post ->
    exists s' log,
      notifyAll pre (s, []) = Some (s', log) /\
      Teardown.destructor s'
      = if decide (exits pre = [])
        then [Teardown.Cancel (mkCanceler forkResult);
              Teardown.Kill forkResult Teardown.SIGKILL;
              Teardown.Waitpid forkResult]
        else [].
Proof.
  intros Hstart Hrun. split; [|split].
  - unfold Teardown.destructor.
    by destruct (configure_before_start cfg) as (_ & -> & _).
  - by apply start_parent in Hstart as [? _].
  - intros pre post Hns.
    destruct (state_during_run _ _ _ _ _ _ _ Hstart Hrun
                pre post Hns) as (s' & log & Hn & Hres).
    exists s', log. split; [done|]. unfold Teardown.destructor.
    destruct (decide (exits pre = [])).
    + by destruct Hres as (_ & _ & -> & ->).
    + by destruct Hres as (_ & _ & _ & _ & ->).
Qed.

Lemma destructor_kills_only_the_running_child_witness :
  Teardown.destructor
    (configure [Capture (CaptureStdout (mkPipe (Some 3%nat) 4%nat))] new)
  = [].
Proof.
  refine (proj1 (destructor_kills_only_the_running_child
            [Capture (CaptureStdout (mkPipe (Some 3%nat) 4%nat))]
            42 0 7%nat _ (ProcessExited 3) [ProcessExited 3; PipeDrained]
            eq_refl _)).
  split; [reflexivity|]. simpl. apply perm_swap.
Defined.

(** ** Start *)

Lemma configure_excludes cs :
  combinedExcludesSeparate (configure cs new) = true.
Proof.
  induction cs as [|c cs IH] using rev_ind; [done|].
  rewrite configure_snoc. destruct c as [a|f u|c]; simpl.
  - exact IH.
  - exact IH.
  - apply capture_excludes.
Qed.

(** X4: in the parent, start leaves the manager RUNNING with as many
    pending pipes as capture bindings were set, which is none, one or two,
    and exactly one when the combined capture was set; the parent's
    copies of all pipe write ends are released. *)
Theorem start_counts_the_captured_pipes cfg forkResult errno cb s :
  start forkResult errno cb (configure cfg new) = InParent s ->
  state s = RUNNING /\
  pipeCount s = Z.of_nat (activeCaptures (configure cfg new)) /\
  0 <= pipeCount s <= 2 /\
  (isSome (stdoutAndStderrPipe (configure cfg new)) = true ->
   pipeCount s = 1) /\
  stdoutPipe s = None /\ stderrPipe s = None /\
  stdoutAndStderrPipe s = None.
Proof.
  intros Hstart. apply start_parent in Hstart as [_ ->].
  pose proof (configure_excludes cfg) as Hex.
  pose proof (configure_not_started cfg) as Hpc.
  unfold combinedExcludesSeparate in Hex.
  unfold startParent, activeCaptures. simpl. rewrite Hpc.
  destruct (stdoutPipe (configure cfg new)),
    (stderrPipe (configure cfg new)),
    (stdoutAndStderrPipe (configure cfg new)); simpl in *;
    try discriminate Hex; repeat split; try done; lia.
Qed.

Lemma start_counts_the_captured_pipes_witness :
  pipeCount
    (startParent 42 7%nat
       (configure [Capture (CaptureStdout (mkPipe (Some 3%nat) 4%nat));
                   Capture (CaptureStderr (mkPipe (Some 5%nat) 6%nat))] new))
  = 2.
Proof.
  exact (proj1 (proj2 (start_counts_the_captured_pipes
           [Capture (CaptureStdout (mkPipe (Some 3%nat) 4%nat));
            Capture (CaptureStderr (mkPipe (Some 5%nat) 6%nat))]
           42 0 7%nat _ eq_refl))).
Defined.

Lemma configure1_args c s :
  args (configure1 c s) = args s ++ argStrings [c].
Proof.
  destruct c as [a|f u|c]; simpl; try done.
  destruct (capture_keeps_arguments c s) as (-> & _). by rewrite app_nil_r.
Qed.

Lemma argStrings_app cs1 cs2 :
  argStrings (cs1 ++ cs2) = argStrings cs1 ++ argStrings cs2.
Proof.
  induction cs1 as [|[a|f u|c] cs1 IH]; simpl; by rewrite ?IH.
Qed.

(** X5: the argument vector the child passes to exec is the list of all
    arguments in the order of the addArgument calls, a file-backed
    argument standing as its resolved path; capture calls add nothing to
    it, and the first entry is the locator that is executed. *)
Theorem child_argv_is_the_arguments_in_call_order cfg :
  args (configure cfg new) = argStrings cfg /\
  childExec (startChild (configure cfg new))
  = (if doPathLookup (configure cfg new)
     then Execvp (executableName (configure cfg new)) (argStrings cfg)
     else Execv (executableName (configure cfg new)) (argStrings cfg)) /\
  (forall first rest,
     argStrings cfg = first :: rest ->
     executableName (configure cfg new) = first).
Proof.
  assert (args (configure cfg new) = argStrings cfg) as Hargs.
  { induction cfg as [|c cfg IH] using rev_ind; [done|].
    rewrite configure_snoc, configure1_args, IH, argStrings_app. done. }
  split; [done|]. split.
  - by rewrite startChild_exec, Hargs.
  - induction cfg as [|c cfg IH] using rev_ind; [done|].
    intros first rest Hfirst.
    rewrite argStrings_app in Hfirst.
    assert (args (configure cfg new) = argStrings cfg) as Hargs'.
    { clear -cfg. induction cfg as [|c' cfg IH] using rev_ind; [done|].
      rewrite configure_snoc, configure1_args, IH, argStrings_app. done. }
    rewrite configure_snoc.
    destruct (argStrings cfg) as [|a0 l0] eqn:Hcfg.
    + destruct c as [a|f u|c]; simpl in Hfirst; try done.
      * injection Hfirst as <- <-. unfold configure1, addArgument.
        by rewrite Hargs'.
      * injection Hfirst as <- <-. unfold configure1, addArgumentFile.
        by rewrite Hargs'.
    + simpl in Hfirst. injection Hfirst as <- _.
      specialize (IH Hargs' a0 l0 eq_refl).
      destruct c as [a|f u|c]; unfold configure1.
      * unfold addArgument. rewrite Hargs'. done.
      * unfold addArgumentFile. rewrite Hargs'. done.
      * by destruct (capture_keeps_arguments c (configure cfg new))
          as (_ & -> & _).
Qed.

Lemma child_argv_is_the_arguments_in_call_order_witness :
  argStrings [Capture (CaptureStdout (mkPipe (Some 3%nat) 4%nat));
              AddArgument "cc"; AddArgument "-c"] = "cc" :: ["-c"] /\
  executableName
    (configure [Capture (CaptureStdout (mkPipe (Some 3%nat) 4%nat));
                AddArgument "cc"; AddArgument "-c"] new) = "cc".
Proof.
  split; [reflexivity|].
  exact (proj2 (proj2 (child_argv_is_the_arguments_in_call_order
           [Capture (CaptureStdout (mkPipe (Some 3%nat) 4%nat));
            AddArgument "cc"; AddArgument "-c"])) "cc" ["-c"] eq_refl).
Defined.

(** X6: the descriptor a capture call hands to the caller is the read end
    of the very pipe whose write end the child's stream is attached to,
    whatever was configured before; the pipe the manager keeps has no
    read end any more.  After captureStdout the child's stderr is the
    earlier stderr pipe, if one was set, and after captureStderr its
    stdout is the earlier stdout pipe; after captureStdoutAndStderr both
    streams are the one new pipe. *)
Theorem capture_connects_caller_and_child (fresh : Pipe) (s : Subprocess) :
  (let '(output, s') := captureStdout fresh s in
   output = readEnd fresh /\
   (readEnd <$> stdoutPipe s') = Some None /\
   childStdout (startChild s') = PipeWriteEnd (writeEnd fresh) /\
   childStderr (startChild s') = streamOf (stderrPipe s) STDERR_FILENO) /\
  (let '(output, s') := captureStderr fresh s in
   output = readEnd fresh /\
   (readEnd <$> stderrPipe s') = Some None /\
   childStderr (startChild s') = PipeWriteEnd (writeEnd fresh) /\
   childStdout (startChild s') = streamOf (stdoutPipe s) STDOUT_FILENO) /\
  (let '(output, s') := captureStdoutAndStderr fresh s in
   output = readEnd fresh /\
   (readEnd <$> stdoutAndStderrPipe s') = Some None /\
   childStdout (startChild s') = PipeWriteEnd (writeEnd fresh) /\
   childStderr (startChild s') = PipeWriteEnd (writeEnd fresh)).
Proof.
  unfold captureStdout, captureStderr, captureStdoutAndStderr, startChild.
  simpl. repeat split; by destruct (stderrPipe s), (stdoutPipe s).
Qed.

End ExtraSubprocessProofs.

(* ===================================================================== *)
(** * Further properties of the ownership library and of Hash *)
(* ===================================================================== *)

Module ExtraProofs.
Import OwnershipSpec OwnershipProofs ExtraSpec.

(** ** Teardown of the containers *)

Lemma queue_clear_deleteEach q h :
  OwnedPtrQueue.clear q h = Ok ([], destroyAll (held q) h).
Proof.
  revert h. induction q as [|[o|] q IH]; intros h; simpl.
  - unfold ret, destroyAll. rewrite app_nil_r. by destruct h.
  - unfold bind. simpl. rewrite IH. unfold destroyAll. simpl.
    by rewrite <- app_assoc.
  - unfold bind. simpl. by rewrite IH.
Qed.

Lemma held_values_elem {Key} `{Countable Key}
  (map : gmap Key (option obj)) o :
  o ∈ held (OwnedPtrMap.values map) <-> exists k, map !! k = Some (Some o).
Proof.
  unfold held, OwnedPtrMap.values. rewrite list_elem_of_omap. split.
  - intros (v & Hv & Hid). simpl in Hid. subst v.
    apply list_elem_of_fmap in Hv as ([k v] & Hv & Hin). simpl in Hv.
    subst v. exists k. by apply elem_of_map_to_list.
  - intros (k & Hk). exists (Some o). split; [|done].
    apply list_elem_of_fmap. exists (k, Some o). split; [done|].
    by apply elem_of_map_to_list.
Qed.

Lemma held_values_entries {Key} `{Countable Key}
  (map : gmap Key (option obj)) :
  held (OwnedPtrMap.values map) = omap snd (map_to_list map).
Proof.
  unfold held, OwnedPtrMap.values.
  induction (map_to_list map) as [|[k [o|]] entries IH]; [done| |].
  - rewrite fmap_cons. cbn [omap list_omap snd id]. by rewrite IH.
  - rewrite fmap_cons. cbn [omap list_omap snd id]. by rewrite IH.
Qed.

(** X7: clearing or destroying a vector, deque or queue deletes exactly
    the non-null elements it holds, in order, and clear leaves it empty;
    destroying or clearing a map deletes, in some order, the object of
    every entry once, which are exactly the objects that some key maps
    to, and nothing else.  If the container owns each of its elements
    once and none of them was destroyed before, every one of them is
    destroyed exactly once by this and no object is destroyed twice. *)
Theorem teardown_destroys_each_element_once {Key} `{Countable Key} :
  (forall (ptrs : list (option obj)) h,
     OwnedPtrVector.destructor ptrs h = Ok (tt, destroyAll (held ptrs) h) /\
     OwnedPtrVector.clear ptrs h = Ok ([], destroyAll (held ptrs) h) /\
     OwnedPtrDeque.destructor ptrs h = Ok (tt, destroyAll (held ptrs) h) /\
     OwnedPtrDeque.clear ptrs h = Ok ([], destroyAll (held ptrs) h) /\
     OwnedPtrQueue.destructor ptrs h = Ok (tt, destroyAll (held ptrs) h) /\
     OwnedPtrQueue.clear ptrs h = Ok ([], destroyAll (held ptrs) h)) /\
  (forall (map : gmap Key (option obj)) h,
     exists os,
       OwnedPtrMap.destructor map h = Ok (tt, destroyAll os h) /\
       OwnedPtrMap.clear map h = Ok (∅, destroyAll os h) /\
       os ≡ₚ omap snd (map_to_list map) /\
       forall o, o ∈ os <-> exists k, map !! k = Some (Some o)) /\
  (forall (os : list obj) h,
     NoDup os -> NoDup (destroyed h) ->
     (forall o, o ∈ os -> o ∉ destroyed h) ->
     NoDup (destroyed (destroyAll os h)) /\
     forall o, o ∈ os -> o ∈ destroyed (destroyAll os h)).
Proof.
  split; [|split].
  - intros ptrs h.
    unfold OwnedPtrVector.destructor, OwnedPtrVector.clear,
      OwnedPtrDeque.destructor, OwnedPtrDeque.clear,
      OwnedPtrQueue.destructor, bind.
    rewrite deleteEach_held, queue_clear_deleteEach. done.
  - intros map h. exists (held (OwnedPtrMap.values map)).
    unfold OwnedPtrMap.destructor, OwnedPtrMap.clear, bind.
    rewrite deleteEach_held. split; [done|]. split; [done|].
    split; [by rewrite held_values_entries|].
    intros o. apply held_values_elem.
  - intros os h Hos Hh Hfresh. simpl. split.
    + apply NoDup_app. split; [done|]. split; [|done].
      intros o Ho Ho'. by apply (Hfresh o).
    + intros o Ho. rewrite elem_of_app. by right.
Qed.

Lemma teardown_destroys_each_element_once_witness :
  NoDup (destroyed (destroyAll [1%nat; 2%nat] emptyHeap)).
Proof.
  refine (proj1 (proj2 (proj2 (teardown_destroys_each_element_once
            (Key := nat))) [1%nat; 2%nat] emptyHeap _ _ _)).
  - apply NoDup_cons. split; [|apply NoDup_singleton].
    rewrite list_elem_of_singleton. lia.
  - apply NoDup_nil_2.
  - intros o _. apply not_elem_of_nil.
Defined.

(** ** The map *)

Section Map.
Context {Key : Type} `{Countable Key}.
Implicit Types map : gmap Key (option obj).

Lemma destroyAll_nil h : destroyAll [] h = h.
Proof. unfold destroyAll. rewrite app_nil_r. by destruct h. Qed.

(** X8: add stores the handle's pointer under the key and deletes exactly
    the object the key mapped to before, if any; afterwards get returns
    the new pointer, contains is true, every other key reads as before,
    and the size grew by one exactly if the key was new.  Adding an empty
    handle makes an entry that contains reports and get reads as NULL. *)
Theorem map_add_then_get map key ptr h :
  let map' := <[key := OwnedPtr.ptr ptr]> map in
  OwnedPtrMap.add map key ptr h
  = Ok (map', destroyAll (held (occupant map key)) h) /\
  OwnedPtrMap.get map' key = OwnedPtr.ptr ptr /\
  OwnedPtrMap.contains map' key = true /\
  (forall other, other <> key ->
     OwnedPtrMap.get map' other = OwnedPtrMap.get map other /\
     OwnedPtrMap.contains map' other = OwnedPtrMap.contains map other) /\
  OwnedPtrMap.size map'
  = OwnedPtrMap.size map
    + (if OwnedPtrMap.contains map key then 0 else 1).
Proof.
  intros map'. subst map'.
  unfold OwnedPtrMap.add, OwnedPtrMap.get, OwnedPtrMap.contains,
    OwnedPtrMap.size, occupant.
  rewrite lookup_insert_eq, map_size_insert. simpl.
  split; [|split; [done|split; [done|split]]].
  - destruct (map !! key) as [[old|]|]; simpl; unfold bind, ret; simpl;
      try done; by rewrite destroyAll_nil.
  - intros other Hne. by rewrite lookup_insert_ne.
  - destruct (map !! key); simpl; lia.
Qed.

(** X9: erase of a missing key returns false and changes nothing; erase
    of a present key returns true, deletes the object of that entry and
    removes the entry, so that get reads NULL and contains is false
    afterwards, while other keys read as before. *)
Theorem map_erase map key h :
  (map !! key = None ->
   OwnedPtrMap.erase map key h = Ok ((false, map), h)) /\
  (forall value, map !! key = Some value ->
   OwnedPtrMap.erase map key h
   = Ok ((true, delete key map), destroyAll (held [value]) h) /\
   OwnedPtrMap.get (delete key map) key = None /\
   OwnedPtrMap.contains (delete key map) key = false /\
   OwnedPtrMap.size (delete key map) = OwnedPtrMap.size map - 1 /\
   forall other, other <> key ->
     OwnedPtrMap.get (delete key map) other = OwnedPtrMap.get map other).
Proof.
  unfold OwnedPtrMap.erase, OwnedPtrMap.get, OwnedPtrMap.contains,
    OwnedPtrMap.size.
  split.
  - by intros ->.
  - intros value Hk. rewrite Hk, lookup_delete_eq.
    split; [|split; [done|split; [done|split]]].
    + destruct value; unfold bind, ret; simpl; [done|].
      by rewrite destroyAll_nil.
    + rewrite map_size_delete, Hk.
      assert (size map <> 0%nat).
      { apply map_size_non_empty_iff. intros ->.
        by rewrite lookup_empty in Hk. }
      lia.
    + intros other Hne. by rewrite lookup_delete_ne.
Qed.

(** X10: release of a key that is missing returns false and leaves the
    map as it was, but still resets the output handle: the handle is
    empty afterwards and the object it held is deleted. *)
Theorem map_release_missing_key_resets_output map key output h :
  map !! key = None ->
  OwnedPtrMap.release map key output h
  = Ok ((false, map, OwnedPtr.empty),
        destroyAll (held [OwnedPtr.ptr output]) h).
Proof.
  intros Hk. unfold OwnedPtrMap.release, OwnedPtr.reset. rewrite Hk.
  unfold bind, ret. destruct (OwnedPtr.ptr output); simpl; [done|].
  by rewrite destroyAll_nil.
Qed.

(** X11: an element put into the map under a new key, by add or by
    addIfNew, comes back unchanged from release of that key: the map is
    again what it was and nothing was destroyed on the way. *)
Theorem map_add_then_release_round_trip map key ptr h :
  map !! key = None ->
  exists map1,
    OwnedPtrMap.add map key ptr h = Ok (map1, h) /\
    OwnedPtrMap.addIfNew map key ptr h
    = Ok ((true, map1, OwnedPtr.empty), h) /\
    OwnedPtrMap.release map1 key OwnedPtr.empty h = Ok ((true, map, ptr), h).
Proof.
  intros Hk. exists (<[key := OwnedPtr.ptr ptr]> map).
  unfold OwnedPtrMap.add, OwnedPtrMap.addIfNew, OwnedPtrMap.release,
    OwnedPtr.reset.
  rewrite Hk, lookup_insert_eq. simpl.
  split; [done|]. split; [done|].
  unfold bind, ret. simpl. rewrite delete_insert_id by done.
  by destruct ptr.
Qed.

End Map.

Lemma map_erase_witness :
  OwnedPtrMap.erase ({[ 1%nat := Some 7%nat ]} : gmap nat (option obj))
    2%nat emptyHeap
  = Ok ((false, {[ 1%nat := Some 7%nat ]}), emptyHeap).
Proof.
  apply (proj1 (map_erase (Key := nat) {[ 1%nat := Some 7%nat ]} 2%nat
                  emptyHeap)).
  reflexivity.
Defined.

Lemma map_release_missing_key_resets_output_witness :
  OwnedPtrMap.release (∅ : gmap nat (option obj)) 1%nat
    (OwnedPtr.mk (Some 5%nat)) emptyHeap
  = Ok ((false, ∅, OwnedPtr.empty),
        destroyAll (held [Some 5%nat]) emptyHeap).
Proof.
  apply (map_release_missing_key_resets_output (Key := nat) ∅ 1%nat
           (OwnedPtr.mk (Some 5%nat)) emptyHeap).
  reflexivity.
Defined.

Lemma map_add_then_release_round_trip_witness :
  exists map1,
    OwnedPtrMap.add (∅ : gmap nat (option obj)) 1%nat
      (OwnedPtr.mk (Some 5%nat)) emptyHeap = Ok (map1, emptyHeap) /\
    OwnedPtrMap.addIfNew (∅ : gmap nat (option obj)) 1%nat
      (OwnedPtr.mk (Some 5%nat)) emptyHeap
    = Ok ((true, map1, OwnedPtr.empty), emptyHeap) /\
    OwnedPtrMap.release map1 1%nat OwnedPtr.empty emptyHeap
    = Ok ((true, ∅, OwnedPtr.mk (Some 5%nat)), emptyHeap).
Proof.
  apply (map_add_then_release_round_trip (Key := nat) ∅ 1%nat
           (OwnedPtr.mk (Some 5%nat)) emptyHeap).
  reflexivity.
Defined.


Section MapIteration.
Context {Key : Type} `{Countable Key}.
Implicit Types map : gmap Key (option obj).

Lemma appender_fold (output : list (option obj)) values :
  foldl (fun vec value => Appender.add vec (OwnedPtr.mk value)) output values
  = output ++ values.
Proof.
  revert output. induction values as [|v values IH]; intros output; simpl.
  - by rewrite app_nil_r.
  - rewrite IH. unfold Appender.add, OwnedPtrVector.add. simpl.
    by rewrite <- app_assoc.
Qed.

(** X12: releaseAll leaves the map empty and appends to the vector
    behind the appender, in some order, the value of every entry of the
    map once, after what the vector held before; nothing is destroyed on
    the way.  Destroying the emptied map afterwards destroys nothing, and
    destroying the vector destroys what it held before and then, in that
    order, the objects that came from the map. *)
Theorem map_releaseAll_moves_everything map output h :
  let '(map', output') := OwnedPtrMapIteration.releaseAll map output in
  map' = ∅ /\
  OwnedPtrMap.destructor map' h = Ok (tt, h) /\
  exists moved,
    output' = output ++ moved /\
    moved ≡ₚ (map_to_list map).*2 /\
    length moved = base.size map /\
    (forall value, value ∈ moved <-> exists key, map !! key = Some value) /\
    held output' = held output ++ held moved /\
    OwnedPtrVector.destructor output' h
    = Ok (tt, destroyAll (held output ++ held moved) h).
Proof.
  unfold OwnedPtrMapIteration.releaseAll. rewrite appender_fold.
  split; [done|]. split.
  { unfold OwnedPtrMap.destructor, OwnedPtrMap.values.
    rewrite map_to_list_empty. simpl. unfold ret. done. }
  exists (OwnedPtrMap.values map). unfold OwnedPtrMap.values.
  split; [done|]. split; [done|]. split.
  { by rewrite length_fmap, length_map_to_list. }
  split.
  { intros value. rewrite list_elem_of_fmap. split.
    - intros ([key v] & -> & Hin). exists key.
      by apply elem_of_map_to_list.
    - intros (key & Hkey). exists (key, value). split; [done|].
      by apply elem_of_map_to_list. }
  split; [apply held_app|].
  unfold OwnedPtrVector.destructor. by rewrite deleteEach_held, held_app.
Qed.

Lemma visit_all (entries : list (Key * option obj)) current fuel :
  (length entries <= fuel)%nat ->
  OwnedPtrMapIteration.visit fuel
    (OwnedPtrMapIteration.mkIterator current entries)
  = (entries,
     OwnedPtrMapIteration.mkIterator
       (match last entries with Some e => Some e | None => current end) []).
Proof.
  revert current fuel.
  induction entries as [|e entries IH]; intros current fuel Hfuel.
  - destruct fuel; done.
  - destruct fuel as [|fuel]; [simpl in Hfuel; lia|].
    simpl. unfold OwnedPtrMapIteration.key, OwnedPtrMapIteration.value.
    simpl. rewrite IH by (simpl in Hfuel; lia).
    destruct e as [k v]. simpl. destruct entries as [|e' entries']; [done|].
    change (last ((k, v) :: e' :: entries')) with (last (e' :: entries')).
    destruct (last (e' :: entries')) eqn:E; [done|].
    by apply last_None in E.
Qed.

(** X13: a loop over the iterator of a map, calling next() until it
    returns false, visits every entry of the map exactly once, each key
    with the value the map holds for it, in as many steps as the map has
    entries; after that next() keeps returning false.  Before the first
    next() key() and value() are undefined. *)
Theorem map_iterator_visits_each_entry_once map fuel :
  (base.size map <= fuel)%nat ->
  let '(seen, last) :=
    OwnedPtrMapIteration.visit fuel (OwnedPtrMapIteration.begin map) in
  length seen = base.size map /\
  NoDup seen.*1 /\
  (forall k v, (k, v) ∈ seen <-> map !! k = Some v) /\
  OwnedPtrMapIteration.next last = (false, last) /\
  OwnedPtrMapIteration.key (OwnedPtrMapIteration.begin map) = Undefined /\
  OwnedPtrMapIteration.value (OwnedPtrMapIteration.begin map) = Undefined.
Proof.
  intros Hfuel. unfold OwnedPtrMapIteration.begin.
  rewrite visit_all by (by rewrite length_map_to_list).
  split; [apply length_map_to_list|].
  split; [apply NoDup_fst_map_to_list|].
  split; [intros k v; apply elem_of_map_to_list|]. done.
Qed.

End MapIteration.

Lemma map_iterator_visits_each_entry_once_witness :
  let '(seen, last) :=
    OwnedPtrMapIteration.visit 5
      (OwnedPtrMapIteration.begin
         ({[ 1%nat := Some 7%nat ]} : gmap nat (option obj))) in
  length seen = base.size ({[ 1%nat := Some 7%nat ]} : gmap nat (option obj))
  /\ NoDup seen.*1 /\
  (forall k v, (k, v) ∈ seen
               <-> ({[ 1%nat := Some 7%nat ]} : gmap nat (option obj)) !! k
                   = Some v) /\
  OwnedPtrMapIteration.next last = (false, last) /\
  OwnedPtrMapIteration.key
    (OwnedPtrMapIteration.begin
       ({[ 1%nat := Some 7%nat ]} : gmap nat (option obj))) = Undefined /\
  OwnedPtrMapIteration.value
    (OwnedPtrMapIteration.begin
       ({[ 1%nat := Some 7%nat ]} : gmap nat (option obj))) = Undefined.
Proof.
  apply (map_iterator_visits_each_entry_once (Key := nat)
           {[ 1%nat := Some 7%nat ]} 5).
  rewrite map_size_singleton. lia.
Defined.

(** ** The sequence containers *)

Lemma handle_eta (p : OwnedPtr.t) : OwnedPtr.mk (OwnedPtr.ptr p) = p.
Proof. by destruct p. Qed.

Lemma removelast_snoc {A} (l : list A) x : removelast (l ++ [x]) = l.
Proof. apply removelast_last. Qed.

Lemma pushAll_app q ps : pushAll q ps = q ++ (OwnedPtr.ptr <$> ps).
Proof.
  unfold pushAll. revert q. induction ps as [|p ps IH]; intros q; simpl.
  - by rewrite app_nil_r.
  - rewrite IH. unfold OwnedPtrQueue.push. simpl. by rewrite <- app_assoc.
Qed.

Lemma popN_app ps rest :
  popN (length ps) ((OwnedPtr.ptr <$> ps) ++ rest) = Ok (ps, rest).
Proof.
  induction ps as [|p ps IH]; [done|].
  rewrite fmap_cons. cbn [length popN app OwnedPtrQueue.pop].
  by rewrite IH, handle_eta.
Qed.

(** X14: what is put at an end of a container comes back from that end
    unchanged, leaving the container as it was: add and releaseBack of
    the vector, pushBack and popBack, pushFront and popFront of the
    deque.  The queue is first in, first out: handles pushed onto an empty
    queue come back from pop in the order they were pushed, and the queue
    is empty again. *)
Theorem push_then_pop_round_trips (p : OwnedPtr.t) :
  (forall vec,
     OwnedPtrVector.releaseBack (OwnedPtrVector.add vec p) = Ok (p, vec)) /\
  (forall q,
     OwnedPtrDeque.popBack (OwnedPtrDeque.pushBack q p) = Ok (p, q) /\
     OwnedPtrDeque.popFront (OwnedPtrDeque.pushFront q p) = Ok (p, q)) /\
  (forall ps, popN (length ps) (pushAll [] ps) = Ok (ps, [])).
Proof.
  split; [|split].
  - intros vec. unfold OwnedPtrVector.releaseBack, OwnedPtrVector.add.
    simpl. by rewrite last_snoc, removelast_snoc, handle_eta.
  - intros q. split.
    + unfold OwnedPtrDeque.popBack, OwnedPtrDeque.pushBack. simpl.
      by rewrite last_snoc, removelast_snoc, handle_eta.
    + unfold OwnedPtrDeque.popFront, OwnedPtrDeque.pushFront. simpl.
      by rewrite handle_eta.
  - intros ps. rewrite pushAll_app. simpl.
    rewrite <- (app_nil_r (OwnedPtr.ptr <$> ps)). apply popN_app.
Qed.

(** X15: the indexed operations of the vector and the deque (get,
    release, releaseAndShift) are defined exactly for an index from zero
    up to, not including, the size; the operations that take from an end
    (releaseBack, popFront, popBack, pop) are undefined exactly on an
    empty container. *)
Theorem container_operations_defined_in_range (vec : list (option obj)) :
  (forall index,
     0 <= index < OwnedPtrVector.size vec <->
     exists element,
       OwnedPtrVector.get vec index = Ok element /\
       OwnedPtrVector.release vec index
       = Ok (OwnedPtr.mk element, <[Z.to_nat index := None]> vec) /\
       OwnedPtrVector.releaseAndShift vec index
       = Ok (OwnedPtr.mk element, delete (Z.to_nat index) vec) /\
       OwnedPtrDeque.releaseAndShift vec index
       = Ok (OwnedPtr.mk element, delete (Z.to_nat index) vec)) /\
  (forall index,
     ~ 0 <= index < OwnedPtrVector.size vec ->
     OwnedPtrVector.get vec index = Undefined /\
     OwnedPtrVector.release vec index = Undefined /\
     OwnedPtrVector.releaseAndShift vec index = Undefined /\
     OwnedPtrDeque.releaseAndShift vec index = Undefined) /\
  (vec = [] <-> OwnedPtrVector.releaseBack vec = Undefined) /\
  (vec = [] <-> OwnedPtrDeque.popFront vec = Undefined) /\
  (vec = [] <-> OwnedPtrDeque.popBack vec = Undefined) /\
  (vec = [] <-> OwnedPtrQueue.pop vec = Undefined).
Proof.
  assert (forall index, ~ 0 <= index < OwnedPtrVector.size vec ->
            at_index vec index = Undefined) as Hout.
  { intros index Hi. unfold at_index, OwnedPtrVector.size in *.
    destruct (Z.leb_spec 0 index); simpl; [|done].
    destruct (Z.ltb_spec index (Z.of_nat (length vec))); [lia|done]. }
  assert (forall index, 0 <= index < OwnedPtrVector.size vec ->
            exists element, at_index vec index = Ok element) as Hin.
  { intros index Hi. unfold OwnedPtrVector.size in Hi.
    destruct (lookup_lt_is_Some_2 vec (Z.to_nat index)) as [element He];
      [lia|].
    exists element. apply at_index_lookup; [lia|done]. }
  assert (vec = [] <-> last vec = None) as Hlast.
  { split; [by intros ->|]. apply last_None. }
  split; [|split; [|split; [|split; [|split]]]].
  - intros index. split.
    + intros Hi. destruct (Hin index Hi) as [element He].
      exists element.
      unfold OwnedPtrVector.get, OwnedPtrVector.release,
        OwnedPtrVector.releaseAndShift, OwnedPtrDeque.releaseAndShift.
      by rewrite He.
    + intros (element & He & _).
      destruct (decide (0 <= index < OwnedPtrVector.size vec)) as [|Hn];
        [done|].
      unfold OwnedPtrVector.get in He. by rewrite (Hout index Hn) in He.
  - intros index Hn.
    unfold OwnedPtrVector.get, OwnedPtrVector.release,
      OwnedPtrVector.releaseAndShift, OwnedPtrDeque.releaseAndShift.
    by rewrite (Hout index Hn).
  - unfold OwnedPtrVector.releaseBack. rewrite Hlast.
    by destruct (last vec).
  - unfold OwnedPtrDeque.popFront. by destruct vec.
  - unfold OwnedPtrDeque.popBack. rewrite Hlast. by destruct (last vec).
  - unfold OwnedPtrQueue.pop. by destruct vec.
Qed.

Lemma container_operations_defined_in_range_witness :
  OwnedPtrVector.get [Some 4%nat] 1 = Undefined.
Proof.
  refine (proj1 (proj1 (proj2 (container_operations_defined_in_range
            [Some 4%nat])) 1 _)).
  unfold OwnedPtrVector.size. simpl. lia.
Defined.

(** ** Hash *)

Lemma memcmp_flip n : forall a b, Hash.memcmp b a n = - Hash.memcmp a b n.
Proof.
  induction n as [|n IH]; intros [|x a] [|y b]; simpl; try done.
  rewrite (N.eqb_sym (Byte.to_N y)).
  destruct (Byte.to_N x =? Byte.to_N y)%N; [apply IH|lia].
Qed.

Lemma memcmp_zero n :
  forall a b, length a = n -> length b = n ->
    (Hash.memcmp a b n = 0 <-> a = b).
Proof.
  induction n as [|n IH]; intros [|x a] [|y b]; simpl; try done.
  intros [= Ha] [= Hb].
  destruct (N.eqb_spec (Byte.to_N x) (Byte.to_N y)) as [E|E].
  - assert (x = y) as ->.
    { apply (f_equal Byte.of_N) in E. rewrite !Byte.of_to_N in E.
      congruence. }
    rewrite (IH a b Ha Hb). split; congruence.
  - split; [lia|]. intros [= -> _]. done.
Qed.

Lemma memcmp_trans n :
  forall a b c,
    length a = n -> length b = n -> length c = n ->
    Hash.memcmp a b n < 0 -> Hash.memcmp b c n < 0 ->
    Hash.memcmp a c n < 0.
Proof.
  induction n as [|n IH]; intros [|x a] [|y b] [|z c]; simpl; try done;
    try lia.
  intros [= Ha] [= Hb] [= Hc].
  destruct (N.eqb_spec (Byte.to_N x) (Byte.to_N y)) as [E1|E1];
    destruct (N.eqb_spec (Byte.to_N y) (Byte.to_N z)) as [E2|E2];
    destruct (N.eqb_spec (Byte.to_N x) (Byte.to_N z)) as [E3|E3];
    try lia; eauto.
Qed.

(** X16: on stored hashes the six comparison operators agree with one
    total order of the 32 bytes: a == b holds exactly if the hashes are
    the same bytes, exactly one of a < b, a == b, a > b holds, a > b is
    b < a, and !=, <=, >= are the negations of ==, > and <. *)
Theorem hash_comparisons_are_consistent (a b : Hash.t) :
  wellFormed a -> wellFormed b ->
  (Hash.eq a b = true <-> a = b) /\
  Hash.ne a b = negb (Hash.eq a b) /\
  Hash.gt a b = Hash.lt b a /\
  Hash.le a b = negb (Hash.gt a b) /\
  Hash.ge a b = negb (Hash.lt a b) /\
  (Hash.lt a b = true /\ Hash.eq a b = false /\ Hash.gt a b = false \/
   Hash.lt a b = false /\ Hash.eq a b = true /\ Hash.gt a b = false \/
   Hash.lt a b = false /\ Hash.eq a b = false /\ Hash.gt a b = true).
Proof.
  intros Ha Hb. unfold Hash.eq, Hash.ne, Hash.lt, Hash.gt, Hash.le, Hash.ge.
  rewrite (memcmp_flip _ (Hash.hash a) (Hash.hash b)).
  pose proof (memcmp_zero _ _ _ Ha Hb) as Hz.
  set (r := Hash.memcmp (Hash.hash a) (Hash.hash b) Hash.sizeof_hash) in *.
  split; [|split; [done|split; [|split; [|split]]]].
  - rewrite Z.eqb_eq. destruct a, b; simpl in *.
    split; [intros E; f_equal; by apply Hz|intros [= E]; by apply Hz].
  - rewrite Z.gtb_ltb. destruct (Z.ltb_spec 0 r), (Z.ltb_spec (- r) 0);
      try done; lia.
  - rewrite Z.gtb_ltb. destruct (Z.leb_spec r 0), (Z.ltb_spec 0 r);
      try done; lia.
  - rewrite Z.geb_leb. destruct (Z.leb_spec 0 r), (Z.ltb_spec r 0);
      try done; lia.
  - rewrite Z.gtb_ltb.
    destruct (Z.ltb_spec r 0), (Z.eqb_spec r 0), (Z.ltb_spec 0 r);
      try lia; tauto.
Qed.

Lemma hash_comparisons_are_consistent_witness :
  Hash.ne (Hash.mk (repeat Byte.x00 32)) (Hash.mk (repeat Byte.xff 32))
  = negb (Hash.eq (Hash.mk (repeat Byte.x00 32))
            (Hash.mk (repeat Byte.xff 32))).
Proof.
  exact (proj1 (proj2 (hash_comparisons_are_consistent
           (Hash.mk (repeat Byte.x00 32)) (Hash.mk (repeat Byte.xff 32))
           eq_refl eq_refl))).
Defined.

(** X17: on stored hashes operator< is a strict order that is total:
    it is irreflexive and transitive, and two hashes that are not the
    same bytes are ordered one way or the other. *)
Theorem hash_less_than_is_a_strict_total_order (a b c : Hash.t) :
  wellFormed a -> wellFormed b -> wellFormed c ->
  Hash.lt a a = false /\
  (Hash.lt a b = true -> Hash.lt b c = true -> Hash.lt a c = true) /\
  (a <> b -> Hash.lt a b = true \/ Hash.lt b a = true).
Proof.
  intros Ha Hb Hc. unfold Hash.lt. split; [|split].
  - rewrite (proj2 (memcmp_zero _ _ _ Ha Ha) eq_refl). done.
  - rewrite !Z.ltb_lt. by apply memcmp_trans.
  - intros Hne. rewrite !Z.ltb_lt.
    rewrite (memcmp_flip _ (Hash.hash a) (Hash.hash b)).
    pose proof (memcmp_zero _ _ _ Ha Hb) as Hz.
    assert (Hash.memcmp (Hash.hash a) (Hash.hash b) Hash.sizeof_hash <> 0).
    { rewrite Hz. destruct a, b; simpl. congruence. }
    lia.
Qed.

Lemma hash_less_than_is_a_strict_total_order_witness :
  Hash.lt (Hash.mk (repeat Byte.x00 32)) (Hash.mk (repeat Byte.x00 32))
  = false.
Proof.
  exact (proj1 (hash_less_than_is_a_strict_total_order
           (Hash.mk (repeat Byte.x00 32)) (Hash.mk (repeat Byte.x00 32))
           (Hash.mk (repeat Byte.x00 32)) eq_refl eq_refl eq_refl)).
Defined.

(** ** Shared and weak handles: assignments to oneself, temporaries *)

Lemma heap_restore h l b b' :
  blocks h !! l = Some b ->
  setBlocks (<[l := b]> (blocks (setBlocks (<[l := b']> (blocks h)) h)))
    (setBlocks (<[l := b']> (blocks h)) h) = h.
Proof.
  intros Hl. destruct h as [bs nb no d f]. unfold setBlocks. simpl in *.
  f_equal. rewrite insert_insert_eq. by apply insert_id.
Qed.

Lemma inc_then_dec h l b :
  blocks h !! l = Some b ->
  0 < Refcount.strong b < INT_MAX ->
  bind (RefcountOps.inc (Some l)) (fun _ => RefcountOps.dec (Some l)) h
  = Ok (false, h).
Proof.
  intros Hl [Hlo Hhi]. unfold RefcountOps.inc, RefcountOps.dec. m_unfold.
  rewrite Hl. destruct (Z.eqb_spec (Refcount.strong b) INT_MAX); [lia|].
  rewrite Hl. cbn [blocks setBlocks]. rewrite lookup_insert_eq.
  cbn [Refcount.strong Refcount.weak].
  destruct (Z.eqb_spec (Refcount.strong b + 1) INT_MIN);
    [unfold INT_MIN, INT_MAX in *; lia|].
  rewrite ?lookup_insert_eq.
  destruct (Z.eqb_spec (Refcount.strong b + 1 - 1) 0); [lia|].
  replace (Refcount.strong b + 1 - 1) with (Refcount.strong b) by lia.
  replace (Refcount.mk (Refcount.strong b) (Refcount.weak b)) with b
    by by destruct b.
  rewrite heap_restore by done. cbn [blocks setBlocks].
  by rewrite lookup_insert_eq.
Qed.

Lemma incWeak_then_decWeak h l b :
  blocks h !! l = Some b ->
  0 <= Refcount.weak b < INT_MAX ->
  0 < Refcount.strong b + Refcount.weak b ->
  bind (RefcountOps.incWeak (Some l)) (fun _ => RefcountOps.decWeak (Some l))
    h = Ok (tt, h).
Proof.
  intros Hl [Hlo Hhi] Hpos. unfold RefcountOps.incWeak, RefcountOps.decWeak.
  m_unfold. rewrite Hl.
  destruct (Z.eqb_spec (Refcount.weak b) INT_MAX); [lia|].
  rewrite Hl. cbn [blocks setBlocks]. rewrite lookup_insert_eq.
  cbn [Refcount.strong Refcount.weak].
  destruct (Z.eqb_spec (Refcount.weak b + 1) INT_MIN);
    [unfold INT_MIN, INT_MAX in *; lia|].
  rewrite ?lookup_insert_eq.
  replace (Refcount.weak b + 1 - 1) with (Refcount.weak b) by lia.
  replace (Refcount.mk (Refcount.strong b) (Refcount.weak b)) with b
    by by destruct b.
  rewrite heap_restore by done. cbn [blocks setBlocks].
  rewrite lookup_insert_eq.
  destruct (Z.eqb_spec (Refcount.weak b) 0),
    (Z.eqb_spec (Refcount.strong b) 0); simpl; try done. lia.
Qed.

Lemma strongRoom_block h l :
  strongRoom h (Some l) = true ->
  exists b, blocks h !! l = Some b /\ 0 < Refcount.strong b < INT_MAX.
Proof.
  unfold strongRoom. destruct (blocks h !! l) as [b|]; [|done].
  intros [H1 H2]%andb_prop. exists b. split; [done|]. lia.
Qed.

Lemma weakRoom_block h l :
  weakRoom h (Some l) = true ->
  exists b, blocks h !! l = Some b /\ 0 <= Refcount.weak b < INT_MAX /\
            0 < Refcount.strong b + Refcount.weak b.
Proof.
  unfold weakRoom. destruct (blocks h !! l) as [b|]; [|done].
  intros [[H1 H2]%andb_prop H3]%andb_prop. exists b. split; [done|]. lia.
Qed.

Lemma world_eta w :
  {| heap := heap w; owned := owned w; shared := shared w;
     weaks := weaks w |} = w.
Proof. by destruct w. Qed.

Lemma getShared_Ok w x this :
  shared w !! x = Some this -> getShared x w = Ok (this, w).
Proof. unfold getShared. by intros ->. Qed.

Lemma getWeak_Ok w v ref :
  weaks w !! v = Some ref -> getWeak v w = Ok (ref, w).
Proof. unfold getWeak. by intros ->. Qed.

Lemma getOwned_Ok w o p :
  owned w !! o = Some p -> getOwned o w = Ok (p, w).
Proof. unfold getOwned. by intros ->. Qed.

Lemma onHeap_Ok {A} (c : M Heap A) w a h :
  c (heap w) = Ok (a, h) ->
  onHeap c w = Ok (a, {| heap := h; owned := owned w; shared := shared w;
                         weaks := weaks w |}).
Proof. unfold onHeap. by intros ->. Qed.

Lemma onHeap_same {A} (c : M Heap A) w a :
  c (heap w) = Ok (a, heap w) -> onHeap c w = Ok (a, w).
Proof. intros E. rewrite (onHeap_Ok _ _ _ _ E). by rewrite world_eta. Qed.

Lemma setShared_same w x this :
  shared w !! x = Some this -> setShared x this w = Ok (tt, w).
Proof.
  intros Hx. unfold setShared. rewrite insert_id by done.
  by rewrite world_eta.
Qed.

Lemma setWeak_same w v ref :
  weaks w !! v = Some ref -> setWeak v ref w = Ok (tt, w).
Proof.
  intros Hv. unfold setWeak. rewrite insert_id by done.
  by rewrite world_eta.
Qed.

Lemma setOwned_same w o p :
  owned w !! o = Some p -> setOwned o p w = Ok (tt, w).
Proof.
  intros Ho. unfold setOwned. rewrite insert_id by done.
  by rewrite world_eta.
Qed.

Lemma assign_self this h :
  strongRoom h (SmartPtr.refcount this) = true ->
  SmartPtr.assign this this h = Ok (this, h).
Proof.
  intros Hs. unfold SmartPtr.assign, SmartPtr.reset2.
  destruct this as [p [l|]]; cbn [SmartPtr.ptr SmartPtr.refcount] in *.
  - destruct (strongRoom_block _ _ Hs) as (b & Hb & Hr).
    pose proof (inc_then_dec _ l b Hb Hr) as E. unfold bind in *.
    destruct (RefcountOps.inc (Some l) h) as [[[] h1]| |]; try done.
    by rewrite E.
  - done.
Qed.

Lemma weak_assign_self ref h :
  weakRoom h (WeakPtr.refcount ref) = true ->
  WeakPtr.assign ref ref h = Ok (ref, h).
Proof.
  intros Hw. unfold WeakPtr.assign, WeakPtr.assignFields.
  destruct ref as [p [l|]]; cbn [WeakPtr.ptr WeakPtr.refcount] in *.
  - destruct (weakRoom_block _ _ Hw) as (b & Hb & Hr & Hpos).
    pose proof (incWeak_then_decWeak _ l b Hb Hr Hpos) as E.
    unfold bind in *.
    destruct (RefcountOps.incWeak (Some l) h) as [[[] h1]| |]; try done.
    by rewrite E.
  - done.
Qed.

(** X18: assigning a handle to itself changes nothing. For a shared
    handle (x = x) whose block has a strong holder and room for one more,
    and for a weak reference (v = v) whose block has room for one more,
    the counters go up and come back down, nothing is destroyed or freed,
    and every variable keeps its value. *)
Theorem copy_assignment_to_itself_changes_nothing
  (w : World) (x v : var) (this : SmartPtr.t) (ref : WeakPtr.t) :
  shared w !! x = Some this ->
  strongRoom (heap w) (SmartPtr.refcount this) = true ->
  weaks w !! v = Some ref ->
  weakRoom (heap w) (WeakPtr.refcount ref) = true ->
  step (SAssign x x) w = Ok (tt, w) /\
  step (WAssign v v) w = Ok (tt, w).
Proof.
  intros Hx Hs Hv Hw. split; unfold step.
  - rewrite !(bind_Ok _ _ _ _ _ (getShared_Ok _ _ _ Hx)).
    rewrite (bind_Ok _ _ _ _ _ (onHeap_same _ _ _ (assign_self _ _ Hs))).
    by apply setShared_same.
  - rewrite !(bind_Ok _ _ _ _ _ (getWeak_Ok _ _ _ Hv)).
    rewrite (bind_Ok _ _ _ _ _
               (onHeap_same _ _ _ (weak_assign_self _ _ Hw))).
    by apply setWeak_same.
Qed.

Lemma copy_assignment_to_itself_changes_nothing_witness :
  step (SAssign 0%nat 0%nat) oneSharedOneWeak = Ok (tt, oneSharedOneWeak) /\
  step (WAssign 0%nat 0%nat) oneSharedOneWeak = Ok (tt, oneSharedOneWeak).
Proof.
  apply (copy_assignment_to_itself_changes_nothing oneSharedOneWeak
           0%nat 0%nat (SmartPtr.mk (Some 0%nat) (Some 0%nat))
           (WeakPtr.mk (Some 0%nat) (Some 0%nat)));
    reflexivity.
Defined.

(** X19: moving a handle into itself changes nothing. x = std::move(x)
    on an exclusive handle and on a shared handle leaves the handle
    holding what it held, destroys nothing and leaves the counters
    alone. *)
Theorem move_assignment_to_itself_changes_nothing
  (w : World) (x y : var) (this : OwnedPtr.t) (that : SmartPtr.t) :
  owned w !! x = Some this ->
  shared w !! y = Some that ->
  Exclusive.step (Exclusive.MoveAssign x x) w = Ok (tt, w) /\
  step (SMoveAssign y y) w = Ok (tt, w).
Proof.
  intros Hx Hy. split.
  - unfold Exclusive.step.
    rewrite !(bind_Ok _ _ _ _ _ (getOwned_Ok _ _ _ Hx)).
    unfold bind at 1. unfold setOwned at 1.
    unfold bind at 1. unfold getOwned at 1.
    cbn [heap owned shared weaks]. rewrite lookup_insert_eq.
    unfold bind at 1. unfold onHeap at 1.
    unfold OwnedPtr.releaseRaw, OwnedPtr.reset. m_unfold.
    unfold setOwned. cbn [fst snd OwnedPtr.ptr heap owned shared weaks].
    rewrite insert_insert_eq.
    replace (OwnedPtr.mk (OwnedPtr.ptr this)) with this by by destruct this.
    rewrite insert_id by done. by rewrite world_eta.
  - unfold step.
    rewrite !(bind_Ok _ _ _ _ _ (getShared_Ok _ _ _ Hy)).
    unfold bind at 1. unfold setShared at 1.
    unfold bind at 1. unfold getShared at 1.
    cbn [heap owned shared weaks]. rewrite lookup_insert_eq.
    unfold bind at 1. unfold onHeap at 1.
    unfold SmartPtr.reset2, RefcountOps.inc, RefcountOps.dec,
      SmartPtr.empty. m_unfold.
    unfold setShared.
    cbn [SmartPtr.ptr SmartPtr.refcount heap owned shared weaks].
    rewrite insert_insert_eq.
    replace (SmartPtr.mk (SmartPtr.ptr that) (SmartPtr.refcount that))
      with that by by destruct that.
    rewrite insert_id by done. by rewrite world_eta.
Qed.

Lemma move_assignment_to_itself_changes_nothing_witness :
  Exclusive.step (Exclusive.MoveAssign 0%nat 0%nat) oneSharedOneWeak
  = Ok (tt, oneSharedOneWeak) /\
  step (SMoveAssign 0%nat 0%nat) oneSharedOneWeak
  = Ok (tt, oneSharedOneWeak).
Proof.
  apply (move_assignment_to_itself_changes_nothing oneSharedOneWeak
           0%nat 0%nat (OwnedPtr.mk (Some 1%nat))
           (SmartPtr.mk (Some 0%nat) (Some 0%nat)));
    reflexivity.
Defined.

Lemma inc_result h l b :
  blocks h !! l = Some b -> Refcount.strong b < INT_MAX ->
  RefcountOps.inc (Some l) h
  = Ok (tt, withBlock l (Refcount.mk (Refcount.strong b + 1)
                           (Refcount.weak b)) h).
Proof.
  intros Hl Hhi. unfold RefcountOps.inc. m_unfold. rewrite Hl.
  destruct (Z.eqb_spec (Refcount.strong b) INT_MAX); [lia|].
  by rewrite Hl.
Qed.

Lemma dec_back h l b :
  blocks h !! l = Some b -> 0 < Refcount.strong b < INT_MAX ->
  RefcountOps.dec (Some l)
    (withBlock l (Refcount.mk (Refcount.strong b + 1) (Refcount.weak b)) h)
  = Ok (false, h).
Proof.
  intros Hl Hr. pose proof (inc_then_dec _ _ _ Hl Hr) as E.
  unfold bind in E. by rewrite (inc_result _ _ _ Hl) in E by lia.
Qed.

Lemma incWeak_result h l b :
  blocks h !! l = Some b -> Refcount.weak b < INT_MAX ->
  RefcountOps.incWeak (Some l) h
  = Ok (tt, withBlock l (Refcount.mk (Refcount.strong b)
                           (Refcount.weak b + 1)) h).
Proof.
  intros Hl Hhi. unfold RefcountOps.incWeak. m_unfold. rewrite Hl.
  destruct (Z.eqb_spec (Refcount.weak b) INT_MAX); [lia|].
  by rewrite Hl.
Qed.

Lemma decWeak_back h l b :
  blocks h !! l = Some b -> 0 <= Refcount.weak b < INT_MAX ->
  0 < Refcount.strong b + Refcount.weak b ->
  RefcountOps.decWeak (Some l)
    (withBlock l (Refcount.mk (Refcount.strong b) (Refcount.weak b + 1)) h)
  = Ok (tt, h).
Proof.
  intros Hl Hr Hpos. pose proof (incWeak_then_decWeak _ _ _ Hl Hr Hpos) as E.
  unfold bind in E. by rewrite (incWeak_result _ _ _ Hl) in E by lia.
Qed.

Lemma copy_then_destroy this h :
  strongRoom h (SmartPtr.refcount this) = true ->
  exists h1, SmartPtr.copy this h = Ok (this, h1) /\
             SmartPtr.destructor this h1 = Ok (tt, h).
Proof.
  intros Hs. unfold SmartPtr.copy, SmartPtr.destructor.
  destruct this as [p [l|]]; cbn [SmartPtr.ptr SmartPtr.refcount] in *.
  - destruct (strongRoom_block _ _ Hs) as (b & Hb & Hr).
    eexists. split.
    + rewrite (bind_Ok _ _ _ _ _ (inc_result _ _ _ Hb (proj2 Hr))). done.
    + rewrite (bind_Ok _ _ _ _ _ (dec_back _ _ _ Hb Hr)). done.
  - exists h. done.
Qed.

Lemma fromShared_then_destroy this h :
  weakRoom h (SmartPtr.refcount this) = true ->
  exists h1,
    WeakPtr.fromShared this h
    = Ok (WeakPtr.mk (SmartPtr.ptr this) (SmartPtr.refcount this), h1) /\
    WeakPtr.destructor
      (WeakPtr.mk (SmartPtr.ptr this) (SmartPtr.refcount this)) h1
    = Ok (tt, h).
Proof.
  intros Hw. unfold WeakPtr.fromShared, WeakPtr.destructor.
  destruct this as [p [l|]];
    cbn [SmartPtr.ptr SmartPtr.refcount WeakPtr.refcount] in *.
  - destruct (weakRoom_block _ _ Hw) as (b & Hb & Hr & Hpos).
    eexists. split.
    + rewrite (bind_Ok _ _ _ _ _ (incWeak_result _ _ _ Hb (proj2 Hr))). done.
    + by apply decWeak_back.
  - exists h. done.
Qed.

Lemma upgrade_then_destroy ref h :
  upgradeRoom h (WeakPtr.refcount ref) = true ->
  exists result h1,
    WeakPtr.upgrade ref h = Ok (result, h1) /\
    SmartPtr.destructor result h1 = Ok (tt, h).
Proof.
  intros Hu. unfold WeakPtr.upgrade, RefcountOps.isLive.
  destruct ref as [p [l|]]; cbn [WeakPtr.ptr WeakPtr.refcount] in *.
  - unfold upgradeRoom in Hu.
    destruct (blocks h !! l) as [b|] eqn:Hb; [|done].
    apply andb_prop in Hu as [H0 H1].
    assert (load l h = Ok (b, h)) as Hload by (unfold load; by rewrite Hb).
    rewrite (bind_Ok _ _ _ _ _ (bind_Ok _ _ _ _ _ Hload)). unfold ret at 1.
    destruct (Z.ltb_spec 0 (Refcount.strong b)) as [Hpos|Hzero].
    + unfold SmartPtr.reset2. cbn [SmartPtr.ptr SmartPtr.refcount
                                     SmartPtr.empty].
      assert (Refcount.strong b < INT_MAX) as Hhi by lia.
      rewrite (bind_Ok _ _ _ _ _ (inc_result _ _ _ Hb Hhi)).
      eexists _, _. split; [reflexivity|].
      unfold SmartPtr.destructor. cbn [SmartPtr.ptr SmartPtr.refcount].
      rewrite (bind_Ok _ _ _ _ _ (dec_back _ _ _ Hb (conj Hpos Hhi))). done.
    + exists SmartPtr.empty, h. done.
  - exists SmartPtr.empty, h. done.
Qed.

Lemma freshShared_Ok w x :
  shared w !! x = None -> freshShared x w = Ok (tt, w).
Proof. unfold freshShared. by intros ->. Qed.

Lemma freshWeak_Ok w v :
  weaks w !! v = None -> freshWeak v w = Ok (tt, w).
Proof. unfold freshWeak. by intros ->. Qed.

(** X20: a temporary leaves no trace. Copying a shared handle and
    dropping the copy, taking a weak reference to a shared handle and
    dropping it, and upgrading a weak reference and dropping the shared
    handle obtained (whether or not the object is still alive) each leave
    the counters, the objects and every variable as they were: nothing is
    destroyed and no block is freed. *)
Theorem temporary_handles_leave_no_trace
  (w : World) (x y u v : var) (this : SmartPtr.t) (ref : WeakPtr.t) :
  shared w !! x = Some this ->
  shared w !! y = None ->
  weaks w !! u = Some ref ->
  weaks w !! v = None ->
  strongRoom (heap w) (SmartPtr.refcount this) = true ->
  weakRoom (heap w) (SmartPtr.refcount this) = true ->
  upgradeRoom (heap w) (WeakPtr.refcount ref) = true ->
  exec [SCopy y x; SDestroy y] w = Ok w /\
  exec [WFromShared v x; WDestroy v] w = Ok w /\
  exec [Upgrade y u; SDestroy y] w = Ok w.
Proof.
  intros Hx Hy Hu Hv Hs Hw Hup.
  destruct (copy_then_destroy _ _ Hs) as (h1 & Hc & Hd).
  destruct (fromShared_then_destroy _ _ Hw) as (h2 & Hf & Hwd).
  destruct (upgrade_then_destroy _ _ Hup) as (res & h3 & Hupg & Hud).
  assert (forall p h0 h',
            SmartPtr.destructor p h0 = Ok (tt, h') ->
            step (SDestroy y)
              {| heap := h0; owned := owned w;
                 shared := <[y := p]> (shared w); weaks := weaks w |}
            = Ok (tt, {| heap := h'; owned := owned w; shared := shared w;
                         weaks := weaks w |})) as Hdrop.
  { intros p h0 h' E. unfold step.
    set (w1 := {| heap := h0; owned := owned w;
                  shared := <[y := p]> (shared w); weaks := weaks w |}).
    rewrite (bind_Ok _ _ _ _ _
               (getShared_Ok w1 y p (lookup_insert_eq _ _ _))).
    rewrite (bind_Ok _ _ _ _ _ (onHeap_Ok _ w1 _ _ E)).
    unfold endShared, w1. cbn [heap owned shared weaks].
    by rewrite delete_insert_id. }
  split; [|split]; unfold exec, run.
  - assert (step (SCopy y x) w
            = Ok (tt, {| heap := h1; owned := owned w;
                         shared := <[y := this]> (shared w);
                         weaks := weaks w |})) as E1.
    { unfold step.
      rewrite (bind_Ok _ _ _ _ _ (freshShared_Ok _ _ Hy)).
      rewrite (bind_Ok _ _ _ _ _ (getShared_Ok _ _ _ Hx)).
      by rewrite (bind_Ok _ _ _ _ _ (onHeap_Ok _ _ _ _ Hc)). }
    rewrite (bind_Ok _ _ _ _ _ E1).
    rewrite (bind_Ok _ _ _ _ _ (Hdrop _ _ _ Hd)).
    unfold ret. by rewrite world_eta.
  - assert (step (WFromShared v x) w
            = Ok (tt, {| heap := h2; owned := owned w; shared := shared w;
                         weaks := <[v := WeakPtr.mk (SmartPtr.ptr this)
                                           (SmartPtr.refcount this)]>
                                    (weaks w) |})) as E1.
    { unfold step.
      rewrite (bind_Ok _ _ _ _ _ (freshWeak_Ok _ _ Hv)).
      rewrite (bind_Ok _ _ _ _ _ (getShared_Ok _ _ _ Hx)).
      by rewrite (bind_Ok _ _ _ _ _ (onHeap_Ok _ _ _ _ Hf)). }
    rewrite (bind_Ok _ _ _ _ _ E1).
    set (w1 := {| heap := h2; owned := owned w; shared := shared w;
                  weaks := <[v := WeakPtr.mk (SmartPtr.ptr this)
                                    (SmartPtr.refcount this)]>
                             (weaks w) |}).
    assert (step (WDestroy v) w1 = Ok (tt, w)) as E2.
    { unfold step.
      rewrite (bind_Ok _ _ _ _ _
                 (getWeak_Ok w1 v _ (lookup_insert_eq _ _ _))).
      rewrite (bind_Ok _ _ _ _ _ (onHeap_Ok _ w1 _ _ Hwd)).
      unfold endWeak, w1. cbn [heap owned shared weaks].
      rewrite delete_insert_id by done. by rewrite world_eta. }
    by rewrite (bind_Ok _ _ _ _ _ E2).
  - assert (step (Upgrade y u) w
            = Ok (tt, {| heap := h3; owned := owned w;
                         shared := <[y := res]> (shared w);
                         weaks := weaks w |})) as E1.
    { unfold step.
      rewrite (bind_Ok _ _ _ _ _ (freshShared_Ok _ _ Hy)).
      rewrite (bind_Ok _ _ _ _ _ (getWeak_Ok _ _ _ Hu)).
      by rewrite (bind_Ok _ _ _ _ _ (onHeap_Ok _ _ _ _ Hupg)). }
    rewrite (bind_Ok _ _ _ _ _ E1).
    rewrite (bind_Ok _ _ _ _ _ (Hdrop _ _ _ Hud)).
    unfold ret. by rewrite world_eta.
Qed.

Lemma temporary_handles_leave_no_trace_witness :
  exec [SCopy 1%nat 0%nat; SDestroy 1%nat] oneSharedOneWeak
  = Ok oneSharedOneWeak /\
  exec [WFromShared 1%nat 0%nat; WDestroy 1%nat] oneSharedOneWeak
  = Ok oneSharedOneWeak /\
  exec [Upgrade 1%nat 0%nat; SDestroy 1%nat] oneSharedOneWeak
  = Ok oneSharedOneWeak.
Proof.
  apply (temporary_handles_leave_no_trace oneSharedOneWeak
           0%nat 1%nat 0%nat 1%nat (SmartPtr.mk (Some 0%nat) (Some 0%nat))
           (WeakPtr.mk (Some 0%nat) (Some 0%nat)));
    reflexivity.
Defined.

(** ** Exclusive handles *)

Ltac look :=
  repeat match goal with
  | H : <[_ := _]> _ !! _ = Some _ |- _ =>
      apply lookup_insert_Some in H as [[? ?]|[? ?]]
  | H : delete _ _ !! _ = Some _ |- _ =>
      apply lookup_delete_Some in H as [? ?]
  | H : _ ∈ _ ++ _ |- _ => apply elem_of_app in H as [?|?]
  | H : _ ∈ [_] |- _ => apply list_elem_of_singleton in H
  end; simplify_eq.

Lemma Accounted_ext ow ow' d no :
  (forall x o, ow' !! x = Some (OwnedPtr.mk (Some o)) <->
               ow !! x = Some (OwnedPtr.mk (Some o))) ->
  Accounted ow d no -> Accounted ow' d no.
Proof.
  intros E (H1 & H2 & H3 & H4 & H5). repeat split.
  - intros x y o Hx%E Hy%E. eauto.
  - by apply (H2 x), E.
  - by apply (H2 x), E.
  - done.
  - done.
  - intros o Ho. destruct (H5 o Ho) as [?|[x Hx%E]]; eauto.
Qed.

Lemma Accounted_new ow d no x :
  ow !! x = None -> Accounted ow d no ->
  Accounted (<[x := OwnedPtr.mk (Some no)]> ow) d (S no).
Proof.
  intros Ex (H1 & H2 & H3 & H4 & H5). repeat split.
  - intros x0 y o Hx0 Hy. look; try done;
      try (match goal with
           | H : ow !! _ = Some _ |- _ => apply H2 in H; lia
           end).
    eauto.
  - look; [intros Hd%H4; lia|].
    match goal with H : ow !! _ = Some _ |- _ => apply H2 in H as [? ?]; done end.
  - look; [lia|].
    match goal with H : ow !! _ = Some _ |- _ => apply H2 in H; lia end.
  - done.
  - intros o Ho%H4. lia.
  - intros o Ho. destruct (decide (o = no)) as [->|Hne].
    + right. exists x. by rewrite lookup_insert_eq.
    + destruct (H5 o) as [?|[x0 Hx0]]; [lia|by left|].
      right. exists x0. rewrite lookup_insert_ne; [done|congruence].
Qed.

(** Dropping what a handle holds: reset(NULL), or the destructor before
    the storage goes away. *)
Lemma Accounted_drop ow d no x p :
  ow !! x = Some p -> Accounted ow d no ->
  Accounted (<[x := OwnedPtr.mk None]> ow) (d ++ held [OwnedPtr.ptr p]) no.
Proof.
  intros Ex (H1 & H2 & H3 & H4 & H5).
  destruct p as [[o0|]]; cbn [OwnedPtr.ptr].
  - change (held [Some o0]) with [o0].
    destruct (H2 _ _ Ex) as [Hnd Hlt]. repeat split.
    + intros x0 y o Hx0 Hy. look. eauto.
    + intros Hd. look.
      * match goal with H : ow !! _ = Some _ |- _ => apply H2 in H as [? ?]; done end.
      * match goal with H : ow !! ?z = Some _, Hn : x <> ?z |- _ =>
          pose proof (H1 _ _ _ H Ex) end. congruence.
    + look. match goal with H : ow !! _ = Some _ |- _ =>
              apply H2 in H as [? ?]; done end.
    + apply NoDup_app. split; [done|]. split; [|apply NoDup_singleton].
      intros o Ho Ho'. look. done.
    + intros o Ho. look; eauto.
    + intros o Ho. destruct (H5 o Ho) as [?|[x0 Hx0]].
      * left. apply elem_of_app. by left.
      * destruct (decide (x0 = x)) as [->|Hne].
        -- left. rewrite Ex in Hx0. injection Hx0 as ->.
           apply elem_of_app. right. by apply list_elem_of_singleton.
        -- right. exists x0. by rewrite lookup_insert_ne.
  - change (held [None]) with (@nil obj). rewrite app_nil_r.
    apply (Accounted_ext ow); [|done].
    intros x0 o. rewrite lookup_insert_Some. split.
    + intros [[? ?]|[? ?]]; [done|done].
    + intros Hx0. right. split; [|done]. intros <-. congruence.
Qed.

(** Moving what [y] holds into [x], which holds nothing or is new. *)
Lemma Accounted_transfer ow d no x y other :
  ow !! y = Some other -> x <> y ->
  (forall o, ow !! x <> Some (OwnedPtr.mk (Some o))) ->
  Accounted ow d no ->
  Accounted (<[x := OwnedPtr.mk (OwnedPtr.ptr other)]>
               (<[y := OwnedPtr.mk None]> ow)) d no.
Proof.
  intros Ey Hxy Hx (H1 & H2 & H3 & H4 & H5). destruct other as [q].
  cbn [OwnedPtr.ptr]. repeat split.
  - intros x0 y0 o Hx0 Hy0. look; try done.
    + match goal with H : ow !! ?z = Some _, Hn : y <> ?z |- _ =>
        pose proof (H1 _ _ _ H Ey) end. congruence.
    + match goal with H : ow !! ?z = Some _, Hn : y <> ?z |- _ =>
        pose proof (H1 _ _ _ H Ey) end. congruence.
    + eauto.
  - look; [by apply (H2 _ _ Ey)|].
    match goal with H : ow !! _ = Some _ |- _ => apply H2 in H as [? ?]; done end.
  - look; [by apply (H2 _ _ Ey)|].
    match goal with H : ow !! _ = Some _ |- _ => apply H2 in H as [? ?]; done end.
  - done.
  - done.
  - intros o Ho. destruct (H5 o Ho) as [?|[x0 Hx0]]; [by left|].
    right. destruct (decide (x0 = y)) as [->|Hne].
    + exists x. rewrite lookup_insert_eq. congruence.
    + exists x0. rewrite !lookup_insert_ne; [done|done|].
      intros <-. by apply (Hx o).
Qed.

Lemma Accounted_remove ow d no x :
  ow !! x = Some (OwnedPtr.mk None) ->
  Accounted ow d no -> Accounted (delete x ow) d no.
Proof.
  intros Ex. apply Accounted_ext. intros x0 o.
  rewrite lookup_delete_Some. split; [tauto|].
  intros Hx0. split; [|done]. intros <-. congruence.
Qed.

Lemma exclusive_step_ok st w :
  ExclusiveInv w ->
  Exclusive.step st w <> Undefined /\
  forall w', Exclusive.step st w = Ok (tt, w') -> ExclusiveInv w'.
Proof.
  intros Hinv. destruct w as [h ow sw ww]. destruct h as [bs nb no d f].
  unfold ExclusiveInv in *. cbn [heap owned nextObj destroyed] in *.
  destruct st; unfold Exclusive.step; w_unfold;
    unfold OwnedPtr.newOwned, OwnedPtr.clear, OwnedPtr.reset,
      OwnedPtr.destructor, OwnedPtr.release, OwnedPtr.releaseRaw,
      OwnedPtr.empty; m_unfold;
    cbn [heap owned shared weaks fst snd nextObj destroyed blocks].
  - (* New *)
    destruct (ow !! x) eqn:Ex; (split; [done|]); intros w' [= <-];
      cbn [heap owned nextObj destroyed].
    by apply Accounted_new.
  - (* Empty *)
    destruct (ow !! x) eqn:Ex; (split; [done|]); intros w' [= <-];
      cbn [heap owned nextObj destroyed].
    apply (Accounted_ext ow); [|done]. intros x0 o.
    rewrite lookup_insert_Some. split; [intros [[? ?]|[? ?]]; done|].
    intros Hx0. right. split; [congruence|done].
  - (* Move *)
    destruct (ow !! x) eqn:Ex; [split; [done|]; intros w' [=]|].
    cbn [heap owned]. destruct (ow !! y) as [other|] eqn:Ey;
      (split; [done|]); intros w' [= <-];
      cbn [heap owned nextObj destroyed OwnedPtr.ptr].
    apply (Accounted_transfer ow d no x y other); try done; congruence.
  - (* MoveAssign *)
    destruct (ow !! x) as [this|] eqn:Ex; [|split; [done|]; intros w' [=]].
    cbn [heap owned]. destruct (ow !! y) as [other|] eqn:Ey;
      [|split; [done|]; intros w' [=]].
    cbn [heap owned].
    destruct (decide (x = y)) as [->|Hxy].
    + rewrite lookup_insert_eq. cbn [OwnedPtr.ptr heap owned].
      split; [done|]. intros w' [= <-].
      cbn [heap owned nextObj destroyed].
      apply (Accounted_ext ow); [|done]. intros x0 o.
      rewrite insert_insert_eq, lookup_insert_Some. destruct other as [q].
      cbn [OwnedPtr.ptr]. split.
      * intros [[<- ?]|[? ?]]; congruence.
      * intros Hx0. destruct (decide (y = x0)) as [<-|Hne];
          [left|right]; split; congruence.
    + rewrite lookup_insert_ne by done. rewrite Ex.
      pose proof (Accounted_drop _ _ _ _ _ Ex Hinv) as Hdrop.
      assert (Accounted
                (<[x := OwnedPtr.mk (OwnedPtr.ptr other)]>
                   (<[y := OwnedPtr.mk None]> ow))
                (d ++ held [OwnedPtr.ptr this]) no) as Hacc.
      { assert (<[x := OwnedPtr.mk (OwnedPtr.ptr other)]>
                  (<[y := OwnedPtr.mk None]>
                     (<[x := OwnedPtr.mk None]> ow))
                = <[x := OwnedPtr.mk (OwnedPtr.ptr other)]>
                    (<[y := OwnedPtr.mk None]> ow)) as <-.
        { rewrite (insert_insert_ne _ y x) by done.
          by rewrite insert_insert_eq. }
        apply Accounted_transfer; try done.
        - by rewrite lookup_insert_ne.
        - intros o. by rewrite lookup_insert_eq. }
      destruct this as [[o0|]]; cbn [OwnedPtr.ptr heap owned] in *;
        (split; [done|]); intros w' [= <-];
        cbn [heap owned nextObj destroyed]; [exact Hacc|].
      change (held [None]) with (@nil obj) in Hacc.
      by rewrite app_nil_r in Hacc.
  - (* Release *)
    destruct (ow !! x) eqn:Ex; [split; [done|]; intros w' [=]|].
    cbn [heap owned]. destruct (ow !! y) as [other|] eqn:Ey;
      (split; [done|]); intros w' [= <-];
      cbn [heap owned nextObj destroyed OwnedPtr.ptr].
    apply (Accounted_transfer ow d no x y other); try done; congruence.
  - (* Clear *)
    destruct (ow !! x) as [this|] eqn:Ex; [|split; [done|]; intros w' [=]].
    pose proof (Accounted_drop _ _ _ _ _ Ex Hinv) as Hdrop.
    destruct this as [[o0|]]; cbn [OwnedPtr.ptr heap owned] in *;
      (split; [done|]); intros w' [= <-];
      cbn [heap owned nextObj destroyed]; [exact Hdrop|].
    change (held [None]) with (@nil obj) in Hdrop.
    by rewrite app_nil_r in Hdrop.
  - (* Destroy *)
    destruct (ow !! x) as [this|] eqn:Ex; [|split; [done|]; intros w' [=]].
    pose proof (Accounted_drop _ _ _ _ _ Ex Hinv) as Hdrop.
    apply (Accounted_remove _ _ _ x) in Hdrop;
      [|by rewrite lookup_insert_eq].
    rewrite delete_insert_eq in Hdrop.
    destruct this as [[o0|]]; cbn [OwnedPtr.ptr heap owned] in *;
      (split; [done|]); intros w' [= <-];
      cbn [heap owned nextObj destroyed]; [exact Hdrop|].
    change (held [None]) with (@nil obj) in Hdrop.
    by rewrite app_nil_r in Hdrop.
Qed.

Lemma ExclusiveInv_empty : ExclusiveInv emptyWorld.
Proof.
  unfold ExclusiveInv, emptyWorld, emptyHeap.
  cbn [heap owned nextObj destroyed]. repeat split.
  - intros x y o Hx. by rewrite lookup_empty in Hx.
  - by rewrite lookup_empty in H.
  - by rewrite lookup_empty in H.
  - apply NoDup_nil_2.
  - intros o Ho. by apply elem_of_nil in Ho.
  - intros o Ho. lia.
Qed.

Lemma exclusive_exec_ok prog :
  forall w, ExclusiveInv w ->
    Exclusive.exec prog w <> Undefined /\
    forall w', Exclusive.exec prog w = Ok w' -> ExclusiveInv w'.
Proof.
  unfold Exclusive.exec.
  induction prog as [|st rest IH]; intros w Hinv.
  - simpl. unfold ret. split; [done|]. by intros w' [= <-].
  - cbn [Exclusive.run]. unfold bind.
    destruct (exclusive_step_ok st w Hinv) as [Hne Hstep].
    destruct (Exclusive.step st w) as [[[] w1]| |]; [|done|].
    + apply IH. by apply Hstep.
    + split; [done|]. intros w' [=].
Qed.

(** X21: exclusive handles account for every object. For every program
    of exclusive-handle operations (newOwned, default construction, move
    construction, move assignment, release(), clear(), destruction) run
    from the start, nothing undefined happens, and afterwards no two
    handles own one object, no object a handle owns has been destroyed,
    no object has been destroyed twice, and every object that was
    allocated is either owned by a handle or destroyed: nothing leaks. *)
Theorem exclusive_handles_account_for_every_object
  (prog : list Exclusive.Stmt) :
  Exclusive.exec prog emptyWorld <> Undefined /\
  forall w, Exclusive.exec prog emptyWorld = Ok w ->
    (forall x y o, owned w !! x = Some (OwnedPtr.mk (Some o)) ->
       owned w !! y = Some (OwnedPtr.mk (Some o)) -> x = y) /\
    (forall x o, owned w !! x = Some (OwnedPtr.mk (Some o)) ->
       o ∉ destroyed (heap w)) /\
    NoDup (destroyed (heap w)) /\
    (forall o, (o < nextObj (heap w))%nat ->
       o ∈ destroyed (heap w) \/
       exists x, owned w !! x = Some (OwnedPtr.mk (Some o))) /\
    (owned w = ∅ ->
       Permutation (destroyed (heap w)) (seq 0 (nextObj (heap w)))).
Proof.
  destruct (exclusive_exec_ok prog emptyWorld ExclusiveInv_empty)
    as [Hne Hinv].
  split; [done|]. intros w Hw.
  destruct (Hinv w Hw) as (H1 & H2 & H3 & H4 & H5).
  split; [done|]. split; [intros x o Hx; by apply (H2 x o)|].
  split; [done|]. split; [done|].
  intros Hempty. apply list.NoDup_Permutation; [done|apply NoDup_seq|].
  intros o. rewrite elem_of_seq. split.
  - intros Ho%H4. lia.
  - intros Ho. destruct (H5 o) as [?|[x Hx]]; [lia|done|].
    rewrite Hempty, lookup_empty in Hx. done.
Qed.

Lemma exclusive_handles_account_for_every_object_witness :
  Exclusive.exec moveAndDrop emptyWorld <> Undefined /\
  NoDup (destroyed (heap moveAndDropEnd)).
Proof.
  assert (Exclusive.exec moveAndDrop emptyWorld = Ok moveAndDropEnd) as E
    by (vm_compute; reflexivity).
  split.
  - exact (proj1 (exclusive_handles_account_for_every_object moveAndDrop)).
  - exact (proj1 (proj2 (proj2
      (proj2 (exclusive_handles_account_for_every_object moveAndDrop)
         moveAndDropEnd E)))).
Defined.

End ExtraProofs.
